(** * E-commerce data analysis: daily sales series, forecasting evaluation
      and RFM scoring

    A shallow embedding of the computational cells of
    [notebooks/04_sales_forecasting.ipynb] and
    [notebooks/03_customer_segmentation.ipynb].

    Conventions.
    - A date is the number of days since an arbitrary epoch ([Z]); the
      difference of two dates is the [.days] of their timedelta.
    - A float is modelled by an exact rational ([Q]); the non-finite results
      a float division can produce are made explicit in [fval].  Where the
      rounding of binary64 decides a property, the computation is modelled
      in binary64 as well ([Float64], [MetricsFloat]).
    - A pandas Series with a date index is a list of (date, value) pairs in
      index order; a positional Series is a list of values.
    - A Python exception is the [Raise] branch of [result]. *)

From Stdlib Require Import List ZArith QArith Qround Qabs Qreals Reals.
From Stdlib Require Import Bool Psatz Permutation Sorted SetoidList.
From Stdlib Require Import SetoidPermutation ZifyNat.
From Stdlib Require String DecimalString SpecFloat.
Import ListNotations.

(** ** Exceptions *)

Inductive exn : Type :=
| ValueError
| KeyError
| ZeroDivisionError.

Inductive result (A : Type) : Type :=
| Ok (a : A)
| Raise (e : exn).

Arguments Ok {A} a.
Arguments Raise {A} e.

Definition bind {A B : Type} (r : result A) (k : A -> result B) : result B :=
  match r with
  | Ok a => k a
  | Raise e => Raise e
  end.

Notation "x <- r ;; k" := (bind r (fun x => k))
  (at level 61, r at next level, right associativity).

(** ** Data model *)

Definition date := Z.

Record transaction : Type := mkTransaction {
  order_id : Z;
  order_date : date;
  customer_id : Z;
  product_id : Z;
  category : String.string;
  price : Q;
  quantity : Z
}.

(** A date-indexed Series. *)
Definition series := list (date * Q).

Definition index (s : series) : list date := map fst s.
Definition values (s : series) : list Q := map snd s.

(** The names of the evaluated models in the metrics table. *)
Module ModelNames.
Import String.
Definition holt_winters : string := "Holt-Winters".
Definition sarima : string := "SARIMA".
End ModelNames.

(** A float result that may be non-finite. *)
Inductive fval : Type :=
| Finite (q : Q)
| PosInf
| NegInf
| NaN.

(** The exact square root of a non-negative [x], carried by its radicand
    so that the metrics stay computable; [root_val] is the real number it
    denotes.  [np.sqrt] returns its rounding to binary64
    ([Float64.sqrt]). *)
Record root : Type := Sqrt { radicand : Q }.

Definition root_val (r : root) : R := sqrt (Q2R (radicand r)).

Definition Qlt_bool (x y : Q) : bool := negb (Qle_bool y x).

Definition Qsum (l : list Q) : Q := fold_left Qplus l 0.

Definition Qofnat (n : nat) : Q := inject_Z (Z.of_nat n).

(** [np.rint]: the nearest integer, ties to the even one. *)
Definition rint (x : Q) : Z :=
  let f := Qfloor x in
  let r := (x - inject_Z f)%Q in
  if Qlt_bool r (1 # 2) then f
  else if Qlt_bool (1 # 2) r then (f + 1)%Z
  else if Z.even f then f else (f + 1)%Z.

(** Rounding to two decimals, ties to even: [DataFrame.round(2)], and the
    number a [.2f] format prints. *)
Definition round2 (x : Q) : Q := (inject_Z (rint (x * 100)) / 100)%Q.

(** ** The pandas operations the notebooks call *)

Module Pandas.

Open Scope Z_scope.

Section GroupBy.

Variable A : Type.
Variable key : A -> Z.

(** [df.groupby(key)]: one group per distinct key, keys ascending, each
    group holding its rows in row order. *)
Fixpoint add_row (t : A) (g : list (Z * list A)) : list (Z * list A) :=
  match g with
  | [] => [(key t, [t])]
  | (k, rows) :: g' =>
      if key t <? k then (key t, [t]) :: g
      else if key t =? k then (k, rows ++ [t]) :: g'
      else (k, rows) :: add_row t g'
  end.

Definition groupby (df : list A) : list (Z * list A) :=
  fold_left (fun g t => add_row t g) df [].

End GroupBy.

Arguments add_row {A} key t g.
Arguments groupby {A} key df.

(** [Series.min()] and [Series.max()] on dates; [None] is NaT, the result
    on an empty Series. *)
Definition dates_min (l : list date) : option date :=
  match l with
  | [] => None
  | d :: ds => Some (fold_left Z.min ds d)
  end.

Definition dates_max (l : list date) : option date :=
  match l with
  | [] => None
  | d :: ds => Some (fold_left Z.max ds d)
  end.

(** [pd.date_range(start, end)]: every day from [start] to [end] inclusive;
    a NaT bound raises ValueError. *)
Definition date_range (start stop : option date) : result (list date) :=
  match start, stop with
  | Some lo, Some hi =>
      Ok (map (fun k => lo + Z.of_nat k) (seq 0 (Z.to_nat (hi - lo + 1))))
  | _, _ => Raise ValueError
  end.

Fixpoint lookup {V : Type} (k : Z) (s : list (Z * V)) : option V :=
  match s with
  | [] => None
  | (k', v) :: s' => if k =? k' then Some v else lookup k s'
  end.

(** [s.reindex(idx, fill_value=fill)]. *)
Definition reindex (s : series) (idx : list date) (fill : Q) : series :=
  map (fun d => (d, match lookup d s with Some v => v | None => fill end)) idx.

(** [Series.rolling(window).mean()] with the default [min_periods = window]:
    the sliding computation, which keeps the number of observations and
    their sum, drops the value leaving the window, adds the one entering it
    and emits NaN ([None]) while fewer than [min_periods] values are held. *)
Definition calc_mean (minp nobs : nat) (sum_x : Q) : option Q :=
  if ((minp <=? nobs) && (0 <? nobs))%nat then Some (sum_x / Qofnat nobs)%Q
  else None.

Fixpoint roll_mean_loop (vals : list Q) (w : nat) (i nobs : nat) (sum_x : Q)
    (rest : list Q) : list (option Q) :=
  match rest with
  | [] => []
  | v :: rest' =>
      let '(nobs1, sum1) :=
        if (w <=? i)%nat then (pred nobs, (sum_x - nth (i - w) vals 0)%Q)
        else (nobs, sum_x) in
      let nobs2 := S nobs1 in
      let sum2 := (sum1 + v)%Q in
      calc_mean w nobs2 sum2 :: roll_mean_loop vals w (S i) nobs2 sum2 rest'
  end.

Definition rolling_mean (vals : list Q) (window : nat) : list (option Q) :=
  match window with
  | O => map (fun _ => None) vals
  | _ => roll_mean_loop vals window 0 0 0%Q vals
  end.

(** Sorting, as the quantile computation does before it interpolates. *)
Fixpoint insert_sorted (x : Q) (l : list Q) : list Q :=
  match l with
  | [] => [x]
  | y :: l' => if Qle_bool x y then x :: l else y :: insert_sorted x l'
  end.

Definition sort (l : list Q) : list Q := fold_right insert_sorted [] l.

(** [np.linspace(0, 1, q + 1)], the exact fractions [k/q]; numpy rounds
    them to binary64 and returns 0.6000000000000001 for [3/5]. *)
Definition linspace (q : nat) : list Q :=
  map (fun k => Z.of_nat k # Pos.of_nat q) (seq 0 (S q)).

(** [Series.quantile(p)] with linear interpolation, on the sorted values,
    in exact arithmetic. *)
Definition quantile (sorted : list Q) (p : Q) : Q :=
  let n := length sorted in
  let pos := (p * Qofnat (n - 1))%Q in
  let lo := Z.to_nat (Qfloor pos) in
  let hi := Nat.min (S lo) (n - 1) in
  let gamma := (pos - inject_Z (Qfloor pos))%Q in
  (nth lo sorted 0 + (nth hi sorted 0 - nth lo sorted 0) * gamma)%Q.

(** [bins.searchsorted(x, side='left')] on ascending [bins]: the number of
    edges strictly below [x]. *)
Fixpoint searchsorted_left (bins : list Q) (x : Q) : nat :=
  match bins with
  | [] => O
  | b :: bs => if Qlt_bool b x then S (searchsorted_left bs x) else O
  end.

Fixpoint has_duplicates (l : list Q) : bool :=
  match l with
  | [] => false
  | x :: l' => existsb (Qeq_bool x) l' || has_duplicates l'
  end.

(** The bin number of [x] in [_bins_to_cuts] with [right=True] and
    [include_lowest=True]; [0] and [len(bins)] mean "outside every bin". *)
Definition bin_id (bins : list Q) (x : Q) : nat :=
  match bins with
  | b0 :: _ => if Qeq_bool x b0 then 1%nat else searchsorted_left bins x
  | [] => searchsorted_left bins x
  end.

(** [_bins_to_cuts(x, bins, labels=labels, include_lowest=True)] with the
    default [duplicates='raise'], the step of [pd.qcut] that follows the
    computation of the edges.  A value outside every bin gets no label
    ([None], NaN in pandas). *)
Definition bins_to_cuts (x bins : list Q) (labels : list Z)
    : result (list (option Z)) :=
  if has_duplicates bins && negb (length bins =? 2)%nat then Raise ValueError
  else if negb (length labels =? length bins - 1)%nat then Raise ValueError
  else
    Ok (map (fun v =>
               let id := bin_id bins v in
               if ((id =? 0) || (id =? length bins))%nat then None
               else nth_error labels (id - 1)) x).

(** [pd.qcut(x, q, labels=labels)]: the edges are the quantiles of [x] at
    [np.linspace(0, 1, q + 1)].  pandas interpolates them in binary64;
    here they are the exact values of the interpolation formula. *)
Definition qcut (x : list Q) (q : nat) (labels : list Z)
    : result (list (option Z)) :=
  bins_to_cuts x (map (quantile (sort x)) (linspace q)) labels.

End Pandas.

(** ** The statsmodels and scikit-learn operations the notebooks call *)

Module Stats.

Open Scope Q_scope.

(** [seasonal_decompose(x, period=period)], additive model.  The trend is
    the centred moving average over one period (NaN at both ends), the
    seasonal component the period-wise means of the detrended series,
    centred; the residual is what is left. *)
Record decomposition : Type := mkDecomposition {
  trend : list (option Q);
  seasonal : list Q;
  resid : list (option Q)
}.

Definition decompose_filter (period : nat) : list Q :=
  if Nat.even period
  then ((1 # 2) / Qofnat period)
         :: repeat (1 / Qofnat period) (period - 1) ++ [(1 # 2) / Qofnat period]
  else repeat (1 / Qofnat period) period.

Definition dot (a b : list Q) : Q :=
  Qsum (map (fun ab => fst ab * snd ab) (combine a b)).

Definition convolution_filter (x filt : list Q) : list (option Q) :=
  let half := ((length filt - 1) / 2)%nat in
  map (fun t =>
         if ((half <=? t) && (t + half <? length x))%nat
         then Some (dot filt (firstn (length filt) (skipn (t - half) x)))
         else None)
      (seq 0 (length x)).

Definition detrend (x : list Q) (tr : list (option Q)) : list (option Q) :=
  map (fun xt => match snd xt with
                 | Some m => Some (fst xt - m)
                 | None => None
                 end) (combine x tr).

Definition nanmean_opt (l : list (option Q)) : Q :=
  let present := flat_map (fun o => match o with Some v => [v] | None => [] end) l in
  Qsum present / Qofnat (length present).

Definition seasonal_mean (d : list (option Q)) (period : nat) : list Q :=
  map (fun i =>
         nanmean_opt (map (fun j => nth (i + j * period) d None)
                          (seq 0 ((length d - i + period - 1) / period))))
      (seq 0 period).

Definition seasonal_decompose (x : list Q) (period : nat) : result decomposition :=
  if (length x <? 2 * period)%nat then Raise ValueError
  else
    let tr := convolution_filter x (decompose_filter period) in
    let detrended := detrend x tr in
    let avg := seasonal_mean detrended period in
    let centre := Qsum avg / Qofnat (length avg) in
    let period_averages := map (fun a => a - centre) avg in
    let seas := map (fun t => nth (t mod period) period_averages 0)
                    (seq 0 (length x)) in
    Ok {| trend := tr;
          seasonal := seas;
          resid := map (fun ds => match fst ds with
                                  | Some v => Some (v - snd ds)
                                  | None => None
                                  end) (combine detrended seas) |}.

(** A model class ([ExponentialSmoothing], [SARIMAX]) with its options
    fixed.  Fitting is numerical optimisation inside statsmodels; what the
    notebooks use of its result is the point forecast [k] steps after the
    end of the training data ([k >= 1]). *)
Record estimator : Type := mkEstimator {
  fit : list Q -> result (nat -> Q)
}.

(** [results.forecast(steps)] of a model fitted on [train]: [steps]
    values, indexed by the days that follow the last day of the training
    index.  A horizon of 0 raises ValueError; a results object exists only
    for a training series with observations, so the call on an empty one is
    an error as well. *)
Definition forecast (train : series) (point : nat -> Q) (steps : nat)
    : result series :=
  match steps, rev (index train) with
  | O, _ => Raise ValueError
  | S _, [] => Raise ValueError
  | S _, end_date :: _ =>
      Ok (map (fun k => ((end_date + Z.of_nat k)%Z, point k)) (seq 1 steps))
  end.

(** scikit-learn's input validation: both arrays of the same, non-zero
    length. *)
Definition check_targets (y_true y_pred : list Q) : result unit :=
  if negb (length y_true =? length y_pred)%nat then Raise ValueError
  else if (length y_true =? 0)%nat then Raise ValueError
  else Ok tt.

Definition mean_absolute_error (y_true y_pred : list Q) : result Q :=
  _ <- check_targets y_true y_pred ;;
  Ok (Qsum (map (fun tp => Qabs (snd tp - fst tp)) (combine y_true y_pred))
      / Qofnat (length y_true)).

Definition mean_squared_error (y_true y_pred : list Q) : result Q :=
  _ <- check_targets y_true y_pred ;;
  Ok (Qsum (map (fun tp => (fst tp - snd tp) * (fst tp - snd tp))
                (combine y_true y_pred))
      / Qofnat (length y_true)).

(** Float division of finite operands: a zero divisor gives an infinity
    or NaN, never an exception. *)
Definition fdiv (x y : Q) : fval :=
  if Qeq_bool y 0 then
    if Qeq_bool x 0 then NaN
    else if Qlt_bool 0 x then PosInf else NegInf
  else Finite (x / y).

Definition fabs (v : fval) : fval :=
  match v with
  | Finite q => Finite (Qabs q)
  | PosInf | NegInf => PosInf
  | NaN => NaN
  end.

Definition fadd (a b : fval) : fval :=
  match a, b with
  | NaN, _ | _, NaN => NaN
  | PosInf, NegInf | NegInf, PosInf => NaN
  | PosInf, _ | _, PosInf => PosInf
  | NegInf, _ | _, NegInf => NegInf
  | Finite x, Finite y => Finite (x + y)
  end.

(** Multiplication and division by a positive finite constant. *)
Definition fscale (a : fval) (c : Q) : fval :=
  match a with
  | Finite x => Finite (x * c)
  | other => other
  end.

Definition is_nan (v : fval) : bool :=
  match v with NaN => true | _ => false end.

(** [np.mean] of a pandas Series is [Series.mean()], which skips NaN
    entries; the mean of no entries is NaN. *)
Definition series_mean (l : list fval) : fval :=
  let present := filter (fun v => negb (is_nan v)) l in
  match present with
  | [] => NaN
  | _ => fscale (fold_left fadd present (Finite 0)) (1 / Qofnat (length present))
  end.

End Stats.

(** ** notebooks/04_sales_forecasting.ipynb *)

Module Forecasting.

Import Pandas Stats.
Open Scope Z_scope.

(** Cell "Create daily sales time series". *)
Definition daily_sales (df : list transaction) : result series :=
  let grouped :=
    map (fun g => (fst g, Qsum (map price (snd g)))) (groupby order_date df) in
  idx <- date_range (dates_min (index grouped)) (dates_max (index grouped)) ;;
  Ok (reindex grouped idx 0%Q).

(** [int(x)] on a float: truncation towards zero. *)
Definition int_of (x : Q) : Z :=
  if Qle_bool 0 x then Qfloor x else Qceiling x.

(** Cell "Split data into train and test sets". *)
Definition train_size (len : nat) : nat :=
  Z.to_nat (int_of (Qofnat len * (8 # 10))%Q).

Definition train_data (s : series) : series :=
  firstn (train_size (length s)) s.

Definition test_data (s : series) : series :=
  skipn (train_size (length s)) s.

(** Cell "Simple Moving Average"; the result keeps the index of [data]. *)
Definition calculate_moving_average (data : series) (window : nat)
    : list (date * option Q) :=
  combine (index data) (rolling_mean (values data) window).

(** Cell "Model Evaluation", the exact values of the three formulas.  Both
    arguments carry the same date index, so the Series arithmetic of the
    MAPE line is positional.  The code evaluates the formulas in binary64:
    [MetricsFloat.calculate_metrics]. *)
Definition calculate_metrics (actual predicted : list Q)
    : result (Q * root * fval) :=
  mae <- mean_absolute_error actual predicted ;;
  mse <- mean_squared_error actual predicted ;;
  let rmse := Sqrt mse in
  let mape :=
    fscale (series_mean
              (map (fun ap => fabs (fdiv (fst ap - snd ap) (fst ap)))
                   (combine actual predicted)))
           100 in
  Ok (mae, rmse, mape).

(** Cells "Time Series Decomposition" to "Save Model and Predictions", run
    top to bottom; an exception in a cell halts the run. *)
Record outputs : Type := mkOutputs {
  ma_predictions : list (date * option Q);
  metrics_df : list (String.string * (Q * root * fval));
  forecast_df : series
}.

Definition future_periods : nat := 30.

Definition notebook (hw sarima : estimator) (df : list transaction)
    : result outputs :=
  sales <- daily_sales df ;;
  _ <- seasonal_decompose (values sales) 7 ;;
  let train := train_data sales in
  let test := test_data sales in
  let ma := calculate_moving_average train 7 in
  hw_results <- fit hw (values train) ;;
  hw_predictions <- forecast train hw_results (length test) ;;
  sarima_results <- fit sarima (values train) ;;
  sarima_predictions <- forecast train sarima_results (length test) ;;
  hw_metrics <- calculate_metrics (values test) (values hw_predictions) ;;
  sarima_metrics <- calculate_metrics (values test) (values sarima_predictions) ;;
  final_results <- fit hw (values sales) ;;
  future_predictions <- forecast sales final_results future_periods ;;
  Ok {| ma_predictions := ma;
        metrics_df := [(ModelNames.holt_winters, hw_metrics);
                       (ModelNames.sarima, sarima_metrics)];
        forecast_df := future_predictions |}.

(** Cells "Data Preparation" and "Time Series Decomposition" alone. *)
Definition time_series_preparation (df : list transaction)
    : result (series * decomposition) :=
  sales <- daily_sales df ;;
  d <- seasonal_decompose (values sales) 7 ;;
  Ok (sales, d).

End Forecasting.

(** ** Binary64 arithmetic *)

(** IEEE 754 binary64 with rounding to nearest, ties to even: the
    arithmetic of a Python float and of numpy's float64. *)
Module Float64.

Import SpecFloat.

Definition prec : Z := 53.
Definition emax : Z := 1024.

Definition float : Type := spec_float.

Definition zero : float := S754_zero false.
Definition nan : float := S754_nan.

Definition add (x y : float) : float := SFadd prec emax x y.
Definition sub (x y : float) : float := SFsub prec emax x y.
Definition mul (x y : float) : float := SFmul prec emax x y.
Definition div (x y : float) : float := SFdiv prec emax x y.
Definition sqrt (x : float) : float := SFsqrt prec emax x.
Definition abs (x : float) : float := SFabs x.

Definition leb (x y : float) : bool := SFleb x y.
Definition ltb (x y : float) : bool := SFltb x y.

(** The float of a count. *)
Definition of_nat (n : nat) : float :=
  binary_normalize prec emax (Z.of_nat n) 0 false.

Definition is_nan (x : float) : bool :=
  match x with S754_nan => true | _ => false end.

Definition is_finite (x : float) : bool :=
  match x with
  | S754_zero _ | S754_finite _ _ _ => true
  | S754_infinity _ | S754_nan => false
  end.

(** The rational a finite float denotes. *)
Definition to_Q (x : float) : Q :=
  match x with
  | S754_finite s m e => (inject_Z (cond_Zopp s (Zpos m)) * Qpower 2 e)%Q
  | _ => 0%Q
  end.

End Float64.

(** ** The metrics in binary64 *)

Module MetricsFloat.

Import Float64.

(** numpy's pairwise summation of [n] contiguous float64 values: a plain
    loop below 8 values; up to 128 values eight running sums over the
    blocks of 8, combined pairwise, then the remaining values one by one;
    above 128 values the two halves, the first a multiple of 8 long, each
    summed in this way.  The recursion halves the length, so a fuel of the
    length is never used up. *)
Definition sum_loop (res : float) (a : list float) : float :=
  fold_left add a res.

Definition add8 (r blk : list float) : list float :=
  map (fun rb => add (fst rb) (snd rb)) (combine r blk).

Fixpoint add_blocks (k : nat) (r rest : list float) : list float :=
  match k with
  | O => r
  | S k' => add_blocks k' (add8 r (firstn 8 rest)) (skipn 8 rest)
  end.

Definition reduce8 (r : list float) : float :=
  match r with
  | [r0; r1; r2; r3; r4; r5; r6; r7] =>
      add (add (add r0 r1) (add r2 r3)) (add (add r4 r5) (add r6 r7))
  | _ => zero
  end.

Definition pairwise_block (a : list float) : float :=
  let full := (length a / 8)%nat in
  let r := add_blocks (full - 1) (firstn 8 a) (skipn 8 a) in
  sum_loop (reduce8 r) (skipn (8 * full) a).

Fixpoint pairwise_sum_rec (fuel : nat) (a : list float) : float :=
  let n := length a in
  if (n <? 8)%nat then sum_loop zero a
  else if (n <=? 128)%nat then pairwise_block a
  else
    match fuel with
    | O => pairwise_block a
    | S fuel' =>
        let n2 := (n / 2 - (n / 2) mod 8)%nat in
        add (pairwise_sum_rec fuel' (firstn n2 a))
            (pairwise_sum_rec fuel' (skipn n2 a))
    end.

Definition pairwise_sum (a : list float) : float :=
  pairwise_sum_rec (length a) a.

(** [np.sum]: the reduction starts from 0. *)
Definition np_sum (a : list float) : float := add zero (pairwise_sum a).

(** [np.mean], [np.average] without weights: the sum divided by the
    count. *)
Definition np_mean (a : list float) : float :=
  div (np_sum a) (of_nat (length a)).

(** scikit-learn's input validation: both arrays of the same, non-zero
    length, without NaN or infinity. *)
Definition check_targets (y_true y_pred : list float) : result unit :=
  if negb (length y_true =? length y_pred)%nat then Raise ValueError
  else if (length y_true =? 0)%nat then Raise ValueError
  else if negb (forallb is_finite y_true && forallb is_finite y_pred)
  then Raise ValueError
  else Ok tt.

(** [mean_absolute_error] and [mean_squared_error]: the mean of the errors
    over the samples, then the uniform average over the single output. *)
Definition mean_absolute_error (y_true y_pred : list float) : result float :=
  _ <- check_targets y_true y_pred ;;
  let output_errors :=
    np_mean (map (fun tp => abs (sub (snd tp) (fst tp)))
                 (combine y_true y_pred)) in
  Ok (np_mean [output_errors]).

Definition mean_squared_error (y_true y_pred : list float) : result float :=
  _ <- check_targets y_true y_pred ;;
  let output_errors :=
    np_mean (map (fun tp => mul (sub (fst tp) (snd tp))
                                (sub (fst tp) (snd tp)))
                 (combine y_true y_pred)) in
  Ok (np_mean [output_errors]).

(** [Series.mean()]: the NaN entries count as 0 in the sum and are left
    out of the count; NaN when nothing is left. *)
Definition series_mean (l : list float) : float :=
  let present := filter (fun v => negb (is_nan v)) l in
  match present with
  | [] => nan
  | _ => div (np_sum (map (fun v => if is_nan v then zero else v) l))
             (of_nat (length present))
  end.

(** Cell "Model Evaluation", [calculate_metrics] on float64 data. *)
Definition calculate_metrics (actual predicted : list float)
    : result (float * float * float) :=
  mae <- mean_absolute_error actual predicted ;;
  mse <- mean_squared_error actual predicted ;;
  let rmse := sqrt mse in
  let mape :=
    mul (series_mean
           (map (fun ap => abs (div (sub (fst ap) (snd ap)) (fst ap)))
                (combine actual predicted)))
        (of_nat 100) in
  Ok (mae, rmse, mape).

End MetricsFloat.

(** ** notebooks/03_customer_segmentation.ipynb *)

Module Segmentation.

Import Pandas.
Open Scope Z_scope.

Record rfm_row : Type := mkRfm {
  rfm_customer : Z;
  recency : Z;
  frequency : Z;
  monetary : Q
}.

(** Cell "Calculate RFM metrics". *)
Definition rfm (df : list transaction) : list rfm_row :=
  match dates_max (map order_date df) with
  | None => []
  | Some current_date =>
      map (fun g =>
             let x_max := match dates_max (map order_date (snd g)) with
                          | Some d => d
                          | None => current_date
                          end in
             {| rfm_customer := fst g;
                recency := current_date - x_max;
                frequency := Z.of_nat (length (snd g));
                monetary := Qsum (map price (snd g)) |})
          (groupby customer_id df)
  end.

Record rfm_score_row : Type := mkScores {
  scored : rfm_row;
  recency_score : option Z;
  frequency_score : option Z;
  monetary_score : option Z
}.

Fixpoint zip_scores (rows : list rfm_row) (r f m : list (option Z))
    : list rfm_score_row :=
  match rows, r, f, m with
  | row :: rows', sr :: r', sf :: f', sm :: m' =>
      {| scored := row; recency_score := sr;
         frequency_score := sf; monetary_score := sm |}
        :: zip_scores rows' r' f' m'
  | _, _, _, _ => []
  end.

(** Cell "Create RFM scores". *)
Definition rfm_scores (df : list transaction) : result (list rfm_score_row) :=
  let table := rfm df in
  r <- qcut (map (fun row => inject_Z (recency row)) table) 5 [5; 4; 3; 2; 1] ;;
  f <- qcut (map (fun row => inject_Z (frequency row)) table) 5 [1; 2; 3; 4; 5] ;;
  m <- qcut (map monetary table) 5 [1; 2; 3; 4; 5] ;;
  Ok (zip_scores table r f m).

(** The same cell, given the three lists of edges that the quantile
    computation inside [pd.qcut] returned for the recency, the frequency
    and the monetary column.  [rfm_scores] is the case of edges that carry
    no rounding error. *)
Definition rfm_scores_with
    (recency_bins frequency_bins monetary_bins : list Q)
    (df : list transaction) : result (list rfm_score_row) :=
  let table := rfm df in
  r <- bins_to_cuts (map (fun row => inject_Z (recency row)) table)
                    recency_bins [5; 4; 3; 2; 1] ;;
  f <- bins_to_cuts (map (fun row => inject_Z (frequency row)) table)
                    frequency_bins [1; 2; 3; 4; 5] ;;
  m <- bins_to_cuts (map monetary table) monetary_bins [1; 2; 3; 4; 5] ;;
  Ok (zip_scores table r f m).

End Segmentation.

(** ** Reference definitions used to state the properties *)

Section Reference.

Open Scope Z_scope.

(** The earliest and latest order date of a transaction set. *)
Definition min_date (df : list transaction) : option date :=
  Pandas.dates_min (map order_date df).

Definition max_date (df : list transaction) : option date :=
  Pandas.dates_max (map order_date df).

(** The prices of the orders placed on day [d], added in row order. *)
Definition sales_on (d : date) (df : list transaction) : Q :=
  Qsum (map price (filter (fun t => order_date t =? d) df)).

Definition has_order_on (d : date) (df : list transaction) : bool :=
  existsb (fun t => order_date t =? d) df.

(** The arithmetic mean of the [w] values of [data] that end at position
    [t], as the moving average is specified. *)
Definition window_mean (data : list Q) (w t : nat) : Q :=
  (Qsum (firstn w (skipn (S t - w) data)) / Qofnat w)%Q.

(** The absolute errors of a prediction, position by position. *)
Definition abs_errors (actual predicted : list Q) : list Q :=
  map (fun ap => Qabs (fst ap - snd ap)) (combine actual predicted).

(** The number of customers that received score [k]. *)
Definition bucket_size (k : Z) (scores : list (option Z)) : nat :=
  List.length (filter (fun s => match s with
                           | Some v => v =? k
                           | None => false
                           end) scores).

(** Scores that lie in 1..5 and fill the five buckets evenly, up to one
    customer. *)
Definition five_even_buckets (scores : list (option Z)) : Prop :=
  Forall (fun sc => exists k, sc = Some k /\ 1 <= k <= 5) scores /\
  forall z z', 1 <= z <= 5 -> 1 <= z' <= 5 ->
    (bucket_size z scores <= bucket_size z' scores + 1)%nat.

(** The two label orders the scoring step uses. *)
Definition labels_ascending : list Z := [1; 2; 3; 4; 5].
Definition labels_descending : list Z := [5; 4; 3; 2; 1].

(** What holds of the six edges the quantile computation returns for the
    values [x], whatever the rounding of its interpolation: the lowest is
    the least value, the highest the greatest, and they ascend. *)
Definition admissible_edges (x bins : list Q) : bool :=
  match bins with
  | [b0; b1; b2; b3; b4; b5] =>
      Qeq_bool b0 (nth 0 (Pandas.sort x) 0%Q)
      && Qeq_bool b5 (nth (List.length x - 1) (Pandas.sort x) 0%Q)
      && Qle_bool b0 b1 && Qle_bool b1 b2 && Qle_bool b2 b3
      && Qle_bool b3 b4 && Qle_bool b4 b5
  | _ => false
  end.


End Reference.

(** ** Vocabulary of the proofs *)

Section Vocabulary.

(** Keys in strictly ascending order, the shape [groupby] maintains. *)
Definition keys_below {A : Type} (k : Z) (g : list (Z * list A)) : Prop :=
  Forall (fun kr => (k < fst kr)%Z) g.

Inductive ascending {A : Type} : list (Z * list A) -> Prop :=
| ascending_nil : ascending []
| ascending_cons k rows g :
    keys_below k g -> ascending g -> ascending ((k, rows) :: g).

(** One term of the MAPE mean, and the finite value a term carries. *)
Definition ape_term (ap : Q * Q) : fval :=
  Stats.fabs (Stats.fdiv (fst ap - snd ap) (fst ap)).

Definition finite_part (v : fval) : Q :=
  match v with Finite x => x | _ => 0 end.

(** The terms of the MAPE mean, and those the mean keeps. *)
Definition ape_terms (c : list (Q * Q)) : list fval := map ape_term c.

Definition present_terms (c : list (Q * Q)) : list fval :=
  filter (fun v => negb (Stats.is_nan v)) (ape_terms c).

(** A value the sum of the non-NaN terms can absorb. *)
Definition summable (v : fval) : Prop := v <> NegInf /\ v <> NaN.

(** A float that is a zero, positive or [+inf]: [0 <= x] holds. *)
Definition nonneg (x : Float64.float) : Prop :=
  Float64.leb Float64.zero x = true.

(** Bin numbers by rank.  Among [m + 1] distinct values, the quantile
    [k/5] lies at or just above the sorted value of rank [edge_rank m k],
    so the value of rank [i] falls in the bin [rank_bin m i], and bin [j]
    holds the ranks from [bucket_bound m (j - 1)] up to, and excluding,
    [bucket_bound m j]. *)
Definition edge_rank (m k : nat) : nat := k * m / 5.

Fixpoint ranks_below (edges : list nat) (i : nat) : nat :=
  match edges with
  | [] => O
  | e :: es => if (e <? i)%nat then S (ranks_below es i) else O
  end.

Definition rank_bin (m i : nat) : nat :=
  if (i =? 0)%nat then 1%nat
  else ranks_below (map (edge_rank m) (seq 0 6)) i.

Definition bucket_bound (m j : nat) : nat :=
  match j with
  | O => O
  | _ => S (edge_rank m j)
  end.

End Vocabulary.

(** ** Sample data *)

Section Samples.

(** An order of customer [c] on day [d] for the amount [p]. *)
Definition sample_order (d c : Z) (p : Q) : transaction :=
  {| order_id := 0; order_date := d; customer_id := c; product_id := 0;
     category := String.EmptyString; price := p; quantity := 1 |}.

(** Three days of sales. *)
Definition sample_series : series := [(1%Z, 1%Q); (2%Z, 3%Q); (3%Z, 5%Q)].

(** Orders on the first and last day of a ten-day and of a fifteen-day
    span. *)
Definition ten_day_orders : list transaction :=
  [sample_order 1 1 5; sample_order 10 2 3].

Definition fifteen_day_orders : list transaction :=
  [sample_order 1 1 5; sample_order 8 1 2; sample_order 15 2 3].

(** Fourteen days of sales that grow by the square of the day number, and
    three days of forecasts whose mean is not a whole number of cents. *)
Definition rising_series : series :=
  map (fun k => (Z.of_nat k, Qofnat (k * k))) (seq 1 14).

Definition uneven_series : series := [(1%Z, 1%Q); (2%Z, 2%Q); (3%Z, 1%Q)].

(** Two customers whose recency, frequency and monetary values differ. *)
Definition two_customers : list transaction :=
  [sample_order 1 1 5; sample_order 2 2 1; sample_order 3 2 1].

(** Six customers, customer [c] with [c] orders of 1 each, whose latest
    orders lie 0, 1, 2, 2, 3 and 4 days before the latest order of all;
    and the edges pandas computes for these columns.  The fourth recency
    edge is interpolated at 0.6000000000000001 * 5 = 3.0000000000000004 and
    comes out as 2 + 2^-51, where the exact interpolation gives 2. *)
Definition tied_customers : list transaction :=
  flat_map (fun cd => repeat (sample_order (snd cd) (fst cd) 1)
                             (Z.to_nat (fst cd)))
           [(1, 10); (2, 9); (3, 8); (4, 8); (5, 7); (6, 6)]%Z.

Definition tied_recency_edges : list Q :=
  [0; 1; 2; 4503599627370497 # 2251799813685248; 3; 4]%Q.

Definition whole_edges : list Q := [1; 2; 3; 4; 5; 6]%Q.

(** The floats 0.1, 1.5 and 2. *)
Definition tenth : Float64.float :=
  Float64.div (Float64.of_nat 1) (Float64.of_nat 10).

Definition one_and_a_half : Float64.float :=
  Float64.div (Float64.of_nat 3) (Float64.of_nat 2).

Definition two : Float64.float := Float64.of_nat 2.

(** Six customers with one identical order each, and eleven metric values
    with a tie inside the first bin. *)
Definition six_alike_customers : list transaction :=
  map (fun c => sample_order 1 c 5) [1; 2; 3; 4; 5; 6]%Z.

Definition tied_values : list Q :=
  [0; 1; 1; 1; 2; 3; 4; 5; 6; 7; 8]%Q.

(** Two estimators: the last observed value, and the mean of the training
    data, repeated over the horizon. *)
Definition naive_estimator : Stats.estimator :=
  Stats.mkEstimator (fun train => match train with
                                  | [] => Raise ValueError
                                  | _ => Ok (fun _ => last train 0%Q)
                                  end).

Definition mean_estimator : Stats.estimator :=
  Stats.mkEstimator
    (fun train => match train with
                  | [] => Raise ValueError
                  | _ => Ok (fun _ => (Qsum train / Qofnat (length train))%Q)
                  end).

End Samples.

(** ** Further cells of the notebooks *)

(** notebooks/04_sales_forecasting.ipynb, cells "Future Sales Prediction"
    and the forecast summary. *)
Module ForecastReport.

Import Pandas Stats Forecasting.
Open Scope Z_scope.

(** The number of days the order dates span, first and last included;
    [0] without orders. *)
Definition span_days (df : list transaction) : Z :=
  match dates_min (map order_date df), dates_max (map order_date df) with
  | Some lo, Some hi => hi - lo + 1
  | _, _ => 0
  end.

(** [daily_sales.index[-1]]; [None] is the IndexError an empty index
    gives. *)
Definition last_date (sales : series) : option date :=
  match rev (index sales) with
  | [] => None
  | d :: _ => Some d
  end.

(** [pd.date_range(start=start, periods=periods)]. *)
Definition date_range_periods (start : date) (periods : nat) : list date :=
  map (fun k => start + Z.of_nat k) (seq 0 periods).

Definition future_dates (sales : series) : option (list date) :=
  match last_date sales with
  | Some d => Some (date_range_periods (d + 1) future_periods)
  | None => None
  end.

(** [pd.DataFrame({'Date': future_dates, 'Predicted_Sales':
    future_predictions})]: the dates beside the predicted values, row by
    row; [None] when the dates or the predictions are not obtained. *)
Definition forecast_table (sales : series) (point : nat -> Q)
    : option series :=
  match future_dates sales, forecast sales point future_periods with
  | Some dates, Ok future_predictions =>
      Some (combine dates (values future_predictions))
  | _, _ => None
  end.

(** [Series.idxmax()]: the index of the first largest value; ValueError on
    an empty Series. *)
Definition idxmax (s : series) : result date :=
  match s with
  | [] => Raise ValueError
  | first :: rest =>
      Ok (fst (fold_left (fun best dv =>
                            if Qlt_bool (snd best) (snd dv) then dv else best)
                         rest first))
  end.

(** [Series.mean()] of finite values; NaN on an empty Series. *)
Definition mean_or_nan (l : list Q) : fval :=
  match l with
  | [] => NaN
  | _ => Finite (Qsum l / Qofnat (length l))%Q
  end.

(** A float as [:,.2f] prints it: rounded to two decimals, an infinity or
    NaN as it is. *)
Definition format_2f (v : fval) : fval :=
  match v with
  | Finite q => Finite (round2 q)
  | other => other
  end.

(** The three figures of the "Forecast Summary" print-out: the total and
    the average, each as printed with [:,.2f], and the peak day. *)
Definition forecast_summary (table : series) : result (fval * fval * date) :=
  let total := format_2f (Finite (Qsum (values table))) in
  let average := format_2f (mean_or_nan (values table)) in
  peak <- idxmax table ;;
  Ok (total, average, peak).

End ForecastReport.

(** How a missing score prints. *)
Module ScoreText.
Import String.
Definition nan : string := "nan".
End ScoreText.

(** notebooks/03_customer_segmentation.ipynb, the [rfm_score] column and
    the cell "Segment Profiling". *)
Module SegmentReport.

Import Pandas Segmentation.
Open Scope Z_scope.

(** [astype(str)] on a score column: the decimal digits of the label,
    ["nan"] for a missing one. *)
Definition score_str (sc : option Z) : String.string :=
  match sc with
  | Some z => DecimalString.NilZero.string_of_int (Z.to_int z)
  | None => ScoreText.nan
  end.

Definition rfm_score (row : rfm_score_row) : String.string :=
  String.append (score_str (recency_score row))
    (String.append (score_str (frequency_score row))
                   (score_str (monetary_score row))).

(** A row of the [segments] table the clustering step returns. *)
Record segment_row : Type := mkSegmentRow {
  seg_customer_id : Z;
  total_orders : Q;
  total_spent : Q;
  segment : Z
}.

Definition mean_of (l : list Q) : Q := (Qsum l / Qofnat (length l))%Q.

Record profile_row : Type := mkProfile {
  profile_segment : Z;
  mean_orders : Q;
  mean_spent : Q;
  customer_count : Z;
  size_percentage : Q
}.

(** Cell "Calculate segment profiles". *)
Definition segment_profiles (segments : list segment_row) : list profile_row :=
  let groups := groupby segment segments in
  let total := fold_left Z.add (map (fun g => Z.of_nat (length (snd g))) groups) 0 in
  map (fun g =>
         let count := Z.of_nat (length (snd g)) in
         {| profile_segment := fst g;
            mean_orders := round2 (mean_of (map total_orders (snd g)));
            mean_spent := round2 (mean_of (map total_spent (snd g)));
            customer_count := count;
            size_percentage :=
              round2 (inject_Z count / inject_Z total * 100)%Q |})
      groups.

End SegmentReport.

(** The exploratory notebook, cell "Sales Trends Analysis". *)
Module Exploration.

Import Pandas Stats.
Open Scope Z_scope.

(** [df.groupby('order_date')['price'].sum()]: one entry per day with
    orders, days ascending. *)
Definition daily_sales (df : list transaction) : series :=
  map (fun g => (fst g, Qsum (map price (snd g)))) (groupby order_date df).

(** [daily_sales.mean()]. *)
Definition average_daily_sales (df : list transaction) : fval :=
  ForecastReport.mean_or_nan (values (daily_sales df)).

(** [(daily_sales.iloc[-1] / daily_sales.iloc[0] - 1) * 100]; [None] is
    the IndexError [iloc] gives on an empty Series. *)
Definition sales_growth (df : list transaction) : option fval :=
  match values (daily_sales df), rev (values (daily_sales df)) with
  | first :: _, last :: _ =>
      Some (fscale (fadd (fdiv last first) (Finite (-1))) 100)
  | _, _ => None
  end.

End Exploration.

(** The character of a one-digit score. *)
Definition digit (z : Z) : Ascii.ascii :=
  Ascii.ascii_of_nat (48 + Z.to_nat z).

(** * Properties *)

Import Pandas Stats Forecasting Segmentation.

(** ** Train/test split *)

Lemma train_size_div (n : nat) : train_size n = (4 * n / 5)%nat.
Proof.
  unfold train_size, int_of, Qofnat.
  assert (Hnn : Qle_bool 0 (inject_Z (Z.of_nat n) * (8 # 10)) = true).
  { apply Qle_bool_iff. unfold Qle; simpl. lia. }
  rewrite Hnn.
  unfold Qfloor, Qmult, inject_Z; simpl Qnum; simpl Qden.
  apply Nat2Z.inj. rewrite Z2Nat.id.
  - rewrite Nat2Z.inj_div, Nat2Z.inj_mul. simpl Z.of_nat.
    replace (Z.of_nat n * 8)%Z with ((4 * Z.of_nat n) * 2)%Z by lia.
    change (Z.pos (1 * 10)) with (5 * 2)%Z.
    rewrite Z.div_mul_cancel_r by lia. reflexivity.
  - apply Z.div_pos; lia.
Qed.

Lemma train_size_floor (n : nat) :
  Z.of_nat (train_size n) = Qfloor ((8 # 10) * Qofnat n).
Proof.
  unfold train_size, int_of.
  assert (Hnn : Qle_bool 0 (Qofnat n * (8 # 10)) = true).
  { apply Qle_bool_iff. unfold Qofnat, Qle; simpl. lia. }
  rewrite Hnn, Z2Nat.id.
  - apply Qfloor_comp. ring.
  - change 0%Z with (Qfloor 0). apply Qfloor_resp_le.
    apply Qle_bool_iff, Hnn.
Qed.

(** C9: the split takes the first floor(0.8 n) days as training data and
    the remaining n - floor(0.8 n) days as test data; the two parts are
    adjacent slices whose concatenation is the whole series, and a series
    of 100 days gives 80 training days and 20 test days. *)
Theorem train_test_split_partition (s : series) :
  let n := length s in
  let k := train_size n in
  Z.of_nat k = Qfloor ((8 # 10) * Qofnat n) /\
  k = (4 * n / 5)%nat /\
  train_data s = firstn k s /\
  test_data s = skipn k s /\
  length (train_data s) = k /\
  length (test_data s) = (n - k)%nat /\
  train_data s ++ test_data s = s /\
  (forall j, nth_error (test_data s) j = nth_error s (k + j)) /\
  train_size 100 = 80%nat /\
  (100 - train_size 100 = 20)%nat.
Proof.
  intros n k.
  assert (Hk : k = (4 * n / 5)%nat) by apply train_size_div.
  assert (Hle : (k <= n)%nat).
  { rewrite Hk. apply Nat.Div0.div_le_upper_bound. lia. }
  repeat split.
  - apply train_size_floor.
  - exact Hk.
  - unfold train_data. fold n. fold k. rewrite length_firstn. lia.
  - unfold test_data. fold n. fold k. rewrite length_skipn. reflexivity.
  - apply firstn_skipn.
  - intros j. unfold test_data. fold n. fold k. apply nth_error_skipn.
Qed.

(** ** Grouping *)

Section GroupByFacts.

Variable A : Type.
Variable key : A -> Z.

Open Scope Z_scope.

Lemma lookup_keys_below k (g : list (Z * list A)) :
  keys_below k g -> lookup k g = None.
Proof.
  induction 1 as [|[k' r] g Hlt _ IH]; simpl in *; [reflexivity|].
  destruct (Z.eqb_spec k k'); [lia | exact IH].
Qed.

Lemma keys_below_trans k k' (g : list (Z * list A)) :
  k < k' -> keys_below k' g -> keys_below k g.
Proof.
  intros Hlt H. unfold keys_below in *. rewrite Forall_forall in *.
  intros x Hx. specialize (H x Hx). lia.
Qed.

Lemma keys_below_add_row k t g :
  k < key t -> keys_below k g -> keys_below k (add_row key t g).
Proof.
  intros Hk H. induction H as [|[k' r] g Hlt Hg IH]; simpl.
  - constructor; [exact Hk | constructor].
  - simpl in Hlt.
    destruct (key t <? k'); [|destruct (key t =? k')];
      repeat (constructor; simpl; auto).
Qed.

Lemma ascending_add_row t g :
  ascending g -> ascending (add_row key t g).
Proof.
  induction 1 as [|k rows g Hb Hg IH]; simpl.
  - repeat constructor.
  - destruct (Z.ltb_spec (key t) k) as [Hlt|Hge].
    + constructor; [|constructor; assumption].
      constructor; [exact Hlt|]. apply keys_below_trans with k; assumption.
    + destruct (Z.eqb_spec (key t) k) as [Heq|Hne].
      * constructor; assumption.
      * constructor; [|exact IH].
        apply keys_below_add_row; [lia | exact Hb].
Qed.

(** The rows a key holds after one more row has been added. *)
Lemma lookup_add_row k t g :
  ascending g ->
  lookup k (add_row key t g) =
  if key t =? k
  then Some (match lookup k g with Some rows => rows ++ [t] | None => [t] end)
  else lookup k g.
Proof.
  induction 1 as [|k' rows g Hb Hg IH]; simpl.
  - rewrite (Z.eqb_sym k). destruct (key t =? k); reflexivity.
  - destruct (Z.ltb_spec (key t) k') as [Hlt|Hge]; simpl.
    + rewrite (Z.eqb_sym k (key t)).
      destruct (Z.eqb_spec (key t) k) as [Heq|Hne]; [|reflexivity].
      subst k. destruct (Z.eqb_spec (key t) k'); [lia|].
      rewrite lookup_keys_below; [reflexivity|].
      apply keys_below_trans with k'; assumption.
    + destruct (Z.eqb_spec (key t) k') as [Heq|Hne]; simpl.
      * destruct (Z.eqb_spec k k') as [Hkk|Hkk].
        -- subst. rewrite Z.eqb_refl. reflexivity.
        -- destruct (Z.eqb_spec (key t) k); [lia | reflexivity].
      * destruct (Z.eqb_spec k k') as [Hkk|Hkk].
        -- destruct (Z.eqb_spec (key t) k); [lia | reflexivity].
        -- exact IH.
Qed.

Lemma fold_add_row_ascending df g :
  ascending g -> ascending (fold_left (fun g t => add_row key t g) df g).
Proof.
  revert g. induction df as [|t df IH]; intros g Hg; simpl; [exact Hg|].
  apply IH, ascending_add_row, Hg.
Qed.

Lemma lookup_fold_add_row k df g :
  ascending g ->
  lookup k (fold_left (fun g t => add_row key t g) df g) =
  match lookup k g, filter (fun t => key t =? k) df with
  | None, [] => None
  | None, rows => Some rows
  | Some r0, rows => Some (r0 ++ rows)
  end.
Proof.
  revert g. induction df as [|t df IH]; intros g Hg; simpl.
  - destruct (lookup k g); [rewrite app_nil_r|]; reflexivity.
  - rewrite IH by (apply ascending_add_row, Hg).
    rewrite lookup_add_row by exact Hg.
    destruct (key t =? k).
    + destruct (lookup k g); simpl; [rewrite <- app_assoc|]; reflexivity.
    + reflexivity.
Qed.

(** A key's group holds exactly the rows with that key, in row order; a
    key no row has is absent. *)
Lemma lookup_groupby k df :
  lookup k (groupby key df) =
  match filter (fun t => key t =? k) df with
  | [] => None
  | rows => Some rows
  end.
Proof.
  unfold groupby. rewrite lookup_fold_add_row by constructor. reflexivity.
Qed.

Lemma groupby_ascending df : ascending (groupby key df).
Proof. apply fold_add_row_ascending. constructor. Qed.

Lemma lookup_in_keys (V : Type) k (g : list (Z * V)) :
  In k (map fst g) <-> lookup k g <> None.
Proof.
  induction g as [|[k' v] g IH]; simpl.
  - split; [tauto | congruence].
  - destruct (Z.eqb_spec k k') as [->|Hne].
    + split; [congruence | auto].
    + rewrite <- IH. split; [intros [H|H]; [congruence | exact H] | auto].
Qed.

Lemma groupby_keys k df :
  In k (map fst (groupby key df)) <-> In k (map key df).
Proof.
  rewrite lookup_in_keys, lookup_groupby, in_map_iff.
  split.
  - intros H. destruct (filter (fun t => key t =? k) df) as [|t l] eqn:E;
      [congruence|].
    assert (Ht : In t (filter (fun t => key t =? k) df))
      by (rewrite E; left; reflexivity).
    apply filter_In in Ht. destruct Ht as [Ht Hk].
    exists t. split; [apply Z.eqb_eq, Hk | exact Ht].
  - intros (t & Hk & Ht).
    assert (Hin : In t (filter (fun t => key t =? k) df)).
    { apply filter_In. split; [exact Ht | apply Z.eqb_eq, Hk]. }
    destruct (filter (fun t => key t =? k) df); [contradiction | congruence].
Qed.

End GroupByFacts.

(** ** Earliest and latest date *)

Section MinMax.

Open Scope Z_scope.

Lemma fold_min_spec ds d :
  let m := fold_left Z.min ds d in
  (m = d \/ In m ds) /\ m <= d /\ Forall (fun x => m <= x) ds.
Proof.
  revert d. induction ds as [|x ds IH]; intros d; simpl.
  - repeat split; [left; reflexivity | lia | constructor].
  - destruct (IH (Z.min d x)) as (Hin & Hle & Hall). repeat split.
    + destruct Hin as [Hin|Hin]; [|right; right; exact Hin].
      destruct (Z.min_spec d x) as [[_ E]|[_ E]]; [left | right; left]; lia.
    + lia.
    + constructor; [lia | exact Hall].
Qed.

Lemma fold_max_spec ds d :
  let m := fold_left Z.max ds d in
  (m = d \/ In m ds) /\ d <= m /\ Forall (fun x => x <= m) ds.
Proof.
  revert d. induction ds as [|x ds IH]; intros d; simpl.
  - repeat split; [left; reflexivity | lia | constructor].
  - destruct (IH (Z.max d x)) as (Hin & Hle & Hall). repeat split.
    + destruct Hin as [Hin|Hin]; [|right; right; exact Hin].
      destruct (Z.max_spec d x) as [[_ E]|[_ E]]; [right; left | left]; lia.
    + lia.
    + constructor; [lia | exact Hall].
Qed.

Lemma dates_min_spec l m :
  dates_min l = Some m <-> In m l /\ forall x, In x l -> m <= x.
Proof.
  destruct l as [|d ds]; simpl.
  - split; [discriminate | tauto].
  - pose proof (fold_min_spec ds d) as (Hin & Hle & Hall). simpl in *.
    rewrite Forall_forall in Hall. split.
    + intros [= <-]. split.
      * destruct Hin as [Hin|Hin]; [left; symmetry; exact Hin | right; exact Hin].
      * intros x [<-|Hx]; [exact Hle | apply Hall, Hx].
    + intros [Hm Hlow]. f_equal. apply Z.le_antisymm.
      * destruct Hm as [<-|Hm]; [exact Hle | apply Hall, Hm].
      * apply Hlow. destruct Hin as [Hin|Hin]; [left; symmetry | right]; exact Hin.
Qed.

Lemma dates_max_spec l m :
  dates_max l = Some m <-> In m l /\ forall x, In x l -> x <= m.
Proof.
  destruct l as [|d ds]; simpl.
  - split; [discriminate | tauto].
  - pose proof (fold_max_spec ds d) as (Hin & Hle & Hall). simpl in *.
    rewrite Forall_forall in Hall. split.
    + intros [= <-]. split.
      * destruct Hin as [Hin|Hin]; [left; symmetry; exact Hin | right; exact Hin].
      * intros x [<-|Hx]; [exact Hle | apply Hall, Hx].
    + intros [Hm Hup]. f_equal. apply Z.le_antisymm.
      * apply Hup. destruct Hin as [Hin|Hin]; [left; symmetry | right]; exact Hin.
      * destruct Hm as [<-|Hm]; [exact Hle | apply Hall, Hm].
Qed.

Lemma dates_min_ext l l' :
  (forall x, In x l <-> In x l') -> dates_min l = dates_min l'.
Proof.
  intros Hext. destruct (dates_min l) as [m|] eqn:E.
  - symmetry. apply dates_min_spec. apply dates_min_spec in E.
    destruct E as [Hm Hlow]. split; [apply Hext, Hm|].
    intros x Hx. apply Hlow, Hext, Hx.
  - destruct l as [|d ds]; [|discriminate].
    destruct l' as [|d' ds']; [reflexivity|].
    exfalso. apply (Hext d'). left; reflexivity.
Qed.

Lemma dates_max_ext l l' :
  (forall x, In x l <-> In x l') -> dates_max l = dates_max l'.
Proof.
  intros Hext. destruct (dates_max l) as [m|] eqn:E.
  - symmetry. apply dates_max_spec. apply dates_max_spec in E.
    destruct E as [Hm Hup]. split; [apply Hext, Hm|].
    intros x Hx. apply Hup, Hext, Hx.
  - destruct l as [|d ds]; [|discriminate].
    destruct l' as [|d' ds']; [reflexivity|].
    exfalso. apply (Hext d'). left; reflexivity.
Qed.

End MinMax.

(** ** Daily sales series *)

Section DailySales.

Open Scope Z_scope.

Lemma lookup_map_values (V W : Type) (f : V -> W) k (g : list (Z * V)) :
  lookup k (map (fun kv => (fst kv, f (snd kv))) g) = option_map f (lookup k g).
Proof.
  induction g as [|[k' v] g IH]; simpl; [reflexivity|].
  destruct (k =? k'); [reflexivity | exact IH].
Qed.

Lemma has_order_on_false d df :
  has_order_on d df = false -> filter (fun t => order_date t =? d) df = [].
Proof.
  unfold has_order_on. induction df as [|t df IH]; simpl; [reflexivity|].
  destruct (order_date t =? d); simpl; [discriminate | exact IH].
Qed.

(** The value the grouped-and-summed table holds for a day. *)
Lemma grouped_lookup d df :
  match lookup d (map (fun g => (fst g, Qsum (map price (snd g))))
                      (groupby order_date df)) with
  | Some v => v
  | None => 0%Q
  end = sales_on d df.
Proof.
  rewrite (lookup_map_values _ _ (fun rows => Qsum (map price rows))).
  rewrite lookup_groupby. unfold sales_on.
  destruct (filter (fun t => order_date t =? d) df); reflexivity.
Qed.

Lemma grouped_index df :
  index (map (fun g => (fst g, Qsum (map price (snd g))))
             (groupby order_date df)) =
  map fst (groupby order_date df).
Proof. unfold index. rewrite map_map. reflexivity. Qed.

(** On a non-empty transaction set the series is built without an
    exception: the grouped sums, reindexed over the days from the first to
    the last order date. *)
Lemma daily_sales_run (df : list transaction) :
  df <> [] ->
  exists lo hi,
    min_date df = Some lo /\
    max_date df = Some hi /\
    lo <= hi /\
    daily_sales df =
      Ok (reindex (map (fun g => (fst g, Qsum (map price (snd g))))
                       (groupby order_date df))
                  (map (fun k => lo + Z.of_nat k)
                       (seq 0 (Z.to_nat (hi - lo + 1))))
                  0%Q).
Proof.
  intros Hne.
  destruct (min_date df) as [lo|] eqn:Hlo;
    [|destruct df; [congruence | discriminate]].
  destruct (max_date df) as [hi|] eqn:Hhi;
    [|destruct df; [congruence | discriminate]].
  exists lo, hi. repeat split.
  - apply dates_min_spec in Hlo. apply dates_max_spec in Hhi.
    destruct Hlo as [Hin _]. destruct Hhi as [_ Hup]. apply Hup, Hin.
  - unfold daily_sales.
    set (grouped := map (fun g => (fst g, Qsum (map price (snd g))))
                        (groupby order_date df)).
    assert (Hmin : dates_min (index grouped) = Some lo).
    { rewrite <- Hlo. unfold min_date, grouped. rewrite grouped_index.
      apply dates_min_ext. intros x. apply groupby_keys. }
    assert (Hmax : dates_max (index grouped) = Some hi).
    { rewrite <- Hhi. unfold max_date, grouped. rewrite grouped_index.
      apply dates_max_ext. intros x. apply groupby_keys. }
    rewrite Hmin, Hmax. reflexivity.
Qed.

Lemma reindex_length (s : series) (idx : list date) (fill : Q) :
  length (reindex s idx fill) = length idx.
Proof. unfold reindex. apply length_map. Qed.

Lemma reindex_index (s : series) (idx : list date) (fill : Q) :
  index (reindex s idx fill) = idx.
Proof. unfold index, reindex. rewrite map_map. apply map_id. Qed.

(** C1: on a non-empty transaction set the daily sales series has exactly
    (max_date - min_date).days + 1 entries, the i-th entry is dated
    min_date + i (one entry per calendar day, no gap), every entry carries
    the sum of that day's prices, and a day without orders carries 0. *)
Theorem daily_sales_contiguous (df : list transaction) :
  df <> [] ->
  exists s lo hi,
    daily_sales df = Ok s /\
    min_date df = Some lo /\
    max_date df = Some hi /\
    Z.of_nat (length s) = hi - lo + 1 /\
    (forall i, (i < length s)%nat ->
               nth_error (index s) i = Some (lo + Z.of_nat i)) /\
    (forall d v, In (d, v) s -> v = sales_on d df) /\
    (forall d v, In (d, v) s -> has_order_on d df = false -> v = 0%Q).
Proof.
  intros Hne.
  destruct (daily_sales_run df Hne) as (lo & hi & Hlo & Hhi & Hle & Hrun).
  set (grouped := map (fun g => (fst g, Qsum (map price (snd g))))
                      (groupby order_date df)) in *.
  set (idx := map (fun k => lo + Z.of_nat k)
                  (seq 0 (Z.to_nat (hi - lo + 1)))) in *.
  exists (reindex grouped idx 0%Q), lo, hi.
  assert (Hlen : length (reindex grouped idx 0%Q) = Z.to_nat (hi - lo + 1)).
  { rewrite reindex_length. unfold idx. rewrite length_map, length_seq.
    reflexivity. }
  assert (Hval : forall d v, In (d, v) (reindex grouped idx 0%Q) ->
                             v = sales_on d df).
  { intros d v Hin. unfold reindex in Hin. apply in_map_iff in Hin.
    destruct Hin as (d' & [= <- <-] & _). apply grouped_lookup. }
  repeat split; try assumption.
  - rewrite Hlen. lia.
  - intros i Hi. rewrite Hlen in Hi. rewrite reindex_index.
    unfold idx. rewrite nth_error_map, nth_error_seq.
    destruct (Nat.ltb_spec i (Z.to_nat (hi - lo + 1))); [reflexivity | lia].
  - intros d v Hin Hno. rewrite (Hval d v Hin). unfold sales_on.
    rewrite has_order_on_false by exact Hno. reflexivity.
Qed.

End DailySales.

Lemma daily_sales_contiguous_witness :
  exists s lo hi,
    daily_sales [sample_order 3 1 5; sample_order 1 2 2; sample_order 3 2 1]
      = Ok s /\
    min_date [sample_order 3 1 5; sample_order 1 2 2; sample_order 3 2 1]
      = Some lo /\
    max_date [sample_order 3 1 5; sample_order 1 2 2; sample_order 3 2 1]
      = Some hi /\
    Z.of_nat (length s) = (hi - lo + 1)%Z /\
    (forall i, (i < length s)%nat ->
               nth_error (index s) i = Some (lo + Z.of_nat i)%Z) /\
    (forall d v, In (d, v) s ->
       v = sales_on d
             [sample_order 3 1 5; sample_order 1 2 2; sample_order 3 2 1]) /\
    (forall d v, In (d, v) s ->
       has_order_on d
         [sample_order 3 1 5; sample_order 1 2 2; sample_order 3 2 1] = false ->
       v = 0%Q).
Proof.
  apply (daily_sales_contiguous
           [sample_order 3 1 5; sample_order 1 2 2; sample_order 3 2 1]).
  discriminate.
Defined.

(** ** Sums of rationals *)

Section Sums.

Open Scope Q_scope.

Lemma fold_Qplus_acc l a : fold_left Qplus l a == a + Qsum l.
Proof.
  unfold Qsum. revert a. induction l as [|x l IH]; intros a; simpl.
  - ring.
  - rewrite (IH (a + x)), (IH (0 + x)). ring.
Qed.

Lemma Qsum_cons x l : Qsum (x :: l) == x + Qsum l.
Proof. unfold Qsum at 1. simpl. rewrite fold_Qplus_acc. ring. Qed.

Lemma Qsum_app a b : Qsum (a ++ b) == Qsum a + Qsum b.
Proof.
  induction a as [|x a IH]; simpl.
  - unfold Qsum at 2. simpl. ring.
  - rewrite !Qsum_cons, IH. ring.
Qed.

Lemma Qsum_nil : Qsum [] == 0.
Proof. reflexivity. Qed.

Lemma firstn_plus (A : Type) (a w : nat) (l : list A) :
  firstn (a + w) l = firstn a l ++ firstn w (skipn a l).
Proof.
  revert l. induction a as [|a IH]; intros l; simpl; [reflexivity|].
  destruct l as [|x l]; simpl.
  - rewrite firstn_nil. reflexivity.
  - rewrite IH. reflexivity.
Qed.

Lemma prefix_sum_step (vals : list Q) (i : nat) :
  (i < length vals)%nat ->
  Qsum (firstn (S i) vals) == Qsum (firstn i vals) + nth i vals 0.
Proof.
  intros Hi. replace (S i) with (i + 1)%nat by lia.
  rewrite firstn_plus, Qsum_app.
  assert (E : firstn 1 (skipn i vals) = [nth i vals 0]).
  { revert i Hi. induction vals as [|x vals IH]; intros i Hi; simpl in Hi;
      [lia|].
    destruct i as [|i]; simpl; [reflexivity|]. apply IH. lia. }
  rewrite E, Qsum_cons, Qsum_nil. ring.
Qed.

Lemma window_sum (vals : list Q) (a w : nat) :
  Qsum (firstn w (skipn a vals)) ==
  Qsum (firstn (a + w) vals) - Qsum (firstn a vals).
Proof. rewrite firstn_plus, Qsum_app. ring. Qed.

End Sums.

(** ** Moving average *)

Section MovingAverage.

Variable vals : list Q.
Variable w : nat.
Hypothesis w_pos : (1 <= w)%nat.

Lemma skipn_cons_nth (A : Type) (d : A) (l : list A) i v rest :
  skipn i l = v :: rest ->
  nth i l d = v /\ skipn (S i) l = rest /\ (i < length l)%nat.
Proof.
  revert l. induction i as [|i IH]; intros l H.
  - simpl in H. subst l. simpl. repeat split. lia.
  - destruct l as [|x l]; [discriminate|]. simpl in H.
    destruct (IH l H) as (H1 & H2 & H3). repeat split; simpl; auto. lia.
Qed.

Lemma roll_mean_loop_length rest i nobs sum_x :
  length (roll_mean_loop vals w i nobs sum_x rest) = length rest.
Proof.
  revert i nobs sum_x. induction rest as [|v rest IH]; intros; simpl;
    [reflexivity|].
  destruct (w <=? i)%nat; simpl; rewrite IH; reflexivity.
Qed.

(** The state of the sliding computation before position [i]: it holds
    [min i w] observations, and their sum is the difference of two prefix
    sums. *)
Lemma roll_mean_loop_nth rest :
  forall i nobs sum_x,
    skipn i vals = rest ->
    nobs = Nat.min i w ->
    (sum_x == Qsum (firstn i vals) - Qsum (firstn (i - w) vals))%Q ->
    forall j, (j < length rest)%nat ->
      match nth_error (roll_mean_loop vals w i nobs sum_x rest) j with
      | Some (Some m) =>
          (w <= S (i + j))%nat /\
          (m == (Qsum (firstn (S (i + j)) vals)
                 - Qsum (firstn (S (i + j) - w) vals)) / Qofnat w)%Q
      | Some None => (S (i + j) < w)%nat
      | None => False
      end.
Proof.
  induction rest as [|v rest IH]; intros i nobs sum_x Hskip Hn Hsum j Hj;
    [simpl in Hj; lia|].
  destruct (skipn_cons_nth Q 0%Q vals i v rest Hskip) as (Hv & Hrest & Hi).
  cbn [roll_mean_loop].
  set (st := if (w <=? i)%nat
             then (pred nobs, (sum_x - nth (i - w) vals 0)%Q)
             else (nobs, sum_x)).
  assert (Hn2 : S (fst st) = Nat.min (S i) w).
  { unfold st. destruct (Nat.leb_spec w i); cbn [fst]; lia. }
  assert (Hs2 : (snd st + v ==
                 Qsum (firstn (S i) vals) - Qsum (firstn (S i - w) vals))%Q).
  { rewrite (prefix_sum_step vals i Hi), Hv. unfold st.
    destruct (Nat.leb_spec w i) as [Hwi|Hwi]; cbn [snd].
    - replace (S i - w)%nat with (S (i - w)) by lia.
      rewrite (prefix_sum_step vals (i - w)) by lia.
      rewrite Hsum. ring.
    - replace (S i - w)%nat with 0%nat by lia.
      replace (i - w)%nat with 0%nat in Hsum by lia.
      rewrite Hsum. ring. }
  destruct st as [nobs1 sum1]. cbn [fst snd] in Hn2, Hs2.
  destruct j as [|j]; cbn [nth_error].
  - rewrite Nat.add_0_r. unfold calc_mean.
    change (0 <? S nobs1)%nat with true. rewrite andb_true_r.
    destruct (Nat.leb_spec w (S nobs1)) as [Hw|Hw].
    + split; [lia|]. replace (S nobs1) with w by lia.
      rewrite Hs2. reflexivity.
    + lia.
  - replace (i + S j)%nat with (S i + j)%nat by lia.
    apply IH; [exact Hrest | exact Hn2 | exact Hs2 | simpl in Hj; lia].
Qed.

Lemma rolling_mean_unfold (w0 : nat) :
  (1 <= w0)%nat -> rolling_mean vals w0 = roll_mean_loop vals w0 0 0 0 vals.
Proof. intros H. destruct w0; [lia | reflexivity]. Qed.

Lemma rolling_mean_length : length (rolling_mean vals w) = length vals.
Proof.
  rewrite rolling_mean_unfold by exact w_pos. apply roll_mean_loop_length.
Qed.

Lemma rolling_mean_nth t :
  (t < length vals)%nat ->
  match nth_error (rolling_mean vals w) t with
  | Some (Some m) => (w <= S t)%nat /\ (m == window_mean vals w t)%Q
  | Some None => (S t < w)%nat
  | None => False
  end.
Proof.
  intros Ht. rewrite rolling_mean_unfold by exact w_pos.
  assert (H0 : (0 == Qsum (firstn 0 vals) - Qsum (firstn (0 - w) vals))%Q).
  { simpl. unfold Qsum. simpl. ring. }
  pose proof (roll_mean_loop_nth vals 0%nat 0%nat 0%Q eq_refl eq_refl H0 t Ht)
    as H.
  rewrite Nat.add_0_l in H.
  destruct (nth_error (roll_mean_loop vals w 0 0 0 vals) t) as [[m|]|];
    try exact H.
  destruct H as [Hw Hm]. split; [exact Hw|].
  rewrite Hm. unfold window_mean. rewrite window_sum.
  replace (S t - w + w)%nat with (S t) by lia. reflexivity.
Qed.

End MovingAverage.

(** C2: for a window of at least one day the moving average has as many
    entries as its input and keeps the input's dates; its first w-1
    entries are undefined, and from position w-1 on the entry at t is the
    arithmetic mean of the input at positions t-w+1 .. t. *)
Theorem moving_average_window_mean (data : series) (w : nat) :
  (1 <= w)%nat ->
  length (calculate_moving_average data w) = length data /\
  map fst (calculate_moving_average data w) = index data /\
  (forall t, (t < w - 1)%nat -> (t < length data)%nat ->
     nth_error (map snd (calculate_moving_average data w)) t = Some None) /\
  (forall t, (w - 1 <= t)%nat -> (t < length data)%nat ->
     exists m,
       nth_error (map snd (calculate_moving_average data w)) t = Some (Some m) /\
       (m == window_mean (values data) w t)%Q).
Proof.
  intros Hw. unfold calculate_moving_average.
  assert (Hlen : length (rolling_mean (values data) w) = length (index data)).
  { rewrite rolling_mean_length by exact Hw. unfold values, index.
    rewrite !length_map. reflexivity. }
  assert (Hsnd : map snd (combine (index data) (rolling_mean (values data) w))
                 = rolling_mean (values data) w).
  { revert Hlen. generalize (rolling_mean (values data) w), (index data).
    induction l as [|x l IH]; intros [|d ds] H; simpl in *;
      try reflexivity; try discriminate.
    f_equal. apply IH. lia. }
  assert (Hfst : map fst (combine (index data) (rolling_mean (values data) w))
                 = index data).
  { revert Hlen. generalize (rolling_mean (values data) w), (index data).
    induction l as [|x l IH]; intros [|d ds] H; simpl in *;
      try reflexivity; try discriminate.
    f_equal. apply IH. lia. }
  assert (Hvals : length (values data) = length data)
    by (unfold values; apply length_map).
  repeat split.
  - rewrite length_combine, Hlen, Nat.min_id. unfold index. apply length_map.
  - exact Hfst.
  - intros t Ht Hn. rewrite Hsnd.
    pose proof (rolling_mean_nth (values data) w Hw t) as H.
    rewrite Hvals in H. specialize (H Hn).
    destruct (nth_error (rolling_mean (values data) w) t) as [[m|]|];
      [lia | reflexivity | contradiction].
  - intros t Ht Hn. rewrite Hsnd.
    pose proof (rolling_mean_nth (values data) w Hw t) as H.
    rewrite Hvals in H. specialize (H Hn).
    destruct (nth_error (rolling_mean (values data) w) t) as [[m|]|];
      [|lia | contradiction].
    exists m. split; [reflexivity | apply H].
Qed.

Lemma moving_average_window_mean_witness :
  length (calculate_moving_average sample_series 2) = 3%nat /\
  map fst (calculate_moving_average sample_series 2)
    = index sample_series /\
  (forall t, (t < 2 - 1)%nat -> (t < 3)%nat ->
     nth_error (map snd (calculate_moving_average
                           sample_series 2)) t = Some None) /\
  (forall t, (2 - 1 <= t)%nat -> (t < 3)%nat ->
     exists m,
       nth_error (map snd (calculate_moving_average
                             sample_series 2)) t
         = Some (Some m) /\
       (m == window_mean (values sample_series) 2 t)%Q).
Proof.
  apply (moving_average_window_mean sample_series 2).
  apply le_S, le_n.
Defined.

(** ** Error metrics *)

Section MetricSums.

Open Scope Q_scope.

Lemma Qofnat_S n : Qofnat (S n) == Qofnat n + 1.
Proof.
  unfold Qofnat. rewrite Nat2Z.inj_succ, <- Z.add_1_r, inject_Z_plus.
  reflexivity.
Qed.

Lemma Qofnat_pos n : (0 < n)%nat -> 0 < Qofnat n.
Proof.
  intros H. unfold Qofnat, Qlt. simpl. lia.
Qed.

Lemma Qsum_map_ext (A : Type) (f g : A -> Q) l :
  (forall x, f x == g x) -> Qsum (map f l) == Qsum (map g l).
Proof.
  intros H. induction l as [|x l IH]; simpl; [reflexivity|].
  rewrite !Qsum_cons, IH, H. reflexivity.
Qed.

Lemma Qsum_nonneg l : Forall (fun x => 0 <= x) l -> 0 <= Qsum l.
Proof.
  induction 1 as [|x l Hx _ IH]; [apply Qle_refl|].
  rewrite Qsum_cons. lra.
Qed.

Lemma Qsum_zero_all l :
  Forall (fun x => 0 <= x) l -> Qsum l == 0 -> Forall (fun x => x == 0) l.
Proof.
  induction 1 as [|x l Hx Hl IH]; intros Hs; [constructor|].
  rewrite Qsum_cons in Hs. pose proof (Qsum_nonneg l Hl) as Hn.
  constructor; [lra | apply IH; lra].
Qed.

Lemma Qsum_all_zero l : Forall (fun x => x == 0) l -> Qsum l == 0.
Proof.
  induction 1 as [|x l Hx _ IH]; [reflexivity|].
  rewrite Qsum_cons, Hx, IH. ring.
Qed.

Lemma Qsum_constant l c :
  Forall (fun x => x == c) l -> Qsum l == Qofnat (length l) * c.
Proof.
  induction 1 as [|x l Hx _ IH]; simpl length.
  - unfold Qofnat. simpl. rewrite Qsum_nil. ring.
  - rewrite Qsum_cons, Qofnat_S, Hx, IH. ring.
Qed.

(** The sum of squared deviations from [c], expanded. *)
Lemma sum_sq_dev l c :
  Qsum (map (fun x => (x - c) * (x - c)) l) ==
  Qsum (map (fun x => x * x) l) - 2 * c * Qsum l + Qofnat (length l) * c * c.
Proof.
  induction l as [|x l IH]; simpl map; simpl length.
  - unfold Qofnat. simpl. rewrite !Qsum_nil. ring.
  - rewrite !Qsum_cons, Qofnat_S, IH. ring.
Qed.

(** Mean of squares minus square of the mean, as a sum of squares. *)
Lemma mean_sq_gap l :
  (0 < length l)%nat ->
  let n := Qofnat (length l) in
  let m := Qsum l / n in
  Qsum (map (fun x => x * x) l) / n - m * m ==
  Qsum (map (fun x => (x - m) * (x - m)) l) / n.
Proof.
  intros Hpos n m. pose proof (Qofnat_pos _ Hpos) as Hn. fold n in Hn.
  rewrite sum_sq_dev. fold n. unfold m. field. lra.
Qed.

Lemma Qsq_nonneg (z : Q) : 0 <= z * z.
Proof. nra. Qed.

Lemma sq_dev_nonneg l c :
  Forall (fun x => 0 <= x) (map (fun x => (x - c) * (x - c)) l).
Proof.
  apply Forall_forall. intros y Hy. apply in_map_iff in Hy.
  destruct Hy as (x & <- & _). apply Qsq_nonneg.
Qed.

Lemma mean_sq_ge l :
  (0 < length l)%nat ->
  let n := Qofnat (length l) in
  (Qsum l / n) * (Qsum l / n) <= Qsum (map (fun x => x * x) l) / n.
Proof.
  intros Hpos n. pose proof (mean_sq_gap l Hpos) as H. simpl in H. fold n in H.
  pose proof (Qofnat_pos _ Hpos) as Hn. fold n in Hn.
  pose proof (Qsum_nonneg _ (sq_dev_nonneg l (Qsum l / n))) as Hd.
  assert (Hq : 0 <= Qsum (map (fun x => (x - Qsum l / n) * (x - Qsum l / n)) l) / n).
  { apply Qle_shift_div_l; [exact Hn | lra]. }
  lra.
Qed.

(** The two means agree exactly when every value is the mean. *)
Lemma mean_sq_eq l :
  (0 < length l)%nat ->
  let n := Qofnat (length l) in
  (Qsum l / n) * (Qsum l / n) == Qsum (map (fun x => x * x) l) / n <->
  Forall (fun x => x == Qsum l / n) l.
Proof.
  intros Hpos n. pose proof (mean_sq_gap l Hpos) as H. simpl in H. fold n in H.
  pose proof (Qofnat_pos _ Hpos) as Hn. fold n in Hn.
  set (m := Qsum l / n) in *.
  set (D := Qsum (map (fun x => (x - m) * (x - m)) l)) in *.
  assert (HD : D == 0 <-> Forall (fun x => x == m) l).
  { split.
    - intros H0. apply Qsum_zero_all in H0; [|apply sq_dev_nonneg].
      rewrite Forall_forall in *. intros x Hx.
      specialize (H0 ((x - m) * (x - m))).
      assert (Hz : (x - m) * (x - m) == 0).
      { apply H0. apply in_map_iff. exists x. split; [reflexivity | exact Hx]. }
      apply Qmult_integral in Hz. destruct Hz; lra.
    - intros Hall. apply Qsum_all_zero. rewrite Forall_forall in *.
      intros y Hy. apply in_map_iff in Hy. destruct Hy as (x & <- & Hx).
      rewrite (Hall x Hx). ring. }
  rewrite <- HD. split.
  - intros E. assert (Hq : D / n == 0) by lra.
    assert (Hq' : D == (D / n) * n) by (field; lra).
    rewrite Hq' , Hq. ring.
  - intros E. rewrite E in H. assert (Hz : 0 / n == 0) by (field; lra). lra.
Qed.

Lemma all_equal_iff_mean l :
  (0 < length l)%nat ->
  (forall x y, In x l -> In y l -> x == y) <->
  Forall (fun x => x == Qsum l / Qofnat (length l)) l.
Proof.
  intros Hpos. pose proof (Qofnat_pos _ Hpos) as Hn. split.
  - intros Hall. destruct l as [|x0 l']; [simpl in Hpos; lia|].
    assert (Hc : Forall (fun x => x == x0) (x0 :: l')).
    { apply Forall_forall. intros x Hx. apply Hall; [exact Hx | left; reflexivity]. }
    pose proof (Qsum_constant _ _ Hc) as Hs.
    apply Forall_forall. intros x Hx. rewrite Hs.
    rewrite Forall_forall in Hc. rewrite (Hc x Hx). field. lra.
  - intros Hall x y Hx Hy. rewrite Forall_forall in Hall.
    rewrite (Hall x Hx), (Hall y Hy). reflexivity.
Qed.

End MetricSums.

Section Metrics.

Open Scope Q_scope.

Lemma abs_errors_length actual predicted :
  length actual = length predicted ->
  length (abs_errors actual predicted) = length actual.
Proof.
  intros H. unfold abs_errors. rewrite length_map, length_combine, <- H.
  apply Nat.min_id.
Qed.

Lemma check_targets_ok actual predicted :
  length actual = length predicted -> (0 < length actual)%nat ->
  check_targets actual predicted = Ok tt.
Proof.
  intros Hlen Hpos. unfold check_targets.
  rewrite (proj2 (Nat.eqb_eq _ _) Hlen). simpl.
  destruct (Nat.eqb_spec (length actual) 0); [lia | reflexivity].
Qed.

Lemma Qabs_sq (x : Q) : Qabs x * Qabs x == x * x.
Proof.
  rewrite <- Qabs_Qmult. apply Qabs_pos, Qsq_nonneg.
Qed.

(** What the three metrics are on valid input. *)
Lemma calculate_metrics_ok actual predicted :
  length actual = length predicted -> (0 < length actual)%nat ->
  exists mae mse mape,
    calculate_metrics actual predicted = Ok (mae, Sqrt mse, mape) /\
    mae == Qsum (abs_errors actual predicted) / Qofnat (length actual) /\
    mse == Qsum (map (fun x => x * x) (abs_errors actual predicted))
           / Qofnat (length actual) /\
    mape = fscale (series_mean
                     (map (fun ap => fabs (fdiv (fst ap - snd ap) (fst ap)))
                          (combine actual predicted))) 100.
Proof.
  intros Hlen Hpos. unfold calculate_metrics, mean_absolute_error,
    mean_squared_error.
  rewrite (check_targets_ok _ _ Hlen Hpos). cbn [bind].
  do 3 eexists. split; [reflexivity|].
  pose proof (Qofnat_pos _ Hpos) as Hn.
  repeat split.
  - apply Qmult_comp; [|reflexivity]. unfold abs_errors.
    apply Qsum_map_ext. intros [t q]. cbn [fst snd]. rewrite Qabs_Qminus.
    reflexivity.
  - apply Qmult_comp; [|reflexivity]. unfold abs_errors. rewrite map_map.
    apply Qsum_map_ext. intros [t q]. cbn [fst snd]. symmetry. apply Qabs_sq.
Qed.

Lemma abs_errors_nonneg actual predicted :
  Forall (fun x => 0 <= x) (abs_errors actual predicted).
Proof.
  apply Forall_forall. intros x Hx. unfold abs_errors in Hx.
  apply in_map_iff in Hx. destruct Hx as (ap & <- & _). apply Qabs_nonneg.
Qed.

Lemma Q2R_sqrt_le (a b : Q) :
  0 <= a -> a * a <= b -> (Q2R a <= sqrt (Q2R b))%R.
Proof.
  intros Ha Hab.
  assert (Ha' : (0 <= Q2R a)%R).
  { apply Qle_Rle in Ha. rewrite RMicromega.Q2R_0 in Ha. exact Ha. }
  rewrite <- (sqrt_square (Q2R a) Ha') at 1.
  apply sqrt_le_1_alt. rewrite <- Q2R_mult. apply Qle_Rle, Hab.
Qed.

Lemma Q2R_sqrt_eq (a b : Q) :
  0 <= a -> 0 <= b -> (Q2R a = sqrt (Q2R b) <-> a * a == b).
Proof.
  intros Ha Hb.
  assert (Ha' : (0 <= Q2R a)%R).
  { apply Qle_Rle in Ha. rewrite RMicromega.Q2R_0 in Ha. exact Ha. }
  assert (Hb' : (0 <= Q2R b)%R).
  { apply Qle_Rle in Hb. rewrite RMicromega.Q2R_0 in Hb. exact Hb. }
  split.
  - intros E. apply eqR_Qeq. rewrite Q2R_mult, E. apply sqrt_sqrt, Hb'.
  - intros E. apply Qeq_eqR in E. rewrite Q2R_mult in E.
    rewrite <- E. symmetry. apply sqrt_square, Ha'.
Qed.

End Metrics.

(** ** The signs of binary64 results *)

Section FloatSigns.

Import SpecFloat Float64 MetricsFloat.
Open Scope Z_scope.

Lemma nonneg_cases (x : float) :
  nonneg x <->
  (exists s, x = S754_zero s) \/ x = S754_infinity false \/
  (exists m e, x = S754_finite false m e).
Proof.
  unfold nonneg, leb, SFleb, zero. split.
  - destruct x as [s|[|]| |[|] m e]; cbn; try discriminate; intros _;
      eauto.
  - intros [[s ->]|[->|(m & e & ->)]]; reflexivity.
Qed.

Lemma shr_1_nonneg mrs : 0 <= shr_m mrs -> 0 <= shr_m (shr_1 mrs).
Proof.
  destruct mrs as [m r s]. cbn [shr_m].
  destruct m as [|[p|p|]|[p|p|]]; cbn; lia.
Qed.

Lemma iter_pos_inv (A : Type) (P : A -> Prop) (f : A -> A) :
  (forall x, P x -> P (f x)) ->
  forall p x, P x -> P (iter_pos f p x).
Proof.
  intros Hf. induction p as [p IH|p IH|]; intros x Hx; cbn [iter_pos].
  - apply IH, IH, Hf, Hx.
  - apply IH, IH, Hx.
  - apply Hf, Hx.
Qed.

Lemma shr_nonneg mrs e n : 0 <= shr_m mrs -> 0 <= shr_m (fst (shr mrs e n)).
Proof.
  intros H. unfold shr. destruct n as [|p|p]; cbn [fst]; try exact H.
  apply (iter_pos_inv _ (fun r => 0 <= shr_m r)); [apply shr_1_nonneg | exact H].
Qed.

Lemma shr_fexp_nonneg m e l :
  0 <= m -> 0 <= shr_m (fst (shr_fexp prec emax m e l)).
Proof.
  intros H. unfold shr_fexp. apply shr_nonneg.
  destruct l as [|[| |]]; exact H.
Qed.

Lemma round_nearest_even_nonneg m l : 0 <= m -> 0 <= round_nearest_even m l.
Proof.
  intros H. unfold round_nearest_even.
  destruct l as [|[| |]]; try destruct (Z.even m); lia.
Qed.

(** Rounding keeps the sign and never gives NaN. *)
Lemma binary_round_aux_sign sx mx ex lx :
  0 <= mx ->
  binary_round_aux prec emax sx mx ex lx = S754_zero sx \/
  binary_round_aux prec emax sx mx ex lx = S754_infinity sx \/
  exists m e, binary_round_aux prec emax sx mx ex lx = S754_finite sx m e.
Proof.
  intros H. unfold binary_round_aux.
  pose proof (shr_fexp_nonneg mx ex lx H) as H1.
  destruct (shr_fexp prec emax mx ex lx) as [mrs' e']. cbn [fst] in H1.
  pose proof (shr_fexp_nonneg
                (round_nearest_even (shr_m mrs') (loc_of_shr_record mrs'))
                e' loc_Exact
                (round_nearest_even_nonneg _ _ H1)) as H2.
  destruct (shr_fexp prec emax _ e' loc_Exact) as [mrs'' e'']. cbn [fst] in H2.
  destruct (shr_m mrs'') as [|m|m]; [auto | | lia].
  destruct (e'' <=? emax - prec); eauto.
Qed.

Lemma binary_round_sign sx mx ex :
  binary_round prec emax sx mx ex = S754_zero sx \/
  binary_round prec emax sx mx ex = S754_infinity sx \/
  exists m e, binary_round prec emax sx mx ex = S754_finite sx m e.
Proof.
  unfold binary_round.
  destruct (shl_align mx ex _) as [mz ez].
  apply binary_round_aux_sign. lia.
Qed.

Lemma sign_nonneg (x : float) :
  x = S754_zero false \/ x = S754_infinity false \/
  (exists m e, x = S754_finite false m e) -> nonneg x.
Proof.
  intros H. apply nonneg_cases. destruct H as [->|[->|H]]; eauto.
Qed.

Lemma add_nonneg x y : nonneg x -> nonneg y -> nonneg (add x y).
Proof.
  intros Hx Hy. apply nonneg_cases in Hx. apply nonneg_cases in Hy.
  destruct Hx as [[sx ->]|[->|(mx & ex & ->)]];
    destruct Hy as [[sy ->]|[->|(my & ey & ->)]];
    try (apply nonneg_cases; unfold add; cbn [SFadd]; eauto; fail).
  - apply nonneg_cases. unfold add. cbn [SFadd].
    destruct sx, sy; eauto.
  - unfold add. cbn [SFadd cond_Zopp].
    apply sign_nonneg. unfold binary_normalize.
    cbn [Z.add]. apply binary_round_sign.
Qed.


Lemma binary_normalize_not_nan m e :
  binary_normalize prec emax m e false <> S754_nan.
Proof.
  unfold binary_normalize. destruct m as [|p|p].
  - discriminate.
  - destruct (binary_round_sign false p e) as [E|[E|(m' & e' & E)]];
      rewrite E; discriminate.
  - destruct (binary_round_sign true p e) as [E|[E|(m' & e' & E)]];
      rewrite E; discriminate.
Qed.

Lemma sub_not_nan x y :
  is_finite x = true -> is_finite y = true -> sub x y <> S754_nan.
Proof.
  intros Hx Hy. unfold sub.
  destruct x as [sx|sx| |sx mx ex]; try discriminate;
    destruct y as [sy|sy| |sy my ey]; try discriminate; cbn [SFsub].
  - destruct sx, sy; discriminate.
  - apply binary_normalize_not_nan.
Qed.

Lemma abs_nonneg x : x <> S754_nan -> nonneg (abs x).
Proof.
  intros H. apply nonneg_cases. unfold abs.
  destruct x as [s|s| |s m e]; cbn [SFabs]; eauto. contradiction.
Qed.

Lemma square_nonneg x : x <> S754_nan -> nonneg (mul x x).
Proof.
  intros H. unfold mul.
  destruct x as [s|s| |s m e]; cbn [SFmul]; try contradiction.
  - apply nonneg_cases. eauto.
  - apply nonneg_cases. destruct s; eauto.
  - assert (E : xorb s s = false) by (destruct s; reflexivity).
    rewrite E. apply sign_nonneg. apply binary_round_aux_sign. lia.
Qed.

Lemma div_eucl_nonneg a b :
  0 <= a -> 0 < b -> 0 <= fst (IntDef.Z.div_eucl a b).
Proof.
  intros Ha Hb. change (fst (IntDef.Z.div_eucl a b)) with (a / b).
  apply Z.div_pos; assumption.
Qed.

Lemma shifted_nonneg (m : positive) (sh : Z) :
  0 <= match sh with
       | 0 => Z.pos m
       | Z.pos _ => IntDef.Z.shiftl (Z.pos m) sh
       | Z.neg _ => 0
       end.
Proof.
  destruct sh as [|p|p]; try lia.
  change (IntDef.Z.shiftl (Z.pos m) (Z.pos p))
    with (Z.shiftl (Z.pos m) (Z.pos p)).
  apply Z.shiftl_nonneg. lia.
Qed.

Lemma div_nonneg x my ey :
  nonneg x -> nonneg (div x (S754_finite false my ey)).
Proof.
  intros Hx. apply nonneg_cases in Hx. unfold div.
  destruct Hx as [[sx ->]|[->|(mx & ex & ->)]]; cbn [SFdiv xorb].
  - apply nonneg_cases. eauto.
  - apply nonneg_cases. eauto.
  - unfold SFdiv_core_binary.
    match goal with
    | |- context [IntDef.Z.div_eucl ?a ?b] =>
        pose proof (div_eucl_nonneg a b (shifted_nonneg _ _) ltac:(lia)) as Hq;
        destruct (IntDef.Z.div_eucl a b) as [q r]
    end.
    cbn [fst] in Hq.
    apply sign_nonneg. apply binary_round_aux_sign. exact Hq.
Qed.

Lemma sqrt_nonneg x : nonneg x -> nonneg (sqrt x).
Proof.
  intros Hx. apply nonneg_cases in Hx. unfold sqrt.
  destruct Hx as [[sx ->]|[->|(mx & ex & ->)]]; cbn [SFsqrt].
  - apply nonneg_cases. eauto.
  - apply nonneg_cases. eauto.
  - unfold SFsqrt_core_binary.
    match goal with
    | |- context [IntDef.Z.sqrtrem ?a] =>
        pose proof (Z.sqrtrem_sqrt a) as Hq;
        pose proof (Z.sqrt_nonneg a) as Hs;
        change (Z.sqrtrem a) with (IntDef.Z.sqrtrem a) in Hq;
        destruct (IntDef.Z.sqrtrem a) as [q r]
    end.
    cbn [fst] in Hq. subst q.
    apply sign_nonneg. apply binary_round_aux_sign. exact Hs.
Qed.


Lemma digits_lower (p : positive) : 2 ^ (Z.pos (digits2_pos p) - 1) <= Z.pos p.
Proof.
  induction p as [p IH|p IH|]; cbn [digits2_pos].
  - rewrite Pos2Z.inj_succ.
    replace (Z.succ (Z.pos (digits2_pos p)) - 1)
      with (Z.succ (Z.pos (digits2_pos p) - 1)) by lia.
    rewrite Z.pow_succ_r by lia. lia.
  - rewrite Pos2Z.inj_succ.
    replace (Z.succ (Z.pos (digits2_pos p)) - 1)
      with (Z.succ (Z.pos (digits2_pos p) - 1)) by lia.
    rewrite Z.pow_succ_r by lia. lia.
  - cbn. lia.
Qed.

Lemma digits_shift (p k : positive) :
  digits2_pos (Pos.iter xO p k) = (digits2_pos p + k)%positive.
Proof.
  induction k as [|k IH] using Pos.peano_ind.
  - cbn [Pos.iter digits2_pos]. lia.
  - rewrite Pos.iter_succ. cbn [digits2_pos]. rewrite IH. lia.
Qed.

(** A full mantissa in the normal range is its own rounding. *)
Lemma round_aux_exact (mz : positive) (ez : Z) :
  Z.pos (digits2_pos mz) = 53 -> -1074 <= ez <= 971 ->
  binary_round_aux prec emax false (Z.pos mz) ez loc_Exact
  = S754_finite false mz ez.
Proof.
  intros Hd He.
  assert (H0 : fexp prec emax (Zdigits2 (Z.pos mz) + ez) - ez = 0).
  { cbn [Zdigits2]. rewrite Hd. unfold fexp, emin, prec, emax.
    change (IntDef.Z.max (53 + ez - 53) (3 - 1024 - 53))
      with (Z.max (53 + ez - 53) (3 - 1024 - 53)). lia. }
  unfold binary_round_aux, shr_fexp. cbn [shr_record_of_loc].
  rewrite H0. cbn [shr shr_m loc_of_shr_record round_nearest_even].
  cbn [shr_record_of_loc]. rewrite H0. cbn [shr shr_m].
  unfold prec, emax.
  destruct (Z.leb_spec ez (1024 - 53)); [reflexivity | lia].
Qed.

Lemma of_nat_finite (n : nat) :
  (1 <= n)%nat -> Z.of_nat n < 2 ^ 53 ->
  exists m e, of_nat n = S754_finite false m e.
Proof.
  intros Hn Hlt. unfold of_nat, binary_normalize.
  destruct (Z.of_nat n) as [|p|p] eqn:E; [lia| |lia].
  unfold binary_round.
  pose proof (digits_lower p) as Hlo.
  assert (Hd : Z.pos (digits2_pos p) <= 53).
  { destruct (Z.le_gt_cases (Z.pos (digits2_pos p)) 53) as [H|H]; [exact H|].
    exfalso.
    assert (2 ^ 53 <= 2 ^ (Z.pos (digits2_pos p) - 1))
      by (apply Z.pow_le_mono_r; lia).
    lia. }
  assert (Hf : fexp prec emax (Z.pos (digits2_pos p) + 0)
               = Z.pos (digits2_pos p) - 53).
  { unfold fexp, emin, prec, emax.
    change (IntDef.Z.max (Z.pos (digits2_pos p) + 0 - 53) (3 - 1024 - 53))
      with (Z.max (Z.pos (digits2_pos p) + 0 - 53) (3 - 1024 - 53)). lia. }
  rewrite Hf. unfold shl_align.
  destruct (Z.pos (digits2_pos p) - 53 - 0) as [|k|k] eqn:Ek.
  - rewrite round_aux_exact by lia. eauto.
  - lia.
  - rewrite round_aux_exact; [eauto | | lia].
    rewrite digits_shift. lia.
Qed.

(** Sums of floats that are not negative are not negative, in whatever
    order numpy adds them. *)
Lemma sum_loop_nonneg (res : float) (a : list float) :
  nonneg res -> Forall nonneg a -> nonneg (sum_loop res a).
Proof.
  intros Hres Ha. unfold sum_loop. revert res Hres.
  induction Ha as [|x a Hx _ IH]; intros res Hres; cbn [fold_left];
    [exact Hres|].
  apply IH, add_nonneg; assumption.
Qed.

Lemma Forall_firstn (A : Type) (P : A -> Prop) (n : nat) (l : list A) :
  Forall P l -> Forall P (firstn n l).
Proof.
  intros H. revert n. induction H as [|x l Hx _ IH]; intros [|n];
    cbn [firstn]; constructor; auto.
Qed.

Lemma Forall_skipn (A : Type) (P : A -> Prop) (n : nat) (l : list A) :
  Forall P l -> Forall P (skipn n l).
Proof.
  intros H. revert n. induction H as [|x l Hx Hl IH]; intros [|n];
    cbn [skipn]; auto.
Qed.

Lemma add8_nonneg (r blk : list float) :
  Forall nonneg r -> Forall nonneg blk -> Forall nonneg (add8 r blk).
Proof.
  intros Hr. revert blk. unfold add8.
  induction Hr as [|x r Hx _ IH]; intros blk Hb; [constructor|].
  destruct Hb as [|y blk Hy Hb]; cbn [combine map]; constructor.
  - apply add_nonneg; assumption.
  - apply IH, Hb.
Qed.

Lemma add_blocks_nonneg (k : nat) (r rest : list float) :
  Forall nonneg r -> Forall nonneg rest ->
  Forall nonneg (add_blocks k r rest).
Proof.
  revert r rest. induction k as [|k IH]; intros r rest Hr Hrest;
    cbn [add_blocks]; [exact Hr|].
  apply IH.
  - apply add8_nonneg; [exact Hr | apply Forall_firstn, Hrest].
  - apply Forall_skipn, Hrest.
Qed.

Lemma zero_nonneg : nonneg zero.
Proof. reflexivity. Qed.

Lemma reduce8_nonneg (r : list float) : Forall nonneg r -> nonneg (reduce8 r).
Proof.
  intros H. unfold reduce8.
  destruct r as [|r0 [|r1 [|r2 [|r3 [|r4 [|r5 [|r6 [|r7 [|r8 r]]]]]]]]];
    try apply zero_nonneg.
  repeat match goal with
         | H : Forall nonneg (_ :: _) |- _ =>
             apply Forall_cons_iff in H; destruct H as [? H]
         end.
  repeat apply add_nonneg; assumption.
Qed.

Lemma pairwise_block_nonneg (a : list float) :
  Forall nonneg a -> nonneg (pairwise_block a).
Proof.
  intros H. unfold pairwise_block.
  apply sum_loop_nonneg; [|apply Forall_skipn, H].
  apply reduce8_nonneg, add_blocks_nonneg.
  - apply Forall_firstn, H.
  - apply Forall_skipn, H.
Qed.

Lemma pairwise_sum_rec_nonneg (fuel : nat) (a : list float) :
  Forall nonneg a -> nonneg (pairwise_sum_rec fuel a).
Proof.
  revert a. induction fuel as [|fuel IH]; intros a H; cbn [pairwise_sum_rec];
    destruct (length a <? 8)%nat;
    try (apply sum_loop_nonneg; [apply zero_nonneg | exact H]);
    destruct (length a <=? 128)%nat;
    try (apply pairwise_block_nonneg; exact H).
  apply add_nonneg; apply IH; [apply Forall_firstn | apply Forall_skipn];
    exact H.
Qed.

(** The fuel does not matter once it covers the length. *)
Lemma pairwise_sum_fuel (fuel fuel' : nat) (a : list float) :
  (length a <= fuel)%nat -> (length a <= fuel')%nat ->
  pairwise_sum_rec fuel a = pairwise_sum_rec fuel' a.
Proof.
  revert fuel' a. induction fuel as [|fuel IH]; intros fuel' a H H'.
  - destruct a; [|cbn [length] in H; lia].
    destruct fuel'; reflexivity.
  - destruct fuel' as [|fuel'].
    + destruct a; [reflexivity | cbn [length] in H'; lia].
    + cbn [pairwise_sum_rec].
      destruct (Nat.ltb_spec (length a) 8); [reflexivity|].
      destruct (Nat.leb_spec (length a) 128); [reflexivity|].
      f_equal; apply IH; rewrite ?length_firstn, ?length_skipn; lia.
Qed.

Lemma np_mean_nonneg (a : list float) :
  Forall nonneg a -> (1 <= length a)%nat -> Z.of_nat (length a) < 2 ^ 53 ->
  nonneg (np_mean a).
Proof.
  intros H Hn Hlt. unfold np_mean, np_sum.
  destruct (of_nat_finite (length a) Hn Hlt) as (m & e & ->).
  apply div_nonneg, add_nonneg; [apply zero_nonneg|].
  apply pairwise_sum_rec_nonneg, H.
Qed.

Lemma check_targets_finite (y_true y_pred : list float) :
  length y_true = length y_pred -> (0 < length y_true)%nat ->
  Forall (fun x => is_finite x = true) y_true ->
  Forall (fun x => is_finite x = true) y_pred ->
  MetricsFloat.check_targets y_true y_pred = Ok tt.
Proof.
  intros Hlen Hpos Ht Hp. unfold MetricsFloat.check_targets.
  rewrite Hlen, Nat.eqb_refl. cbn [negb].
  destruct (Nat.eqb_spec (length y_pred) 0); [lia|].
  assert (Et : forallb is_finite y_true = true).
  { apply forallb_forall. apply Forall_forall. exact Ht. }
  assert (Ep : forallb is_finite y_pred = true).
  { apply forallb_forall. apply Forall_forall. exact Hp. }
  rewrite Et, Ep. reflexivity.
Qed.

(** On valid input the two means of the metrics are computed and are not
    negative. *)
Lemma float_errors_nonneg (y_true y_pred : list float) :
  length y_true = length y_pred -> (0 < length y_true)%nat ->
  Z.of_nat (length y_true) < 2 ^ 53 ->
  Forall (fun x => is_finite x = true) y_true ->
  Forall (fun x => is_finite x = true) y_pred ->
  exists mae mse,
    MetricsFloat.mean_absolute_error y_true y_pred = Ok mae /\
    MetricsFloat.mean_squared_error y_true y_pred = Ok mse /\
    nonneg mae /\ nonneg mse.
Proof.
  intros Hlen Hpos Hlt Ht Hp.
  unfold MetricsFloat.mean_absolute_error, MetricsFloat.mean_squared_error.
  rewrite (check_targets_finite y_true y_pred Hlen Hpos Ht Hp). cbn [bind].
  assert (Hc : length (combine y_true y_pred) = length y_true).
  { rewrite length_combine. lia. }
  assert (Hin : forall tp, In tp (combine y_true y_pred) ->
                           is_finite (fst tp) = true /\
                           is_finite (snd tp) = true).
  { intros [t q] Hin. rewrite Forall_forall in Ht, Hp. split.
    - apply Ht. exact (in_combine_l _ _ _ _ Hin).
    - apply Hp. exact (in_combine_r _ _ _ _ Hin). }
  do 2 eexists. split; [reflexivity|]. split; [reflexivity|].
  split.
  - apply np_mean_nonneg; [|cbn [length]; lia | cbn [length]; lia].
    constructor; [|constructor].
    apply np_mean_nonneg; rewrite ?length_map, ?Hc; try lia.
    apply Forall_forall. intros x Hx. apply in_map_iff in Hx.
    destruct Hx as (tp & <- & Htp). destruct (Hin tp Htp) as [H1 H2].
    apply abs_nonneg, sub_not_nan; assumption.
  - apply np_mean_nonneg; [|cbn [length]; lia | cbn [length]; lia].
    constructor; [|constructor].
    apply np_mean_nonneg; rewrite ?length_map, ?Hc; try lia.
    apply Forall_forall. intros x Hx. apply in_map_iff in Hx.
    destruct Hx as (tp & <- & Htp). destruct (Hin tp Htp) as [H1 H2].
    apply square_nonneg, sub_not_nan; assumption.
Qed.

End FloatSigns.

(** In exact arithmetic: MAE and RMSE are not negative, RMSE is at least
    MAE, and the two are equal exactly when all absolute errors are
    equal. *)
Lemma exact_metric_bounds (actual predicted : list Q) :
  length actual = length predicted ->
  (0 < length actual)%nat ->
  exists mae rmse mape,
    calculate_metrics actual predicted = Ok (mae, rmse, mape) /\
    (0 <= mae)%Q /\
    (0 <= root_val rmse)%R /\
    (Q2R mae <= root_val rmse)%R /\
    (Q2R mae = root_val rmse <->
     forall x y, In x (abs_errors actual predicted) ->
                 In y (abs_errors actual predicted) -> (x == y)%Q).
Proof.
  intros Hlen Hpos.
  destruct (calculate_metrics_ok actual predicted Hlen Hpos)
    as (mae & mse & mape & Hrun & Hmae & Hmse & _).
  exists mae, (Sqrt mse), mape.
  set (e := abs_errors actual predicted) in *.
  assert (He : length e = length actual) by (apply abs_errors_length, Hlen).
  rewrite <- He in Hmae, Hmse.
  assert (Hpos' : (0 < length e)%nat) by lia.
  pose proof (Qofnat_pos _ Hpos') as Hn.
  pose proof (Qsum_nonneg e (abs_errors_nonneg actual predicted)) as Hs.
  assert (Hmae0 : (0 <= mae)%Q).
  { rewrite Hmae. apply Qle_shift_div_l; [exact Hn | lra]. }
  assert (Hsq : (mae * mae <= mse)%Q).
  { rewrite Hmae, Hmse. apply (mean_sq_ge e Hpos'). }
  assert (Hmse0 : (0 <= mse)%Q).
  { pose proof (Qsq_nonneg mae). lra. }
  unfold root_val. cbn [radicand].
  repeat split.
  - exact Hrun.
  - exact Hmae0.
  - apply sqrt_pos.
  - apply Q2R_sqrt_le; assumption.
  - intros E. apply (all_equal_iff_mean e Hpos').
    apply (mean_sq_eq e Hpos'). rewrite <- Hmae, <- Hmse.
    apply Q2R_sqrt_eq; assumption.
  - intros Hall. apply Q2R_sqrt_eq; [assumption | assumption |].
    rewrite Hmae, Hmse. apply (mean_sq_eq e Hpos').
    apply (all_equal_iff_mean e Hpos'). exact Hall.
Qed.

(** C5 (as the code behaves): on aligned sequences of equal positive length
    and finite values, the MAE and RMSE the code computes in binary64 are
    not negative; that RMSE is at least MAE, with equality exactly when all
    absolute errors are equal, holds for the exact values of the two
    formulas, of which the computed values are roundings. *)
Theorem mae_rmse_bounds (actual predicted : list Float64.float) :
  length actual = length predicted ->
  (0 < length actual)%nat ->
  (Z.of_nat (length actual) < 2 ^ 53)%Z ->
  Forall (fun x => Float64.is_finite x = true) actual ->
  Forall (fun x => Float64.is_finite x = true) predicted ->
  (exists mae rmse mape,
     MetricsFloat.calculate_metrics actual predicted = Ok (mae, rmse, mape) /\
     Float64.leb Float64.zero mae = true /\
     Float64.leb Float64.zero rmse = true) /\
  (exists mae rmse mape,
     calculate_metrics (map Float64.to_Q actual) (map Float64.to_Q predicted)
       = Ok (mae, rmse, mape) /\
     (0 <= mae)%Q /\
     (0 <= root_val rmse)%R /\
     (Q2R mae <= root_val rmse)%R /\
     (Q2R mae = root_val rmse <->
      forall x y,
        In x (abs_errors (map Float64.to_Q actual)
                         (map Float64.to_Q predicted)) ->
        In y (abs_errors (map Float64.to_Q actual)
                         (map Float64.to_Q predicted)) -> (x == y)%Q)).
Proof.
  intros Hlen Hpos Hlt Ha Hp. split.
  - destruct (float_errors_nonneg actual predicted Hlen Hpos Hlt Ha Hp)
      as (mae & mse & Hmae & Hmse & Hn1 & Hn2).
    unfold MetricsFloat.calculate_metrics. rewrite Hmae, Hmse. cbn [bind].
    do 3 eexists. split; [reflexivity|]. split; [exact Hn1|].
    apply sqrt_nonneg, Hn2.
  - apply exact_metric_bounds.
    + rewrite !length_map. exact Hlen.
    + rewrite length_map. exact Hpos.
Qed.

Lemma mae_rmse_bounds_witness :
  (exists mae rmse mape,
     MetricsFloat.calculate_metrics [one_and_a_half; two] [two; two]
       = Ok (mae, rmse, mape) /\
     Float64.leb Float64.zero mae = true /\
     Float64.leb Float64.zero rmse = true) /\
  (exists mae rmse mape,
     calculate_metrics (map Float64.to_Q [one_and_a_half; two])
                       (map Float64.to_Q [two; two])
       = Ok (mae, rmse, mape) /\
     (0 <= mae)%Q /\
     (0 <= root_val rmse)%R /\
     (Q2R mae <= root_val rmse)%R /\
     (Q2R mae = root_val rmse <->
      forall x y,
        In x (abs_errors (map Float64.to_Q [one_and_a_half; two])
                         (map Float64.to_Q [two; two])) ->
        In y (abs_errors (map Float64.to_Q [one_and_a_half; two])
                         (map Float64.to_Q [two; two])) -> (x == y)%Q)).
Proof.
  apply (mae_rmse_bounds [one_and_a_half; two] [two; two]).
  - reflexivity.
  - apply le_S, le_n.
  - reflexivity.
  - repeat constructor.
  - repeat constructor.
Defined.

(** C5, as stated, fails for the values the code computes: on three
    absolute errors of 0.1, all equal, the MAE comes out as
    0.10000000000000002 and the RMSE as 0.1, below the MAE. *)
Lemma rmse_below_mae_counterexample :
  exists mae rmse mape,
    MetricsFloat.calculate_metrics
      [tenth; tenth; tenth] [Float64.zero; Float64.zero; Float64.zero]
      = Ok (mae, rmse, mape) /\
    Float64.ltb rmse mae = true /\
    Float64.leb mae rmse = false /\
    (forall x y,
       In x (abs_errors (map Float64.to_Q [tenth; tenth; tenth])
                        (map Float64.to_Q
                             [Float64.zero; Float64.zero; Float64.zero])) ->
       In y (abs_errors (map Float64.to_Q [tenth; tenth; tenth])
                        (map Float64.to_Q
                             [Float64.zero; Float64.zero; Float64.zero])) ->
       (x == y)%Q).
Proof.
  do 3 eexists. split; [vm_compute; reflexivity|].
  split; [vm_compute; reflexivity|]. split; [vm_compute; reflexivity|].
  intros x y Hx Hy. cbn [map abs_errors combine In] in Hx, Hy.
  unfold abs_errors in Hx, Hy. cbn [map combine In fst snd] in Hx, Hy.
  destruct Hx as [<-|[<-|[<-|[]]]]; destruct Hy as [<-|[<-|[<-|[]]]];
    reflexivity.
Qed.

(** ** MAPE and zero actual values *)

Section Mape.

Open Scope Q_scope.

Lemma Qeq_bool_false (x y : Q) : Qeq_bool x y = false <-> ~ x == y.
Proof.
  split.
  - intros H E. apply Qeq_bool_iff in E. congruence.
  - intros H. destruct (Qeq_bool x y) eqn:E; [|reflexivity].
    apply Qeq_bool_iff in E. contradiction.
Qed.

(** The three shapes a term can take. *)
Lemma ape_term_cases (ap : Q * Q) :
  (fst ap == 0 /\ snd ap == 0 /\ ape_term ap = NaN) \/
  (fst ap == 0 /\ ~ snd ap == 0 /\ ape_term ap = PosInf) \/
  (~ fst ap == 0 /\
   ape_term ap = Finite (Qabs ((fst ap - snd ap) / fst ap))).
Proof.
  destruct ap as [a p]. unfold ape_term, fdiv. cbn [fst snd].
  destruct (Qeq_bool a 0) eqn:Ea.
  - apply Qeq_bool_iff in Ea.
    destruct (Qeq_bool (a - p) 0) eqn:Ed.
    + apply Qeq_bool_iff in Ed. left. repeat split; [exact Ea | lra].
    + apply Qeq_bool_false in Ed. right; left.
      repeat split; [exact Ea | lra |].
      destruct (Qlt_bool 0 (a - p)); reflexivity.
  - apply Qeq_bool_false in Ea. right; right. split; [exact Ea | reflexivity].
Qed.

Lemma fold_fadd_posinf l :
  Forall summable l -> fold_left fadd l PosInf = PosInf.
Proof.
  induction 1 as [|v l [Hv1 Hv2] _ IH]; simpl; [reflexivity|].
  destruct v; try congruence; exact IH.
Qed.

Lemma fold_fadd_finite l :
  Forall summable l ->
  forall q,
    (Exists (eq PosInf) l /\ fold_left fadd l (Finite q) = PosInf) \/
    (~ Exists (eq PosInf) l /\
     exists q', fold_left fadd l (Finite q) = Finite q' /\
                q' == q + Qsum (map finite_part l)).
Proof.
  induction 1 as [|v l [Hv1 Hv2] Hl IH]; intros q.
  - right. split; [intros H; inversion H|].
    exists q. split; [reflexivity | rewrite Qsum_nil; ring].
  - destruct v as [x| | |]; try congruence; cbn [fold_left fadd].
    + destruct (IH (q + x)) as [[Hex E]|[Hno (q' & E & Hq)]].
      * left. split; [right; exact Hex | exact E].
      * right. split.
        -- intros Hex. inversion Hex; [discriminate | contradiction].
        -- exists q'. split; [exact E|].
           cbn [map finite_part]. rewrite Qsum_cons, Hq. ring.
    + left. split; [left; reflexivity | apply fold_fadd_posinf, Hl].
Qed.

Variable c : list (Q * Q).

Lemma present_summable : Forall summable (present_terms c).
Proof.
  apply Forall_forall. intros v Hv. unfold present_terms in Hv.
  apply filter_In in Hv. destruct Hv as [Hin Hnan].
  unfold ape_terms in Hin. apply in_map_iff in Hin.
  destruct Hin as (ap & <- & _).
  destruct (ape_term_cases ap) as [(_ & _ & E)|[(_ & _ & E)|(_ & E)]];
    rewrite E in *; split; try discriminate.
Qed.

Lemma present_nil_iff :
  present_terms c = [] <-> Forall (fun ap => fst ap == 0 /\ snd ap == 0) c.
Proof.
  unfold present_terms, ape_terms. induction c as [|ap l IH]; simpl.
  - split; [constructor | reflexivity].
  - destruct (ape_term_cases ap) as [(Ha & Hp & E)|[(Ha & Hp & E)|(Ha & E)]];
      rewrite E; simpl.
    + rewrite IH. split; [intros H; constructor; auto | intros H; inversion H; auto].
    + split; [discriminate | intros H; inversion H; tauto].
    + split; [discriminate | intros H; inversion H; tauto].
Qed.

Lemma present_posinf_iff :
  Exists (eq PosInf) (present_terms c) <->
  Exists (fun ap => fst ap == 0 /\ ~ snd ap == 0) c.
Proof.
  unfold present_terms, ape_terms. induction c as [|ap l IH]; simpl.
  - split; intros H; inversion H.
  - destruct (ape_term_cases ap) as [(Ha & Hp & E)|[(Ha & Hp & E)|(Ha & E)]];
      rewrite E; simpl.
    + rewrite IH. split; [intros H; right; exact H|].
      intros H. inversion H; [tauto | assumption].
    + split; intros _; left; auto.
    + rewrite Exists_cons, IH, Exists_cons. split.
      * intros [H|H]; [discriminate | right; exact H].
      * intros [H|H]; [tauto | right; exact H].
Qed.

Lemma present_all_finite :
  Forall (fun ap => ~ fst ap == 0) c ->
  present_terms c = ape_terms c /\
  map finite_part (ape_terms c) =
  map (fun ap => Qabs ((fst ap - snd ap) / fst ap)) c.
Proof.
  unfold present_terms, ape_terms.
  induction 1 as [|ap l Ha _ [IH1 IH2]]; simpl.
  - split; reflexivity.
  - destruct (ape_term_cases ap) as [(Ha' & _)|[(Ha' & _)|(_ & E)]];
      try contradiction.
    rewrite E. simpl. rewrite IH1, IH2. split; reflexivity.
Qed.

(** The mean of the terms: NaN when every term is, infinite when one is,
    finite otherwise. *)
Lemma series_mean_cases :
  (series_mean (ape_terms c) = NaN <->
   Forall (fun ap => fst ap == 0 /\ snd ap == 0) c) /\
  (series_mean (ape_terms c) = PosInf <->
   Exists (fun ap => fst ap == 0 /\ ~ snd ap == 0) c) /\
  (Forall (fun ap => ~ fst ap == 0) c -> c <> [] ->
   exists q, series_mean (ape_terms c) = Finite q /\
             q == Qsum (map (fun ap => Qabs ((fst ap - snd ap) / fst ap)) c)
                  / Qofnat (length c)).
Proof.
  rewrite <- present_nil_iff, <- present_posinf_iff.
  unfold series_mean. fold (present_terms c).
  pose proof present_summable as Hsum.
  pose proof present_all_finite as Hfin.
  assert (Hlen : length (ape_terms c) = length c) by apply length_map.
  assert (Hnoinf : Forall (fun ap => ~ fst ap == 0) c ->
                   ~ Exists (eq PosInf) (ape_terms c)).
  { intros Hall Hex. unfold ape_terms in Hex.
    apply Exists_exists in Hex. destruct Hex as (v & Hin & <-).
    apply in_map_iff in Hin. destruct Hin as (ap & E & Hap).
    rewrite Forall_forall in Hall. specialize (Hall ap Hap).
    destruct (ape_term_cases ap) as [(Ha & _)|[(Ha & _)|(_ & E')]];
      try contradiction. congruence. }
  generalize dependent (present_terms c). intros present Hsum Hfin.
  generalize dependent (ape_terms c). intros terms Hlen Hnoinf Hfin.
  destruct (fold_fadd_finite present Hsum 0)
    as [[Hex E]|[Hno (q' & E & Hq)]].
  - destruct present as [|v l]; [inversion Hex|]. rewrite E. cbn [fscale].
    repeat split; try discriminate; auto.
    intros Hall Hne. destruct (Hfin Hall) as [Hp _]. rewrite Hp in Hex.
    exfalso. apply (Hnoinf Hall), Hex.
  - destruct present as [|v l].
    + split; [split; reflexivity|]. split.
      * split; [discriminate | intros H; inversion H].
      * intros Hall Hne. destruct (Hfin Hall) as [Hp _].
        destruct c; [congruence|]. rewrite <- Hp in Hlen. discriminate.
    + rewrite E. cbn [fscale]. repeat split; try discriminate.
      * intros H. contradiction.
      * intros Hall _. destruct (Hfin Hall) as [Hp Hmap].
        eexists. split; [reflexivity|].
        rewrite Hq, Hp, Hmap, Hlen. unfold Qdiv. ring.
Qed.

End Mape.

(** C4 (as the code behaves): on aligned sequences of equal positive length
    the computation returns MAE, RMSE and MAPE and raises nothing, also
    when an actual value is zero.  MAPE is then +infinity exactly when some
    actual value is zero and its prediction is not, NaN exactly when every
    actual value and its prediction are both zero, and with no zero actual
    value it is 100 times the mean of |(actual - predicted) / actual|. *)
Theorem mape_zero_actual_no_exception (actual predicted : list Q) :
  length actual = length predicted ->
  (0 < length actual)%nat ->
  exists mae rmse mape,
    calculate_metrics actual predicted = Ok (mae, rmse, mape) /\
    (mape = PosInf <->
     Exists (fun ap => fst ap == 0 /\ ~ snd ap == 0)%Q
            (combine actual predicted)) /\
    (mape = NaN <->
     Forall (fun ap => fst ap == 0 /\ snd ap == 0)%Q
            (combine actual predicted)) /\
    (Forall (fun ap => ~ fst ap == 0)%Q (combine actual predicted) ->
     exists q,
       mape = Finite q /\
       (q == 100 * (Qsum (map (fun ap => Qabs ((fst ap - snd ap) / fst ap))
                              (combine actual predicted))
                    / Qofnat (length actual)))%Q).
Proof.
  intros Hlen Hpos.
  destruct (calculate_metrics_ok actual predicted Hlen Hpos)
    as (mae & mse & mape & Hrun & _ & _ & Hmape).
  exists mae, (Sqrt mse), mape. split; [exact Hrun|].
  change (map (fun ap => fabs (fdiv (fst ap - snd ap) (fst ap)))
              (combine actual predicted))
    with (ape_terms (combine actual predicted)) in Hmape.
  destruct (series_mean_cases (combine actual predicted))
    as (Hnan & Hinf & Hfin).
  assert (Hc : length (combine actual predicted) = length actual).
  { rewrite length_combine, <- Hlen. apply Nat.min_id. }
  rewrite <- Hnan, <- Hinf, Hmape.
  repeat split.
  - destruct (series_mean _); simpl; congruence.
  - intros E. rewrite E. reflexivity.
  - destruct (series_mean _); simpl; congruence.
  - intros E. rewrite E. reflexivity.
  - intros Hall. destruct (Hfin Hall) as (q & E & Hq).
    { intros E. rewrite E in Hc. simpl in Hc. lia. }
    rewrite E. cbn [fscale]. eexists. split; [reflexivity|].
    rewrite Hq, Hc. ring.
Qed.

Lemma mape_zero_actual_no_exception_witness :
  exists mae rmse mape,
    calculate_metrics [0; 2]%Q [1; 1]%Q = Ok (mae, rmse, mape) /\
    (mape = PosInf <->
     Exists (fun ap => fst ap == 0 /\ ~ snd ap == 0)%Q
            (combine [0; 2]%Q [1; 1]%Q)) /\
    (mape = NaN <->
     Forall (fun ap => fst ap == 0 /\ snd ap == 0)%Q
            (combine [0; 2]%Q [1; 1]%Q)) /\
    (Forall (fun ap => ~ fst ap == 0)%Q (combine [0; 2]%Q [1; 1]%Q) ->
     exists q,
       mape = Finite q /\
       (q == 100 * (Qsum (map (fun ap => Qabs ((fst ap - snd ap) / fst ap))
                              (combine [0; 2]%Q [1; 1]%Q))
                    / Qofnat 2))%Q).
Proof.
  apply (mape_zero_actual_no_exception [0; 2]%Q [1; 1]%Q).
  - reflexivity.
  - apply le_S, le_n.
Defined.

(** C4, as stated, fails: with a zero actual value the computation raises
    nothing.  It returns an infinite MAPE when the prediction at the zero
    is not zero, and a finite MAPE when it is.  The one input of equal
    lengths on which it raises is the empty one, rejected by the input
    validation of the first metric. *)
Lemma mape_zero_actual_counterexample :
  In 0%Q [0; 2]%Q /\
  calculate_metrics [0; 2]%Q [1; 1]%Q = Ok (2 # 2, Sqrt (2 # 2), PosInf) /\
  calculate_metrics [0; 2]%Q [1; 1]%Q <> Raise ZeroDivisionError /\
  calculate_metrics [0; 2]%Q [0; 1]%Q
    = Ok (1 # 2, Sqrt (1 # 2), Finite (100 # 2)) /\
  calculate_metrics [] [] = Raise ValueError.
Proof.
  repeat split.
  - left; reflexivity.
  - discriminate.
Qed.

(** ** The ends of a chronological index *)

Section ChronologicalIndex.

Open Scope Z_scope.

Lemma last_in (l : list Z) (d : Z) : l <> [] -> In (last l d) l.
Proof.
  intros Hne. rewrite (app_removelast_last d Hne) at 2.
  apply in_or_app. right. left. reflexivity.
Qed.

Lemma sorted_last_max (l : list Z) :
  StronglySorted Z.lt l -> forall y, In y l -> y <= last l 0.
Proof.
  induction 1 as [|x l Hs IH Hx]; intros y Hy; [contradiction|].
  destruct l as [|x' l'].
  - destruct Hy as [<-|[]]. cbn [last]. lia.
  - change (last (x :: x' :: l') 0) with (last (x' :: l') 0).
    destruct Hy as [<-|Hy]; [|apply IH, Hy].
    rewrite Forall_forall in Hx.
    assert (H : In (last (x' :: l') 0) (x' :: l'))
      by (apply last_in; discriminate).
    specialize (Hx _ H). lia.
Qed.

Lemma sorted_ends (l : list Z) :
  StronglySorted Z.lt l -> l <> [] ->
  dates_min l = Some (hd 0 l) /\ dates_max l = Some (last l 0).
Proof.
  intros Hs Hne. split.
  - apply dates_min_spec. destruct l as [|x l]; [congruence|].
    cbn [hd]. split; [left; reflexivity|].
    intros y [<-|Hy]; [lia|].
    inversion Hs as [|? ? _ Hx]; subst. rewrite Forall_forall in Hx.
    specialize (Hx _ Hy). lia.
  - apply dates_max_spec. split; [apply last_in, Hne|].
    apply sorted_last_max, Hs.
Qed.

Lemma rev_head_last (A : Type) (l : list A) (d h : A) (tl : list A) :
  rev l = h :: tl -> last l d = h.
Proof.
  intros E. rewrite <- (rev_involutive l), E. cbn [rev]. apply last_last.
Qed.

End ChronologicalIndex.

(** ** Forecast horizon *)

Section Forecasts.

Open Scope Z_scope.

Lemma forecast_run train point h :
  train <> [] -> (1 <= h)%nat ->
  forecast train point h =
    Ok (map (fun k => (last (index train) 0 + Z.of_nat k, point k)) (seq 1 h)).
Proof.
  intros Hne Hh. unfold forecast. destruct h as [|h]; [lia|].
  destruct (rev (index train)) as [|d tl] eqn:E.
  - exfalso. apply Hne. apply (f_equal (@length Z)) in E.
    rewrite length_rev in E. unfold index in E. rewrite length_map in E.
    destruct train; [reflexivity | discriminate].
  - rewrite (rev_head_last date _ 0 _ _ E). reflexivity.
Qed.


Lemma forecast_ok_inv train point h f :
  forecast train point h = Ok f ->
  train <> [] /\ (1 <= h)%nat /\
  f = map (fun k => (last (index train) 0 + Z.of_nat k, point k)) (seq 1 h).
Proof.
  intros H. destruct h as [|h]; [discriminate|].
  destruct train as [|t train]; [discriminate|].
  rewrite forecast_run in H by (try discriminate; lia).
  injection H as <-. repeat split; [discriminate | lia].
Qed.

Lemma forecast_raises train point h e :
  forecast train point h = Raise e -> e = ValueError.
Proof.
  unfold forecast. destruct h; [congruence|].
  destruct (rev (index train)); [congruence | discriminate].
Qed.

Lemma forecast_length train point h f :
  forecast train point h = Ok f -> length f = h.
Proof.
  intros H. apply forecast_ok_inv in H. destruct H as (_ & _ & ->).
  rewrite length_map. apply length_seq.
Qed.

Lemma forecast_index train point h f :
  forecast train point h = Ok f ->
  index f = map (fun k => last (index train) 0 + 1 + Z.of_nat k) (seq 0 h).
Proof.
  intros H. apply forecast_ok_inv in H. destruct H as (_ & _ & ->).
  unfold index. rewrite map_map. cbn [fst].
  rewrite <- seq_shift, map_map. apply map_ext. intros k. lia.
Qed.


Lemma combine_fst (A B : Type) (l : list A) (l' : list B) :
  length l = length l' -> map fst (combine l l') = l.
Proof.
  revert l'. induction l as [|x l IH]; intros [|y l'] H; simpl in *;
    try reflexivity; try discriminate.
  f_equal. apply IH. lia.
Qed.

Lemma rolling_mean_length_any vals w :
  length (rolling_mean vals w) = length vals.
Proof.
  destruct w as [|w]; [apply length_map|].
  apply rolling_mean_length. lia.
Qed.

Lemma moving_average_index data w :
  map fst (calculate_moving_average data w) = index data.
Proof.
  unfold calculate_moving_average. apply combine_fst.
  rewrite rolling_mean_length_any. unfold index, values.
  rewrite !length_map. reflexivity.
Qed.

End Forecasts.




(** ** Seasonal decomposition and the length of the series *)

Lemma seasonal_decompose_guard (x : list Q) (period : nat) :
  (length x < 2 * period)%nat ->
  seasonal_decompose x period = Raise ValueError.
Proof.
  intros H. unfold seasonal_decompose.
  destruct (Nat.ltb_spec (length x) (2 * period)); [reflexivity | lia].
Qed.

Lemma seasonal_decompose_runs (x : list Q) (period : nat) :
  (2 * period <= length x)%nat ->
  exists d, seasonal_decompose x period = Ok d /\
            length (trend d) = length x /\
            length (seasonal d) = length x.
Proof.
  intros H. unfold seasonal_decompose.
  destruct (Nat.ltb_spec (length x) (2 * period)); [lia|].
  eexists. split; [reflexivity|]. cbn [trend seasonal].
  unfold convolution_filter. rewrite !length_map, !length_seq. auto.
Qed.

(** C8 (as the code behaves): building the daily series never fails on a
    non-empty transaction set; the decomposition that follows raises
    ValueError when the series spans fewer than 14 days, two full cycles of
    7, and succeeds from 14 days on. *)
Theorem preparation_needs_two_cycles (df : list transaction) :
  df <> [] ->
  exists sales lo hi,
    min_date df = Some lo /\
    max_date df = Some hi /\
    daily_sales df = Ok sales /\
    Z.of_nat (length sales) = (hi - lo + 1)%Z /\
    ((hi - lo + 1 < 14)%Z ->
     time_series_preparation df = Raise ValueError) /\
    ((14 <= hi - lo + 1)%Z ->
     exists d, time_series_preparation df = Ok (sales, d)).
Proof.
  intros Hne.
  destruct (daily_sales_run df Hne) as (lo & hi & Hlo & Hhi & Hle & Hrun).
  eexists. exists lo, hi.
  split; [exact Hlo|]. split; [exact Hhi|]. split; [exact Hrun|].
  match goal with
  | |- Z.of_nat (length ?s0) = _ /\ _ => set (s := s0) in *
  end.
  assert (Hlen : Z.of_nat (length s) = (hi - lo + 1)%Z).
  { unfold s. rewrite reindex_length, length_map, length_seq. lia. }
  assert (Hv : length (values s) = length s) by apply length_map.
  repeat split; try assumption.
  - intros Hshort. unfold time_series_preparation. rewrite Hrun. cbn [bind].
    rewrite seasonal_decompose_guard; [reflexivity | lia].
  - intros Hlong. unfold time_series_preparation. rewrite Hrun. cbn [bind].
    destruct (seasonal_decompose_runs (values s) 7) as (d & Hd & _); [lia|].
    exists d. rewrite Hd. reflexivity.
Qed.

Lemma preparation_needs_two_cycles_witness :
  exists sales lo hi,
    min_date fifteen_day_orders = Some lo /\
    max_date fifteen_day_orders = Some hi /\
    daily_sales fifteen_day_orders = Ok sales /\
    Z.of_nat (length sales) = (hi - lo + 1)%Z /\
    ((hi - lo + 1 < 14)%Z ->
     time_series_preparation fifteen_day_orders = Raise ValueError) /\
    ((14 <= hi - lo + 1)%Z ->
     exists d, time_series_preparation fifteen_day_orders = Ok (sales, d)).
Proof.
  apply (preparation_needs_two_cycles fifteen_day_orders).
  discriminate.
Defined.

(** C8, as stated, fails: orders spanning ten days, more than one cycle of
    7, give a ten-day series on which the decomposition raises; and a
    single day of orders does not make the series construction fail. *)
Lemma preparation_seven_days_counterexample :
  (exists sales, daily_sales ten_day_orders = Ok sales /\
                 (7 <= length sales)%nat) /\
  time_series_preparation ten_day_orders = Raise ValueError /\
  daily_sales [sample_order 1 1 5] = Ok [(1%Z, 5%Q)].
Proof.
  split; [|split].
  - eexists. split; [vm_compute; reflexivity | cbn [length]; lia].
  - vm_compute. reflexivity.
  - vm_compute. reflexivity.
Qed.

(** ** The metrics table *)

Lemma bind_ok (A B : Type) (r : result A) (k : A -> result B) (b : B) :
  bind r k = Ok b -> exists a, r = Ok a /\ k a = Ok b.
Proof.
  destruct r as [a|e]; simpl; [|discriminate].
  intros H. exists a. split; [reflexivity | exact H].
Qed.

(** C10: whenever the notebook runs to its end, the metrics table has
    exactly two rows, Holt-Winters then SARIMA, each holding the MAE, RMSE
    and MAPE of that model's forecast over the test days against the test
    split; the moving average is computed on the training days only and
    has no row. *)
Theorem metrics_table_rows
    (hw sarima : estimator) (df : list transaction) (out : outputs) :
  notebook hw sarima df = Ok out ->
  exists sales hw_point sarima_point hw_predictions sarima_predictions
         hw_metrics sarima_metrics,
    daily_sales df = Ok sales /\
    fit hw (values (train_data sales)) = Ok hw_point /\
    fit sarima (values (train_data sales)) = Ok sarima_point /\
    forecast (train_data sales) hw_point (length (test_data sales))
      = Ok hw_predictions /\
    forecast (train_data sales) sarima_point (length (test_data sales))
      = Ok sarima_predictions /\
    calculate_metrics (values (test_data sales)) (values hw_predictions)
      = Ok hw_metrics /\
    calculate_metrics (values (test_data sales)) (values sarima_predictions)
      = Ok sarima_metrics /\
    metrics_df out = [(ModelNames.holt_winters, hw_metrics);
                      (ModelNames.sarima, sarima_metrics)] /\
    length (metrics_df out) = 2%nat /\
    ma_predictions out = calculate_moving_average (train_data sales) 7 /\
    map fst (ma_predictions out) = index (train_data sales).
Proof.
  unfold notebook. intros H.
  apply bind_ok in H. destruct H as (sales & Hsales & H).
  apply bind_ok in H. destruct H as (dec & _ & H).
  apply bind_ok in H. destruct H as (hw_point & Hhw & H).
  apply bind_ok in H. destruct H as (hw_pred & Hhp & H).
  apply bind_ok in H. destruct H as (sarima_point & Hsa & H).
  apply bind_ok in H. destruct H as (sarima_pred & Hsp & H).
  apply bind_ok in H. destruct H as (m1 & Hm1 & H).
  apply bind_ok in H. destruct H as (m2 & Hm2 & H).
  apply bind_ok in H. destruct H as (final & _ & H).
  apply bind_ok in H. destruct H as (future & _ & H).
  injection H as <-.
  exists sales, hw_point, sarima_point, hw_pred, sarima_pred, m1, m2.
  cbn [metrics_df ma_predictions].
  repeat split; try assumption. apply moving_average_index.
Qed.

Lemma metrics_table_rows_witness :
  exists out,
    notebook naive_estimator mean_estimator fifteen_day_orders = Ok out /\
    exists sales hw_point sarima_point hw_predictions sarima_predictions
           hw_metrics sarima_metrics,
      daily_sales fifteen_day_orders = Ok sales /\
      fit naive_estimator (values (train_data sales)) = Ok hw_point /\
      fit mean_estimator (values (train_data sales)) = Ok sarima_point /\
      forecast (train_data sales) hw_point (length (test_data sales))
        = Ok hw_predictions /\
      forecast (train_data sales) sarima_point (length (test_data sales))
        = Ok sarima_predictions /\
      calculate_metrics (values (test_data sales)) (values hw_predictions)
        = Ok hw_metrics /\
      calculate_metrics (values (test_data sales)) (values sarima_predictions)
        = Ok sarima_metrics /\
      metrics_df out = [(ModelNames.holt_winters, hw_metrics);
                        (ModelNames.sarima, sarima_metrics)] /\
      length (metrics_df out) = 2%nat /\
      ma_predictions out = calculate_moving_average (train_data sales) 7 /\
      map fst (ma_predictions out) = index (train_data sales).
Proof.
  eexists. split.
  - vm_compute. reflexivity.
  - apply (metrics_table_rows naive_estimator mean_estimator fifteen_day_orders).
    vm_compute. reflexivity.
Defined.

(** ** Sorting *)

Section Sorting.

Open Scope Q_scope.

Lemma insert_sorted_perm x l : Permutation (insert_sorted x l) (x :: l).
Proof.
  induction l as [|y l IH]; simpl; [reflexivity|].
  destruct (Qle_bool x y); [reflexivity|].
  rewrite IH. apply perm_swap.
Qed.

Lemma sort_perm l : Permutation (sort l) l.
Proof.
  induction l as [|x l IH]; simpl; [reflexivity|].
  rewrite insert_sorted_perm. constructor. exact IH.
Qed.

Lemma sort_length l : length (sort l) = length l.
Proof. apply Permutation_length, sort_perm. Qed.

Lemma insert_sorted_sorted x l :
  StronglySorted Qle l -> StronglySorted Qle (insert_sorted x l).
Proof.
  induction 1 as [|y l Hl IH Hy]; simpl.
  - constructor; constructor.
  - destruct (Qle_bool x y) eqn:E.
    + apply Qle_bool_iff in E. constructor.
      * constructor; assumption.
      * constructor; [exact E|].
        rewrite Forall_forall in *. intros z Hz. specialize (Hy z Hz). lra.
    + assert (Hyx : y <= x).
      { destruct (Qlt_le_dec y x) as [H|H]; [lra|].
        apply Qle_bool_iff in H. congruence. }
      constructor; [exact IH|].
      apply (Permutation_Forall (Permutation_sym (insert_sorted_perm x l))).
      constructor; assumption.
Qed.

Lemma sort_sorted l : StronglySorted Qle (sort l).
Proof.
  induction l as [|x l IH]; simpl; [constructor|].
  apply insert_sorted_sorted, IH.
Qed.

Lemma sorted_nth (R : Q -> Q -> Prop) s :
  StronglySorted R s ->
  forall i j, (i < j)%nat -> (j < length s)%nat -> R (nth i s 0) (nth j s 0).
Proof.
  induction 1 as [|x s Hs IH Hx]; intros i j Hij Hj; simpl in Hj; [lia|].
  destruct j as [|j]; [lia|]. destruct i as [|i]; simpl.
  - rewrite Forall_forall in Hx. apply Hx, nth_In. lia.
  - apply IH; lia.
Qed.

Lemma sorted_nth_le s :
  StronglySorted Qle s ->
  forall i j, (i <= j)%nat -> (j < length s)%nat -> nth i s 0 <= nth j s 0.
Proof.
  intros Hs i j Hij Hj. destruct (Nat.eq_dec i j) as [->|Hne].
  - apply Qle_refl.
  - apply (sorted_nth Qle s Hs); lia.
Qed.

(** Sorted values that are pairwise different are strictly increasing. *)
Lemma sorted_distinct_strict s :
  StronglySorted Qle s -> NoDupA Qeq s -> StronglySorted Qlt s.
Proof.
  induction 1 as [|x s Hs IH Hx]; intros Hnd; [constructor|].
  inversion Hnd as [|? ? Hnotin Hnd']; subst.
  constructor; [apply IH, Hnd'|].
  rewrite Forall_forall in *. intros y Hy. specialize (Hx y Hy).
  destruct (Qlt_le_dec x y) as [H|H]; [exact H|].
  exfalso. apply Hnotin. apply InA_alt. exists y. split; [lra | exact Hy].
Qed.

Lemma sort_distinct_strict l :
  NoDupA Qeq l -> StronglySorted Qlt (sort l).
Proof.
  intros Hnd. apply sorted_distinct_strict; [apply sort_sorted|].
  apply (PermutationA_preserves_NoDupA Q_Setoid) with l; [|exact Hnd].
  apply Permutation_PermutationA; [exact Q_Setoid|].
  apply Permutation_sym, sort_perm.
Qed.

Lemma in_sort_nth l v :
  In v l -> exists i, (i < length (sort l))%nat /\ nth i (sort l) 0 = v.
Proof.
  intros H. apply (Permutation_in _ (Permutation_sym (sort_perm l))) in H.
  apply (In_nth _ _ 0) in H. exact H.
Qed.

End Sorting.

(** ** Quantiles of sorted values *)

Section Quantiles.

Open Scope Q_scope.

Lemma Qofnat_le (a b : nat) : (a <= b)%nat -> Qofnat a <= Qofnat b.
Proof. intros H. unfold Qofnat. rewrite <- Zle_Qle. lia. Qed.

Lemma Qofnat_nonneg (a : nat) : 0 <= Qofnat a.
Proof. unfold Qofnat, Qle. simpl. lia. Qed.

(** The position a quantile interpolates at: a whole index [lo] and a
    fraction [gamma]. *)
Lemma quantile_shape (s : list Q) (p : Q) :
  0 <= p -> p <= 1 ->
  exists lo gamma,
    lo = Z.to_nat (Qfloor (p * Qofnat (length s - 1))) /\
    (lo <= length s - 1)%nat /\
    0 <= gamma /\ gamma < 1 /\
    Qofnat lo + gamma == p * Qofnat (length s - 1) /\
    quantile s p =
      nth lo s 0 + (nth (Nat.min (S lo) (length s - 1)) s 0 - nth lo s 0) * gamma.
Proof.
  intros Hp0 Hp1.
  set (m := (length s - 1)%nat).
  set (P := p * Qofnat m).
  pose proof (Qofnat_nonneg m) as Hm.
  assert (HP0 : 0 <= P) by (unfold P; apply Qmult_le_0_compat; assumption).
  assert (HP1 : P <= Qofnat m).
  { unfold P. setoid_replace (Qofnat m) with (1 * Qofnat m) at 2 by ring.
    apply Qmult_le_compat_r; assumption. }
  assert (Hf0 : (0 <= Qfloor P)%Z).
  { change 0%Z with (Qfloor 0). apply Qfloor_resp_le, HP0. }
  assert (Hf1 : (Qfloor P <= Z.of_nat m)%Z).
  { rewrite <- (Qfloor_Z (Z.of_nat m)). apply Qfloor_resp_le, HP1. }
  exists (Z.to_nat (Qfloor P)), (P - inject_Z (Qfloor P)).
  pose proof (Qfloor_le P) as Hlow. pose proof (Qlt_floor P) as Hup.
  rewrite inject_Z_plus in Hup.
  assert (Hone : inject_Z 1 == 1) by reflexivity.
  repeat split.
  - lia.
  - lra.
  - lra.
  - unfold Qofnat. rewrite Z2Nat.id by exact Hf0. ring.
Qed.

Lemma Qofnat_lt_succ (a b : nat) (g g' : Q) :
  0 <= g -> g' < 1 -> Qofnat a + g <= Qofnat b + g' -> (a <= b)%nat.
Proof.
  intros Hg Hg' H.
  assert (Hlt : Qofnat a < Qofnat (S b)) by (rewrite Qofnat_S; lra).
  unfold Qofnat in Hlt. rewrite <- Zlt_Qlt in Hlt. lia.
Qed.

Variable s : list Q.
Hypothesis s_sorted : StronglySorted Qle s.

Lemma quantile_lower p :
  0 <= p -> p <= 1 -> (1 <= length s)%nat ->
  nth (Z.to_nat (Qfloor (p * Qofnat (length s - 1)))) s 0 <= quantile s p.
Proof.
  intros Hp0 Hp1 Hn.
  destruct (quantile_shape s p Hp0 Hp1) as (lo & g & Elo & Hlo & Hg0 & Hg1 & _ & E).
  rewrite <- Elo, E.
  assert (Hd : nth lo s 0 <= nth (Nat.min (S lo) (length s - 1)) s 0).
  { apply sorted_nth_le; [exact s_sorted | lia | lia]. }
  assert (Hprod : 0 <= (nth (Nat.min (S lo) (length s - 1)) s 0 - nth lo s 0) * g).
  { apply Qmult_le_0_compat; lra. }
  lra.
Qed.

Lemma quantile_zero p :
  p == 0 -> quantile s p == nth 0 s 0.
Proof.
  intros Hp. unfold quantile.
  set (P := p * Qofnat (length s - 1)).
  assert (HP : P == 0) by (unfold P; rewrite Hp; ring).
  rewrite (Qfloor_comp _ _ HP). change (Qfloor 0) with 0%Z.
  change (Z.to_nat 0) with 0%nat. rewrite HP.
  change (inject_Z 0) with 0. ring.
Qed.

Lemma quantile_one p :
  p == 1 -> quantile s p == nth (length s - 1) s 0.
Proof.
  intros Hp. unfold quantile.
  set (P := p * Qofnat (length s - 1)).
  assert (HP : P == inject_Z (Z.of_nat (length s - 1))).
  { unfold P, Qofnat. rewrite Hp. ring. }
  rewrite (Qfloor_comp _ _ HP), Qfloor_Z, Nat2Z.id.
  rewrite Nat.min_r by lia. ring.
Qed.

Hypothesis s_strict : StronglySorted Qlt s.

Lemma quantile_upper p :
  0 <= p -> p <= 1 ->
  (Z.to_nat (Qfloor (p * Qofnat (length s - 1))) < length s - 1)%nat ->
  quantile s p < nth (S (Z.to_nat (Qfloor (p * Qofnat (length s - 1))))) s 0.
Proof.
  intros Hp0 Hp1.
  destruct (quantile_shape s p Hp0 Hp1) as (lo & g & Elo & Hlo & Hg0 & Hg1 & _ & E).
  rewrite <- Elo, E. intros Hlt.
  rewrite Nat.min_l by lia.
  assert (Hd : nth lo s 0 < nth (S lo) s 0).
  { apply (sorted_nth Qlt s s_strict); lia. }
  assert (Hprod : (nth (S lo) s 0 - nth lo s 0) * g
                  < (nth (S lo) s 0 - nth lo s 0) * 1).
  { destruct (Qeq_dec g 0) as [Hz|Hnz].
    - rewrite Hz. lra.
    - apply Qmult_lt_l; lra. }
  lra.
Qed.

(** Distinct sorted values give strictly increasing quantiles. *)
Lemma quantile_strict_mono p p' :
  0 <= p -> p < p' -> p' <= 1 -> (2 <= length s)%nat ->
  quantile s p < quantile s p'.
Proof.
  intros Hp0 Hpp Hp1 Hn.
  assert (Hp1' : p <= 1) by lra. assert (Hp0' : 0 <= p') by lra.
  pose proof (quantile_upper p Hp0 Hp1') as Hup.
  pose proof (quantile_lower p' Hp0' Hp1 ltac:(lia)) as Hlow'.
  destruct (quantile_shape s p Hp0 Hp1')
    as (lo & g & Elo & Hlo & Hg0 & Hg1 & Hpos & E).
  destruct (quantile_shape s p' Hp0' Hp1)
    as (lo' & g' & Elo' & Hlo' & Hg0' & Hg1' & Hpos' & E').
  rewrite <- Elo in Hup. rewrite <- Elo' in Hlow'.
  assert (HM : 0 < Qofnat (length s - 1)) by (apply Qofnat_pos; lia).
  assert (Hlt : p * Qofnat (length s - 1) < p' * Qofnat (length s - 1)).
  { apply Qmult_lt_r; assumption. }
  assert (Hle : (lo <= lo')%nat).
  { apply (Qofnat_lt_succ lo lo' g g'); lra. }
  destruct (Nat.eq_dec lo lo') as [Heq|Hne].
  - clear Elo'. rewrite <- Heq in *. clear Heq.
    assert (Hgg : g < g') by lra.
    assert (Hlom : (lo < length s - 1)%nat).
    { assert (Hb : Qofnat lo < Qofnat (length s - 1)).
      { assert (Hb' : p' * Qofnat (length s - 1) <= 1 * Qofnat (length s - 1)).
        { apply Qmult_le_compat_r; lra. }
        lra. }
      unfold Qofnat in Hb. rewrite <- Zlt_Qlt in Hb. lia. }
    rewrite E, E'. rewrite Nat.min_l by lia.
    assert (Hd : nth lo s 0 < nth (S lo) s 0).
    { apply (sorted_nth Qlt s s_strict); lia. }
    assert (Hprod : (nth (S lo) s 0 - nth lo s 0) * g
                    < (nth (S lo) s 0 - nth lo s 0) * g').
    { apply Qmult_lt_l; lra. }
    lra.
  - assert (Hlom : (lo < length s - 1)%nat) by lia.
    specialize (Hup Hlom).
    assert (Hmid : nth (S lo) s 0 <= nth lo' s 0).
    { apply sorted_nth_le; [exact s_sorted | lia | lia]. }
    lra.
Qed.

End Quantiles.

(** ** Bin numbers *)

Section Bins.

Open Scope Q_scope.

Lemma Qlt_bool_iff (a b : Q) : Qlt_bool a b = true <-> a < b.
Proof.
  unfold Qlt_bool. rewrite negb_true_iff. split.
  - intros H. destruct (Qlt_le_dec a b) as [Hlt|Hle]; [exact Hlt|].
    apply Qle_bool_iff in Hle. congruence.
  - intros H. destruct (Qle_bool b a) eqn:E; [|reflexivity].
    apply Qle_bool_iff in E. lra.
Qed.

Lemma Qlt_bool_false (a b : Q) : Qlt_bool a b = false <-> b <= a.
Proof.
  unfold Qlt_bool. rewrite negb_false_iff. apply Qle_bool_iff.
Qed.

Lemma searchsorted_left_mono bins v v' :
  v <= v' -> (searchsorted_left bins v <= searchsorted_left bins v')%nat.
Proof.
  intros Hv. induction bins as [|b bins IH]; simpl; [lia|].
  destruct (Qlt_bool b v) eqn:E.
  - apply Qlt_bool_iff in E.
    assert (E' : Qlt_bool b v' = true) by (apply Qlt_bool_iff; lra).
    rewrite E'. lia.
  - lia.
Qed.

Lemma searchsorted_left_upper bins v k b :
  nth_error bins k = Some b -> v <= b ->
  (searchsorted_left bins v <= k)%nat.
Proof.
  revert k. induction bins as [|b' bins IH]; intros k Hk Hv; simpl; [lia|].
  destruct k as [|k]; simpl in Hk.
  - injection Hk as ->.
    assert (E : Qlt_bool b v = false) by (apply Qlt_bool_false; exact Hv).
    rewrite E. lia.
  - destruct (Qlt_bool b' v); [|lia].
    specialize (IH k Hk Hv). lia.
Qed.

Lemma searchsorted_left_length bins v :
  (searchsorted_left bins v <= length bins)%nat.
Proof.
  induction bins as [|b bins IH]; simpl; [lia|].
  destruct (Qlt_bool b v); lia.
Qed.

Lemma bin_id_range b0 rest v k b :
  b0 <= v -> nth_error (b0 :: rest) k = Some b -> v <= b ->
  (1 <= k)%nat ->
  (1 <= bin_id (b0 :: rest) v <= k)%nat.
Proof.
  intros Hlow Hk Hup Hk1. unfold bin_id.
  destruct (Qeq_bool v b0) eqn:E; [lia|].
  apply Qeq_bool_false in E.
  pose proof (searchsorted_left_upper (b0 :: rest) v k b Hk Hup) as H.
  split; [|exact H]. simpl.
  assert (E' : Qlt_bool b0 v = true) by (apply Qlt_bool_iff; lra).
  rewrite E'. lia.
Qed.

Lemma bin_id_mono b0 rest v v' :
  b0 <= v -> v <= v' ->
  (bin_id (b0 :: rest) v <= bin_id (b0 :: rest) v')%nat.
Proof.
  intros Hlow Hv. unfold bin_id.
  destruct (Qeq_bool v b0) eqn:E.
  - destruct (Qeq_bool v' b0) eqn:E'; [lia|].
    apply Qeq_bool_false in E'. simpl.
    assert (E2 : Qlt_bool b0 v' = true) by (apply Qlt_bool_iff; lra).
    rewrite E2. lia.
  - apply Qeq_bool_false in E.
    assert (E' : Qeq_bool v' b0 = false) by (apply Qeq_bool_false; lra).
    rewrite E'. apply searchsorted_left_mono, Hv.
Qed.

Lemma linspace_5 :
  linspace 5 = [0 # 5; 1 # 5; 2 # 5; 3 # 5; 4 # 5; 5 # 5].
Proof. reflexivity. Qed.



End Bins.

(** ** RFM values and scores *)

Section Rfm.

Open Scope Z_scope.

Lemma lookup_in_ascending (A : Type) k (rows : list A) g :
  ascending g -> In (k, rows) g -> lookup k g = Some rows.
Proof.
  induction 1 as [|k' rows' g Hb Hg IH]; intros Hin; [contradiction|].
  simpl. destruct Hin as [[= -> ->]|Hin].
  - rewrite Z.eqb_refl. reflexivity.
  - destruct (Z.eqb_spec k k') as [->|Hne]; [|apply IH, Hin].
    exfalso. unfold keys_below in Hb. rewrite Forall_forall in Hb.
    specialize (Hb _ Hin). simpl in Hb. lia.
Qed.

(** Each customer's recency counts the days from that customer's latest
    order to the latest order of the whole data set. *)
Lemma rfm_recency df row :
  In row (rfm df) ->
  exists current_date last_order,
    max_date df = Some current_date /\
    dates_max (map order_date
                 (filter (fun t => customer_id t =? rfm_customer row) df))
      = Some last_order /\
    recency row = current_date - last_order.
Proof.
  unfold rfm, max_date. destruct (dates_max (map order_date df)) as [cur|];
    [|contradiction].
  intros Hin. apply in_map_iff in Hin. destruct Hin as ([k grp] & <- & Hg).
  cbn [fst snd rfm_customer recency].
  pose proof (lookup_in_ascending _ k grp _ (groupby_ascending _ customer_id df) Hg)
    as Hl.
  rewrite lookup_groupby in Hl.
  destruct (filter (fun t => customer_id t =? k) df) as [|t l] eqn:E;
    [discriminate|].
  injection Hl as <-.
  exists cur, (fold_left Z.max (map order_date l) (order_date t)).
  repeat split.
Qed.

Lemma zip_scores_map table (sr sf sm : rfm_row -> option Z) :
  zip_scores table (map sr table) (map sf table) (map sm table) =
  map (fun row => {| scored := row; recency_score := sr row;
                     frequency_score := sf row; monetary_score := sm row |})
      table.
Proof.
  induction table as [|row table IH]; simpl; [reflexivity|].
  rewrite IH. reflexivity.
Qed.


End Rfm.

(** ** Scoring with the edges pandas computed *)

Section ComputedEdges.

Open Scope Q_scope.

Lemma admissible_inv (x bins : list Q) :
  admissible_edges x bins = true ->
  exists b0 b1 b2 b3 b4 b5,
    bins = [b0; b1; b2; b3; b4; b5] /\
    b0 == nth 0 (sort x) 0 /\
    b5 == nth (length x - 1) (sort x) 0 /\
    b0 <= b1 /\ b1 <= b2 /\ b2 <= b3 /\ b3 <= b4 /\ b4 <= b5.
Proof.
  unfold admissible_edges. intros H.
  destruct bins as [|b0 [|b1 [|b2 [|b3 [|b4 [|b5 [|b6 bins]]]]]]];
    try discriminate.
  repeat (apply andb_true_iff in H; destruct H as [H ?]).
  exists b0, b1, b2, b3, b4, b5. split; [reflexivity|].
  repeat split;
    try (apply Qeq_bool_iff; assumption);
    try (apply Qle_bool_iff; assumption).
Qed.

(** The lowest edge is the least value and the highest edge the greatest. *)
Lemma admissible_enclose (x bins : list Q) (v : Q) :
  admissible_edges x bins = true -> In v x ->
  exists b0 rest b5,
    bins = b0 :: rest /\
    nth_error (b0 :: rest) 5 = Some b5 /\
    b0 <= v /\ v <= b5.
Proof.
  intros Hadm Hv.
  destruct (admissible_inv x bins Hadm)
    as (b0 & b1 & b2 & b3 & b4 & b5 & -> & E0 & E5 & _).
  exists b0, [b1; b2; b3; b4; b5], b5.
  split; [reflexivity|]. split; [reflexivity|].
  destruct (in_sort_nth x v Hv) as (i & Hi & <-).
  pose proof (sort_sorted x) as Hs.
  rewrite E0, E5, <- (sort_length x).
  split; apply sorted_nth_le; try exact Hs; lia.
Qed.

(** What a successful five-bin step returned. *)
Lemma bins_to_cuts_ok_inv (x bins : list Q) (labels : list Z)
    (scores : list (option Z)) :
  length bins = 6%nat ->
  bins_to_cuts x bins labels = Ok scores ->
  has_duplicates bins = false /\
  length labels = 5%nat /\
  scores = map (fun v =>
                  let id := bin_id bins v in
                  if ((id =? 0) || (id =? 6))%nat then None
                  else nth_error labels (id - 1)) x.
Proof.
  unfold bins_to_cuts. intros Hlen H.
  rewrite Hlen in H. cbn [Nat.eqb negb Nat.sub] in H.
  rewrite andb_true_r in H.
  destruct (has_duplicates bins); [discriminate|].
  destruct (Nat.eqb_spec (length labels) 5); [|discriminate].
  cbn [negb] in H. injection H as <-. repeat split; assumption.
Qed.

Lemma admissible_length (x bins : list Q) :
  admissible_edges x bins = true -> length bins = 6%nat.
Proof.
  intros H. destruct (admissible_inv x bins H)
    as (b0 & b1 & b2 & b3 & b4 & b5 & -> & _). reflexivity.
Qed.

(** With admissible edges, a successful step gives every value a score
    between 1 and 5 that follows the order of the values: with the order
    of the labels when they ascend, against it when they descend. *)
Lemma cuts_scores_monotone (x bins : list Q) (labels : list Z)
    (scores : list (option Z)) :
  admissible_edges x bins = true ->
  labels = labels_ascending \/ labels = labels_descending ->
  bins_to_cuts x bins labels = Ok scores ->
  exists f : Q -> Z,
    scores = map (fun v => Some (f v)) x /\
    (forall v, In v x -> (1 <= f v <= 5)%Z) /\
    (forall v v', In v x -> In v' x -> v <= v' ->
       (labels = labels_ascending -> (f v <= f v')%Z) /\
       (labels = labels_descending -> (f v' <= f v)%Z)).
Proof.
  intros Hadm Hlab Hrun.
  destruct (bins_to_cuts_ok_inv x bins labels scores
              (admissible_length x bins Hadm) Hrun) as (_ & _ & Hscores).
  exists (fun v => match nth_error labels (bin_id bins v - 1) with
                   | Some z => z
                   | None => 0%Z
                   end).
  assert (Hid : forall v, In v x -> (1 <= bin_id bins v <= 5)%nat).
  { intros v Hv.
    destruct (admissible_enclose x bins v Hadm Hv)
      as (b0 & rest & b5 & -> & H5 & Hlo & Hhi).
    apply (bin_id_range b0 rest v 5 b5); auto. }
  assert (Hmono : forall v v', In v x -> v <= v' ->
                               (bin_id bins v <= bin_id bins v')%nat).
  { intros v v' Hv Hle.
    destruct (admissible_enclose x bins v Hadm Hv)
      as (b0 & rest & b5 & -> & _ & Hlo & _).
    apply bin_id_mono; assumption. }
  split; [|split].
  - rewrite Hscores. apply map_ext_in. intros v Hv. cbv zeta.
    specialize (Hid v Hv).
    destruct (Nat.eqb_spec (bin_id bins v) 0); [lia|].
    destruct (Nat.eqb_spec (bin_id bins v) 6); [lia|]. cbn [orb].
    destruct (nth_error labels (bin_id bins v - 1)) eqn:E; [reflexivity|].
    exfalso. apply nth_error_None in E.
    destruct Hlab as [-> | ->];
      unfold labels_ascending, labels_descending in E; cbn [length] in E; lia.
  - intros v Hv. specialize (Hid v Hv).
    assert (Hcases : (bin_id bins v - 1 = 0 \/ bin_id bins v - 1 = 1 \/
                      bin_id bins v - 1 = 2 \/ bin_id bins v - 1 = 3 \/
                      bin_id bins v - 1 = 4)%nat) by lia.
    destruct Hlab as [-> | ->];
      destruct Hcases as [E|[E|[E|[E|E]]]]; rewrite E;
      cbn [nth_error labels_ascending labels_descending]; lia.
  - intros v v' Hv Hv' Hle.
    pose proof (Hid v Hv) as Hi. pose proof (Hid v' Hv') as Hi'.
    pose proof (Hmono v v' Hv Hle) as Hm.
    assert (Hcases : (bin_id bins v - 1 = 0 \/ bin_id bins v - 1 = 1 \/
                      bin_id bins v - 1 = 2 \/ bin_id bins v - 1 = 3 \/
                      bin_id bins v - 1 = 4)%nat) by lia.
    assert (Hcases' : (bin_id bins v' - 1 = 0 \/ bin_id bins v' - 1 = 1 \/
                       bin_id bins v' - 1 = 2 \/ bin_id bins v' - 1 = 3 \/
                       bin_id bins v' - 1 = 4)%nat) by lia.
    split; intros ->;
      destruct Hcases as [E|[E|[E|[E|E]]]];
      destruct Hcases' as [E'|[E'|[E'|[E'|E']]]];
      rewrite E, E'; cbn [nth_error labels_ascending labels_descending]; lia.
Qed.


End ComputedEdges.



(** The six tied recencies of the sample are scored with the edges pandas
    computes, while the edges without rounding error repeat the value 2 and
    are refused. *)
Lemma tied_recencies_scored :
  bins_to_cuts [0; 1; 2; 2; 3; 4]%Q tied_recency_edges [5; 4; 3; 2; 1]%Z
    = Ok [Some 5; Some 5; Some 4; Some 4; Some 2; Some 1]%Z /\
  qcut [0; 1; 2; 2; 3; 4]%Q 5 [5; 4; 3; 2; 1]%Z = Raise ValueError.
Proof. split; vm_compute; reflexivity. Qed.

(** ** Bin numbers of distinct values *)

Section DistinctValues.

Open Scope Q_scope.

Lemma edge_rank_floor (m k : nat) :
  Z.to_nat (Qfloor ((Z.of_nat k # 5) * Qofnat m)) = edge_rank m k.
Proof.
  unfold edge_rank, Qofnat, Qfloor, Qmult, inject_Z. cbn [Qnum Qden].
  change (Z.pos (5 * 1)) with 5%Z.
  rewrite <- Nat2Z.inj_mul.
  change 5%Z with (Z.of_nat 5). rewrite <- Nat2Z.inj_div. apply Nat2Z.id.
Qed.

Lemma fifth_bounds (k : nat) :
  (k <= 5)%nat -> 0 <= Z.of_nat k # 5 /\ Z.of_nat k # 5 <= 1.
Proof.
  intros Hk. unfold Qle. cbn [Qnum Qden]. lia.
Qed.

Lemma strict_to_le (l : list Q) :
  StronglySorted Qlt l -> StronglySorted Qle l.
Proof.
  induction 1 as [|x l Hl IH Hx]; constructor; [exact IH|].
  rewrite Forall_forall in *. intros y Hy. apply Qlt_le_weak, Hx, Hy.
Qed.

Variable s : list Q.
Variable m : nat.
Hypothesis s_length : length s = S m.
Hypothesis m_pos : (1 <= m)%nat.
Hypothesis s_strict : StronglySorted Qlt s.

Lemma strict_sorted_le : StronglySorted Qle s.
Proof. apply strict_to_le, s_strict. Qed.

(** A sorted value lies above the quantile [k/5] exactly when its rank
    lies above the rank of that quantile. *)
Lemma edge_below_rank (k i : nat) :
  (k <= 5)%nat -> (i <= m)%nat ->
  Qlt_bool (quantile s (Z.of_nat k # 5)) (nth i s 0) = (edge_rank m k <? i)%nat.
Proof.
  intros Hk Hi. destruct (fifth_bounds k Hk) as [Hp0 Hp1].
  pose proof strict_sorted_le as Hle.
  assert (Hm : (length s - 1 = m)%nat) by lia.
  pose proof (quantile_lower s Hle (Z.of_nat k # 5) Hp0 Hp1 ltac:(lia)) as Hlow.
  pose proof (quantile_upper s s_strict (Z.of_nat k # 5) Hp0 Hp1) as Hup.
  rewrite Hm, edge_rank_floor in Hlow, Hup.
  destruct (Nat.ltb_spec (edge_rank m k) i) as [Hlt|Hge].
  - apply Qlt_bool_iff.
    assert (Hmid : nth (S (edge_rank m k)) s 0 <= nth i s 0).
    { apply sorted_nth_le; [exact Hle | lia | lia]. }
    specialize (Hup ltac:(lia)). lra.
  - apply Qlt_bool_false.
    assert (Hmid : nth i s 0 <= nth (edge_rank m k) s 0).
    { apply sorted_nth_le; [exact Hle | lia |].
      unfold edge_rank. rewrite s_length.
      assert (k * m / 5 <= m)%nat by (apply Nat.Div0.div_le_upper_bound; nia).
      lia. }
    lra.
Qed.

Lemma lowest_edge_rank (i : nat) :
  (i <= m)%nat ->
  Qeq_bool (nth i s 0) (quantile s (0 # 5)) = (i =? 0)%nat.
Proof.
  intros Hi. pose proof (quantile_zero s (0 # 5) ltac:(reflexivity)) as Hz.
  destruct (Nat.eqb_spec i 0) as [->|Hne].
  - apply Qeq_bool_iff. symmetry. exact Hz.
  - apply Qeq_bool_false. intros E.
    assert (Hlt : nth 0 s 0 < nth i s 0)
      by (apply (sorted_nth Qlt s s_strict); lia).
    lra.
Qed.

Lemma ranks_below_edges (ks : list nat) (i : nat) :
  Forall (fun k => (k <= 5)%nat) ks -> (i <= m)%nat ->
  searchsorted_left (map (fun k => quantile s (Z.of_nat k # 5)) ks) (nth i s 0)
  = ranks_below (map (edge_rank m) ks) i.
Proof.
  intros Hks Hi. induction Hks as [|k ks Hk _ IH]; simpl; [reflexivity|].
  rewrite (edge_below_rank k i Hk Hi), IH. reflexivity.
Qed.

(** The bin number of the sorted value of rank [i]. *)
Lemma bin_id_rank (i : nat) :
  (i <= m)%nat ->
  bin_id (map (quantile s) (linspace 5)) (nth i s 0) = rank_bin m i.
Proof.
  intros Hi.
  change (map (quantile s) (linspace 5))
    with (map (fun k => quantile s (Z.of_nat k # 5)) (seq 0 6)).
  unfold rank_bin. rewrite <- (ranks_below_edges (seq 0 6) i).
  - unfold bin_id. cbn [map seq]. change (Z.of_nat 0) with 0%Z.
    rewrite (lowest_edge_rank i Hi). reflexivity.
  - repeat constructor.
  - exact Hi.
Qed.

(** The edges of distinct values are strictly increasing. *)
Lemma edges_strict :
  StronglySorted Qlt (map (quantile s) (linspace 5)).
Proof.
  pose proof strict_sorted_le as Hle.
  assert (Hstep : forall k, (k < 5)%nat ->
            quantile s (Z.of_nat k # 5) < quantile s (Z.of_nat (S k) # 5)).
  { intros k Hk.
    destruct (fifth_bounds k ltac:(lia)) as [Hp0 _].
    destruct (fifth_bounds (S k) ltac:(lia)) as [_ Hp1].
    apply (quantile_strict_mono s Hle s_strict); try assumption; [|lia].
    unfold Qlt. cbn [Qnum Qden]. lia. }
  pose proof (Hstep 0%nat ltac:(lia)) as H0.
  pose proof (Hstep 1%nat ltac:(lia)) as H1.
  pose proof (Hstep 2%nat ltac:(lia)) as H2.
  pose proof (Hstep 3%nat ltac:(lia)) as H3.
  pose proof (Hstep 4%nat ltac:(lia)) as H4.
  rewrite linspace_5. cbn [map]. cbn [Z.of_nat Pos.of_succ_nat Pos.succ] in *.
  repeat (constructor; [|repeat (constructor; try lra)]). constructor.
Qed.

End DistinctValues.

(** ** Bucket sizes *)

Section Buckets.

Lemma rank_bin_interval (m i : nat) :
  (1 <= m)%nat -> (i <= m)%nat ->
  (1 <= rank_bin m i <= 5)%nat /\
  (bucket_bound m (rank_bin m i - 1) <= i < bucket_bound m (rank_bin m i))%nat.
Proof.
  intros Hm Hi. unfold rank_bin, edge_rank. cbn [map seq ranks_below].
  destruct (Nat.eqb_spec i 0) as [->|Hne].
  - cbn. lia.
  - repeat match goal with
           | |- context [(?a <? ?b)%nat] => destruct (Nat.ltb_spec a b)
           end;
      unfold bucket_bound, edge_rank; cbn [Nat.sub]; lia.
Qed.

Lemma rank_bin_bucket (m i j : nat) :
  (1 <= m)%nat -> (i <= m)%nat -> (1 <= j <= 5)%nat ->
  (rank_bin m i =? j)%nat =
  ((bucket_bound m (j - 1) <=? i) && (i <? bucket_bound m j))%nat.
Proof.
  intros Hm Hi Hj.
  destruct (rank_bin_interval m i Hm Hi) as [Hr Hint].
  assert (Hr' : (rank_bin m i = 1 \/ rank_bin m i = 2 \/ rank_bin m i = 3 \/
                 rank_bin m i = 4 \/ rank_bin m i = 5)%nat) by lia.
  assert (Hj' : (j = 1 \/ j = 2 \/ j = 3 \/ j = 4 \/ j = 5)%nat) by lia.
  destruct Hr' as [E|[E|[E|[E|E]]]]; rewrite E in *;
    destruct Hj' as [-> |[-> |[-> |[-> | ->]]]];
    unfold bucket_bound, edge_rank in *; cbn [Nat.sub Nat.eqb] in *;
    match goal with
    | |- _ = ((?a <=? ?b) && (?c <? ?d))%nat =>
        destruct (Nat.leb_spec a b); destruct (Nat.ltb_spec c d)
    end; cbn [andb]; try reflexivity; lia.
Qed.

Lemma count_interval (a b n : nat) :
  (a <= b)%nat ->
  length (filter (fun i => (a <=? i) && (i <? b))%nat (seq 0 n))
  = (Nat.min b n - Nat.min a n)%nat.
Proof.
  intros Hab. induction n as [|n IH]; [simpl; lia|].
  rewrite seq_S, filter_app, length_app, IH. cbn [filter Nat.add].
  destruct (Nat.leb_spec a n); destruct (Nat.ltb_spec n b); cbn [andb length];
    lia.
Qed.

(** The number of ranks in bin [j]. *)
Lemma rank_bucket_size (m j : nat) :
  (1 <= m)%nat -> (1 <= j <= 5)%nat ->
  length (filter (fun i => rank_bin m i =? j)%nat (seq 0 (S m)))
  = (bucket_bound m j - bucket_bound m (j - 1))%nat.
Proof.
  intros Hm Hj.
  rewrite (filter_ext_in _
             (fun i => (bucket_bound m (j - 1) <=? i) && (i <? bucket_bound m j))%nat).
  - assert (Hmono : (bucket_bound m (j - 1) <= bucket_bound m j <= S m)%nat).
    { assert (Hj' : (j = 1 \/ j = 2 \/ j = 3 \/ j = 4 \/ j = 5)%nat) by lia.
      destruct Hj' as [-> |[-> |[-> |[-> | ->]]]];
        unfold bucket_bound, edge_rank; cbn [Nat.sub]; lia. }
    rewrite count_interval by lia. lia.
  - intros i Hin. apply in_seq in Hin. apply rank_bin_bucket; lia.
Qed.

(** Any two bins hold numbers of ranks that differ by at most one. *)
Lemma rank_buckets_balanced (m j k : nat) :
  (1 <= j <= 5)%nat -> (1 <= k <= 5)%nat ->
  (bucket_bound m j - bucket_bound m (j - 1)
   <= bucket_bound m k - bucket_bound m (k - 1) + 1)%nat.
Proof.
  intros Hj Hk.
  assert (Hj' : (j = 1 \/ j = 2 \/ j = 3 \/ j = 4 \/ j = 5)%nat) by lia.
  assert (Hk' : (k = 1 \/ k = 2 \/ k = 3 \/ k = 4 \/ k = 5)%nat) by lia.
  destruct Hj' as [-> |[-> |[-> |[-> | ->]]]];
    destruct Hk' as [-> |[-> |[-> |[-> | ->]]]];
    unfold bucket_bound, edge_rank; cbn [Nat.sub]; lia.
Qed.

Lemma filter_length_perm (A : Type) (f : A -> bool) (l l' : list A) :
  Permutation l l' -> length (filter f l) = length (filter f l').
Proof.
  induction 1 as [|x l l' _ IH|x y l|l l' l'' _ IH1 _ IH2]; simpl.
  - reflexivity.
  - destruct (f x); simpl; rewrite IH; reflexivity.
  - destruct (f x), (f y); reflexivity.
  - rewrite IH1. exact IH2.
Qed.

Lemma filter_length_map (A B : Type) (f : B -> bool) (g : A -> B) (l : list A) :
  length (filter f (map g l)) = length (filter (fun a => f (g a)) l).
Proof.
  induction l as [|a l IH]; simpl; [reflexivity|].
  destruct (f (g a)); simpl; rewrite IH; reflexivity.
Qed.

Lemma map_nth_seq (s : list Q) :
  s = map (fun i => nth i s 0%Q) (seq 0 (length s)).
Proof.
  induction s as [|x s IH]; [reflexivity|].
  cbn [length seq map nth]. f_equal.
  rewrite <- seq_shift, map_map. cbn [nth]. exact IH.
Qed.

(** How a label list turns a bin number into a score, and back. *)
Lemma label_lookup (labels : list Z) :
  labels = labels_ascending \/ labels = labels_descending ->
  exists bin_of : Z -> nat,
    (forall z, (1 <= z <= 5)%Z -> (1 <= bin_of z <= 5)%nat) /\
    (forall id, (1 <= id <= 5)%nat ->
       exists score,
         nth_error labels (id - 1) = Some score /\
         (1 <= score <= 5)%Z /\
         forall z, (1 <= z <= 5)%Z ->
                   (score =? z)%Z = (id =? bin_of z)%nat).
Proof.
  intros [-> | ->].
  - exists Z.to_nat. split; [intros z Hz; lia|].
    intros id Hid.
    assert (Hid' : (id = 1 \/ id = 2 \/ id = 3 \/ id = 4 \/ id = 5)%nat) by lia.
    destruct Hid' as [-> |[-> |[-> |[-> | ->]]]];
      cbn [Nat.sub nth_error labels_ascending];
      eexists; (split; [reflexivity|]); (split; [lia|]);
      intros z Hz;
      match goal with
      | |- (?a =? ?b)%Z = (?c =? ?d)%nat =>
          destruct (Z.eqb_spec a b); destruct (Nat.eqb_spec c d)
      end; try reflexivity; lia.
  - exists (fun z => Z.to_nat (6 - z)). split; [intros z Hz; lia|].
    intros id Hid.
    assert (Hid' : (id = 1 \/ id = 2 \/ id = 3 \/ id = 4 \/ id = 5)%nat) by lia.
    destruct Hid' as [-> |[-> |[-> |[-> | ->]]]];
      cbn [Nat.sub nth_error labels_descending];
      eexists; (split; [reflexivity|]); (split; [lia|]);
      intros z Hz;
      match goal with
      | |- (?a =? ?b)%Z = (?c =? ?d)%nat =>
          destruct (Z.eqb_spec a b); destruct (Nat.eqb_spec c d)
      end; try reflexivity; lia.
Qed.

End Buckets.

(** ** Scoring distinct values *)

Section DistinctScores.

Lemma existsb_eq_above (x : Q) (l : list Q) :
  Forall (Qlt x) l -> existsb (Qeq_bool x) l = false.
Proof.
  induction 1 as [|y l Hy _ IH]; simpl; [reflexivity|].
  rewrite IH, orb_false_r. apply Qeq_bool_false. intros E.
  rewrite E in Hy. exact (Qlt_irrefl _ Hy).
Qed.

Lemma has_duplicates_strict (l : list Q) :
  StronglySorted Qlt l -> has_duplicates l = false.
Proof.
  induction 1 as [|x l Hl IH Hx]; simpl; [reflexivity|].
  rewrite IH, orb_false_r. apply existsb_eq_above, Hx.
Qed.

Lemma filter_length_ranks (f : Q -> bool) (s : list Q) :
  length (filter f s) =
  length (filter (fun i => f (nth i s 0%Q)) (seq 0 (length s))).
Proof.
  pose proof (filter_length_map _ _ f (fun i => nth i s 0%Q) (seq 0 (length s)))
    as H.
  rewrite <- map_nth_seq in H. exact H.
Qed.

(** Five-bin scoring of at least two pairwise different values succeeds,
    gives every value a score from 1 to 5, and fills the five buckets
    evenly up to one value. *)
Lemma qcut_distinct_buckets (x : list Q) (labels : list Z) :
  labels = labels_ascending \/ labels = labels_descending ->
  (2 <= length x)%nat ->
  NoDupA Qeq x ->
  exists scores,
    qcut x 5 labels = Ok scores /\
    length scores = length x /\
    Forall (fun sc => exists k, sc = Some k /\ (1 <= k <= 5)%Z) scores /\
    (forall z z', (1 <= z <= 5)%Z -> (1 <= z' <= 5)%Z ->
       (bucket_size z scores <= bucket_size z' scores + 1)%nat).
Proof.
  intros Hlab Hlen Hnd.
  pose proof (sort_distinct_strict x Hnd) as Hstrict.
  pose proof (sort_perm x) as Hperm.
  set (m := (length x - 1)%nat).
  assert (Hs : length (sort x) = S m) by (rewrite sort_length; lia).
  assert (Hm : (1 <= m)%nat) by lia.
  pose proof (edges_strict (sort x) m Hs Hm Hstrict) as Hedges.
  pose proof (bin_id_rank (sort x) m Hs Hm Hstrict) as Hid.
  destruct (label_lookup labels Hlab) as (bin_of & Hbin & Hlook).
  set (bins := map (quantile (sort x)) (linspace 5)) in *.
  set (g := fun v : Q =>
              if ((bin_id bins v =? 0) || (bin_id bins v =? 6))%nat then None
              else nth_error labels (bin_id bins v - 1)).
  assert (Hrun : qcut x 5 labels = Ok (map g x)).
  { unfold qcut, bins_to_cuts. fold bins.
    rewrite (has_duplicates_strict bins Hedges). cbn [andb].
    assert (Hl : length labels = 5%nat) by (destruct Hlab as [-> | ->]; reflexivity).
    assert (Hb : length bins = 6%nat) by reflexivity.
    rewrite Hl, Hb. reflexivity. }
  assert (Hg : forall i, (i <= m)%nat ->
             exists score,
               g (nth i (sort x) 0%Q) = Some score /\ (1 <= score <= 5)%Z /\
               forall z, (1 <= z <= 5)%Z ->
                         (score =? z)%Z = (rank_bin m i =? bin_of z)%nat).
  { intros i Hi. unfold g. rewrite (Hid i Hi).
    destruct (rank_bin_interval m i Hm Hi) as [Hr _].
    destruct (Hlook (rank_bin m i) Hr) as (score & E & Hrange & Heq).
    exists score.
    destruct (Nat.eqb_spec (rank_bin m i) 0); [lia|].
    destruct (Nat.eqb_spec (rank_bin m i) 6); [lia|].
    cbn [orb]. repeat split; try assumption; lia. }
  assert (Hsize : forall z, (1 <= z <= 5)%Z ->
             bucket_size z (map g x) =
             (bucket_bound m (bin_of z) - bucket_bound m (bin_of z - 1))%nat).
  { intros z Hz. unfold bucket_size.
    rewrite (filter_length_perm _ _ (map g x) (map g (sort x)))
      by (apply Permutation_map, Permutation_sym, Hperm).
    rewrite filter_length_map, filter_length_ranks, Hs.
    rewrite <- (rank_bucket_size m (bin_of z) Hm (Hbin z Hz)).
    f_equal. apply filter_ext_in. intros i Hin. apply in_seq in Hin.
    destruct (Hg i ltac:(lia)) as (score & E & _ & Heq).
    rewrite E. apply Heq, Hz. }
  exists (map g x). split; [exact Hrun|]. split; [apply length_map|]. split.
  - apply Forall_forall. intros sc Hsc. apply in_map_iff in Hsc.
    destruct Hsc as (v & <- & Hv).
    destruct (in_sort_nth x v Hv) as (i & Hi & <-).
    destruct (Hg i ltac:(lia)) as (score & E & Hrange & _).
    exists score. split; assumption.
  - intros z z' Hz Hz'. rewrite (Hsize z Hz), (Hsize z' Hz').
    apply rank_buckets_balanced; apply Hbin; assumption.
Qed.

End DistinctScores.

(** ** Scoring the RFM table *)

Section RfmScores.

Lemma has_duplicates_false (l : list Q) :
  has_duplicates l = false -> NoDupA Qeq l.
Proof.
  induction l as [|x l IH]; simpl; intros H; [constructor|].
  apply orb_false_iff in H. destruct H as [Hx Hl].
  constructor; [|apply IH, Hl].
  intros Hin. apply InA_alt in Hin. destruct Hin as (y & E & Hy).
  assert (Ht : existsb (Qeq_bool x) l = true).
  { apply existsb_exists. exists y. split; [exact Hy|].
    apply Qeq_bool_iff, E. }
  congruence.
Qed.

Lemma zip_scores_columns table r f m :
  length r = length table -> length f = length table ->
  length m = length table ->
  map scored (zip_scores table r f m) = table /\
  map recency_score (zip_scores table r f m) = r /\
  map frequency_score (zip_scores table r f m) = f /\
  map monetary_score (zip_scores table r f m) = m.
Proof.
  revert r f m. induction table as [|row table IH];
    intros [|sr r] [|sf f] [|sm m] Hr Hf Hm; simpl in *; try discriminate;
    [repeat split|].
  destruct (IH r f m) as (H1 & H2 & H3 & H4); try lia.
  rewrite H1, H2, H3, H4. repeat split.
Qed.

End RfmScores.

(** C6 (as the code behaves): when there are at least two customers and no
    two customers share a recency, a frequency or a monetary value, the
    scoring step succeeds, gives every customer a score from 1 to 5 for
    each metric, and for each metric the sizes of the five buckets differ
    by at most 1. *)
Theorem rfm_scores_distinct_buckets (df : list transaction) :
  (2 <= length (rfm df))%nat ->
  has_duplicates (map (fun row => inject_Z (recency row)) (rfm df)) = false ->
  has_duplicates (map (fun row => inject_Z (frequency row)) (rfm df)) = false ->
  has_duplicates (map monetary (rfm df)) = false ->
  exists rows,
    rfm_scores df = Ok rows /\
    map scored rows = rfm df /\
    five_even_buckets (map recency_score rows) /\
    five_even_buckets (map frequency_score rows) /\
    five_even_buckets (map monetary_score rows).
Proof.
  intros Hlen Hr Hf Hm. unfold rfm_scores.
  destruct (qcut_distinct_buckets
              (map (fun row => inject_Z (recency row)) (rfm df))
              labels_descending (or_intror eq_refl))
    as (r & Er & Lr & Rr & Br);
    [rewrite length_map; exact Hlen | apply has_duplicates_false, Hr |].
  destruct (qcut_distinct_buckets
              (map (fun row => inject_Z (frequency row)) (rfm df))
              labels_ascending (or_introl eq_refl))
    as (f & Ef & Lf & Rf & Bf);
    [rewrite length_map; exact Hlen | apply has_duplicates_false, Hf |].
  destruct (qcut_distinct_buckets (map monetary (rfm df))
              labels_ascending (or_introl eq_refl))
    as (m & Em & Lm & Rm & Bm);
    [rewrite length_map; exact Hlen | apply has_duplicates_false, Hm |].
  change [5; 4; 3; 2; 1]%Z with labels_descending.
  change [1; 2; 3; 4; 5]%Z with labels_ascending.
  rewrite Er, Ef, Em. cbn [bind].
  rewrite length_map in Lr, Lf, Lm.
  destruct (zip_scores_columns (rfm df) r f m Lr Lf Lm)
    as (H1 & H2 & H3 & H4).
  eexists. split; [reflexivity|]. rewrite H1, H2, H3, H4.
  unfold five_even_buckets. repeat split; assumption.
Qed.

Lemma rfm_scores_distinct_buckets_witness :
  exists rows,
    rfm_scores two_customers = Ok rows /\
    map scored rows = rfm two_customers /\
    five_even_buckets (map recency_score rows) /\
    five_even_buckets (map frequency_score rows) /\
    five_even_buckets (map monetary_score rows).
Proof.
  apply (rfm_scores_distinct_buckets two_customers).
  - apply le_n.
  - reflexivity.
  - reflexivity.
  - reflexivity.
Defined.

(** C6, as stated, fails on tied values: six customers with the same
    values make the scoring step raise, and eleven values with a tie in
    the first bin are scored into buckets of sizes 4 and 1. *)
Lemma quantile_buckets_counterexample :
  rfm_scores six_alike_customers = Raise ValueError /\
  exists scores,
    qcut tied_values 5 labels_ascending = Ok scores /\
    bucket_size 1 scores = 4%nat /\
    bucket_size 2 scores = 1%nat.
Proof.
  split; [vm_compute; reflexivity|].
  eexists. split; [vm_compute; reflexivity|].
  split; reflexivity.
Qed.

(** * Further properties *)

Import ForecastReport SegmentReport.

(** ** Sums over groups *)

Section SumsByKey.

Open Scope Q_scope.

Lemma Qsum_map_plus (A : Type) (f g : A -> Q) (l : list A) :
  Qsum (map (fun k => f k + g k) l) == Qsum (map f l) + Qsum (map g l).
Proof.
  induction l as [|x l IH]; cbn [map].
  - rewrite !Qsum_nil. ring.
  - rewrite !Qsum_cons, IH. ring.
Qed.

Lemma Qsum_indicator (ks : list Z) (k0 : Z) (v : Q) :
  NoDup ks ->
  Qsum (map (fun k => if (k0 =? k)%Z then v else 0) ks) ==
  if in_dec Z.eq_dec k0 ks then v else 0.
Proof.
  induction 1 as [|k ks Hk Hnd IH]; cbn [map].
  - rewrite Qsum_nil. reflexivity.
  - rewrite Qsum_cons, IH.
    destruct (Z.eqb_spec k0 k) as [->|Hne].
    + destruct (in_dec Z.eq_dec k ks) as [Hin|_]; [contradiction|].
      destruct (in_dec Z.eq_dec k (k :: ks)) as [_|Hout];
        [ring | exfalso; apply Hout; left; reflexivity].
    + destruct (in_dec Z.eq_dec k0 ks) as [Hin|Hout];
        destruct (in_dec Z.eq_dec k0 (k :: ks)) as [Hin'|Hout'];
        try ring.
      * exfalso. apply Hout'. right. exact Hin.
      * exfalso. destruct Hin' as [E|Hin']; [congruence | contradiction].
Qed.

Variable A : Type.
Variable key : A -> Z.

(** Adding a value over the rows of every key adds it over all rows, as
    long as every row's key is among the keys and no key is listed twice. *)
Lemma sum_by_key (val : A -> Q) (ks : list Z) (df : list A) :
  NoDup ks ->
  (forall t, In t df -> In (key t) ks) ->
  Qsum (map (fun k => Qsum (map val (filter (fun t => key t =? k)%Z df))) ks)
  == Qsum (map val df).
Proof.
  intros Hnd. induction df as [|t df IH]; intros Hall.
  - cbn [filter map]. apply Qsum_all_zero. apply Forall_forall.
    intros y Hy. apply in_map_iff in Hy. destruct Hy as (k & <- & _).
    reflexivity.
  - cbn [map]. rewrite Qsum_cons.
    rewrite <- IH by (intros u Hu; apply Hall; right; exact Hu).
    rewrite (Qsum_map_ext _
               (fun k => Qsum (map val (filter (fun u => key u =? k)%Z (t :: df))))
               (fun k => (if (key t =? k)%Z then val t else 0)
                         + Qsum (map val (filter (fun u => key u =? k)%Z df)))).
    + rewrite Qsum_map_plus, Qsum_indicator by exact Hnd.
      destruct (in_dec Z.eq_dec (key t) ks) as [_|Hout]; [reflexivity|].
      exfalso. apply Hout, Hall. left; reflexivity.
    + intros k. cbn [filter]. destruct (key t =? k)%Z; cbn [map].
      * apply Qsum_cons.
      * ring.
Qed.

Lemma list_sum_head (x : nat) (l : list nat) :
  list_sum (x :: l) = (x + list_sum l)%nat.
Proof. reflexivity. Qed.

Lemma count_by_key_step (t : A) (df : list A) (ks : list Z) :
  NoDup ks -> In (key t) ks ->
  list_sum (map (fun k => length (filter (fun u => key u =? k)%Z (t :: df))) ks)
  = S (list_sum (map (fun k => length (filter (fun u => key u =? k)%Z df)) ks)).
Proof.
  induction 1 as [|k ks Hk Hnd IH]; intros Hin; [contradiction|].
  cbn [map]. rewrite !list_sum_head.
  assert (Hhead : length (filter (fun u => key u =? k)%Z (t :: df)) =
                  if (key t =? k)%Z
                  then S (length (filter (fun u => key u =? k)%Z df))
                  else length (filter (fun u => key u =? k)%Z df)).
  { cbn [filter]. destruct (key t =? k)%Z; reflexivity. }
  rewrite Hhead. destruct (Z.eqb_spec (key t) k) as [E|Hne].
  - rewrite (map_ext_in
               (fun k0 => length (filter (fun u => key u =? k0)%Z (t :: df)))
               (fun k0 => length (filter (fun u => key u =? k0)%Z df))).
    + reflexivity.
    + intros k0 Hk0. cbn [filter].
      destruct (Z.eqb_spec (key t) k0) as [E0|_]; [|reflexivity].
      exfalso. apply Hk. rewrite <- E, E0. exact Hk0.
  - destruct Hin as [E|Hin]; [congruence|]. rewrite (IH Hin). lia.
Qed.

Lemma count_by_key (ks : list Z) (df : list A) :
  NoDup ks ->
  (forall t, In t df -> In (key t) ks) ->
  list_sum (map (fun k => length (filter (fun t => key t =? k)%Z df)) ks)
  = length df.
Proof.
  intros Hnd. induction df as [|t df IH]; intros Hall.
  - cbn [filter length]. clear Hnd Hall.
    induction ks as [|k ks IHk]; [reflexivity | exact IHk].
  - cbn [length]. rewrite <- IH by (intros u Hu; apply Hall; right; exact Hu).
    apply count_by_key_step; [exact Hnd | apply Hall; left; reflexivity].
Qed.

(** The keys of a grouping are listed once each. *)
Lemma ascending_keys_NoDup (B : Type) (g : list (Z * list B)) :
  ascending g -> NoDup (map fst g).
Proof.
  induction 1 as [|k rows g Hb Hg IH]; cbn [map]; constructor; [|exact IH].
  intros Hin. apply in_map_iff in Hin. destruct Hin as ([k' r] & E & Hin).
  unfold keys_below in Hb. rewrite Forall_forall in Hb.
  specialize (Hb _ Hin). cbn in *. lia.
Qed.

Lemma ascending_keys_sorted (B : Type) (g : list (Z * list B)) :
  ascending g -> StronglySorted Z.lt (map fst g).
Proof.
  induction 1 as [|k rows g Hb Hg IH]; cbn [map]; constructor; [exact IH|].
  unfold keys_below in Hb. rewrite Forall_forall in *.
  intros k' Hin. apply in_map_iff in Hin. destruct Hin as (kr & <- & Hin).
  apply Hb, Hin.
Qed.

(** A group holds exactly the rows with its key, in row order. *)
Lemma groupby_rows (k : Z) (rows : list A) (df : list A) :
  In (k, rows) (groupby key df) ->
  rows = filter (fun t => key t =? k)%Z df /\ rows <> [].
Proof.
  intros Hin.
  pose proof (lookup_in_ascending _ k rows _ (groupby_ascending _ key df) Hin)
    as Hl.
  rewrite lookup_groupby in Hl.
  destruct (filter (fun t => key t =? k)%Z df); [discriminate|].
  injection Hl as <-. split; [reflexivity | discriminate].
Qed.

(** Any aggregate of the groups is the aggregate of the rows of each key. *)
Lemma groupby_map (B : Type) (f : Z -> list A -> B) (df : list A) :
  map (fun g => f (fst g) (snd g)) (groupby key df) =
  map (fun k => f k (filter (fun t => key t =? k)%Z df))
      (map fst (groupby key df)).
Proof.
  rewrite map_map. apply map_ext_in. intros [k rows] Hin. cbn [fst snd].
  destruct (groupby_rows k rows df Hin) as [-> _]. reflexivity.
Qed.

Lemma groupby_covers (df : list A) :
  forall t, In t df -> In (key t) (map fst (groupby key df)).
Proof.
  intros t Ht. apply groupby_keys. apply in_map. exact Ht.
Qed.

End SumsByKey.

(** ** The daily series as a whole *)

Section DailySeries.

Open Scope Z_scope.

Lemma day_range_NoDup (lo : Z) (a n : nat) :
  NoDup (map (fun k => lo + Z.of_nat k) (seq a n)).
Proof.
  revert a. induction n as [|n IH]; intros a; cbn [seq map]; constructor.
  - intros Hin. apply in_map_iff in Hin. destruct Hin as (k & E & Hk).
    apply in_seq in Hk. lia.
  - apply IH.
Qed.

Lemma day_range_In (lo d : Z) (n : nat) :
  In d (map (fun k => lo + Z.of_nat k) (seq 0 n)) <->
  lo <= d < lo + Z.of_nat n.
Proof.
  rewrite in_map_iff. split.
  - intros (k & <- & Hk). apply in_seq in Hk. lia.
  - intros Hd. exists (Z.to_nat (d - lo)). split; [lia|].
    apply in_seq. lia.
Qed.

Lemma firstn_seq_min (k a n : nat) :
  firstn k (seq a n) = seq a (Nat.min k n).
Proof.
  revert a n. induction k as [|k IH]; intros a [|n]; cbn; try reflexivity.
  rewrite IH. reflexivity.
Qed.

(** What a successful run of the series construction returned. *)
Lemma daily_sales_shape (df : list transaction) (s : series) :
  daily_sales df = Ok s ->
  exists lo hi,
    min_date df = Some lo /\ max_date df = Some hi /\ lo <= hi /\
    index s = map (fun k => lo + Z.of_nat k) (seq 0 (Z.to_nat (hi - lo + 1))) /\
    values s = map (fun d => sales_on d df) (index s).
Proof.
  intros Hrun.
  assert (Hne : df <> []).
  { intros ->. cbv in Hrun. discriminate. }
  destruct (daily_sales_run df Hne) as (lo & hi & Hlo & Hhi & Hle & Hrun').
  rewrite Hrun' in Hrun. injection Hrun as <-.
  exists lo, hi. repeat split; try assumption.
  - apply reindex_index.
  - rewrite reindex_index. unfold values, reindex. rewrite map_map.
    apply map_ext. intros d. cbn [snd]. apply grouped_lookup.
Qed.

Lemma order_dates_in_range (df : list transaction) (lo hi : Z) :
  min_date df = Some lo -> max_date df = Some hi ->
  forall t, In t df -> lo <= order_date t <= hi.
Proof.
  intros Hlo Hhi t Ht.
  apply dates_min_spec in Hlo. apply dates_max_spec in Hhi.
  destruct Hlo as [_ Hlo]. destruct Hhi as [_ Hhi].
  assert (Hin : In (order_date t) (map order_date df)) by (apply in_map, Ht).
  split; [apply Hlo | apply Hhi]; exact Hin.
Qed.

End DailySeries.

(** X1: the daily series loses and invents no revenue: its values, the
    zero-filled days included, add up to the sum of all order prices. *)
Theorem daily_sales_total (df : list transaction) (s : series) :
  daily_sales df = Ok s ->
  (Qsum (values s) == Qsum (map price df))%Q.
Proof.
  intros Hrun.
  destruct (daily_sales_shape df s Hrun)
    as (lo & hi & Hlo & Hhi & Hle & Hidx & Hval).
  rewrite Hval. unfold sales_on.
  apply (sum_by_key transaction order_date price).
  - rewrite Hidx. apply day_range_NoDup.
  - intros t Ht. rewrite Hidx. apply day_range_In.
    pose proof (order_dates_in_range df lo hi Hlo Hhi t Ht). lia.
Qed.

Lemma daily_sales_total_witness :
  exists s,
    daily_sales fifteen_day_orders = Ok s /\
    (Qsum (values s) == Qsum (map price fifteen_day_orders))%Q.
Proof.
  eexists. split.
  - vm_compute. reflexivity.
  - apply (daily_sales_total fifteen_day_orders). vm_compute. reflexivity.
Defined.

(** X2: the split is chronological: every training day lies before every
    test day, so no test day is seen in training. *)
Theorem train_before_test (df : list transaction) (s : series) :
  daily_sales df = Ok s ->
  forall d d', In d (index (train_data s)) -> In d' (index (test_data s)) ->
               (d < d')%Z.
Proof.
  intros Hrun d d' Hd Hd'.
  destruct (daily_sales_shape df s Hrun) as (lo & hi & _ & _ & _ & Hidx & _).
  unfold train_data, index in Hd. rewrite <- firstn_map in Hd.
  unfold test_data, index in Hd'. rewrite <- skipn_map in Hd'.
  fold (index s) in Hd, Hd'. rewrite Hidx in Hd, Hd'.
  rewrite firstn_map, firstn_seq_min in Hd.
  rewrite skipn_map, skipn_seq in Hd'.
  apply in_map_iff in Hd. destruct Hd as (i & <- & Hi).
  apply in_map_iff in Hd'. destruct Hd' as (j & <- & Hj).
  apply in_seq in Hi. apply in_seq in Hj. lia.
Qed.

Lemma train_before_test_witness :
  exists s,
    daily_sales fifteen_day_orders = Ok s /\
    forall d d', In d (index (train_data s)) -> In d' (index (test_data s)) ->
                 (d < d')%Z.
Proof.
  eexists. split.
  - vm_compute. reflexivity.
  - apply (train_before_test fifteen_day_orders). vm_compute. reflexivity.
Defined.

(** ** Forecasts over the test days and over the future *)

Section ForecastDates.

Open Scope Z_scope.

Lemma last_day_range (lo : Z) (n : nat) (d0 : Z) :
  last (map (fun k => lo + Z.of_nat k) (seq 0 (S n))) d0 = lo + Z.of_nat n.
Proof.
  rewrite seq_S, map_app. cbn [map Nat.add]. apply last_last.
Qed.

Lemma rev_day_range (lo : Z) (n : nat) :
  rev (map (fun k => lo + Z.of_nat k) (seq 0 (S n))) =
  (lo + Z.of_nat n) :: rev (map (fun k => lo + Z.of_nat k) (seq 0 n)).
Proof.
  rewrite seq_S, map_app. cbn [map Nat.add]. apply rev_unit.
Qed.

Lemma map_seq_shift (B : Type) (f : nat -> B) (a b h : nat) :
  map (fun i => f (i + b)%nat) (seq a h) = map f (seq (a + b) h).
Proof.
  revert a. induction h as [|h IH]; intros a; cbn [seq map]; [reflexivity|].
  f_equal. apply (IH (S a)).
Qed.

Lemma train_size_pos (n : nat) : (2 <= n)%nat -> (1 <= train_size n <= n)%nat.
Proof. intros H. rewrite train_size_div. lia. Qed.

Lemma test_data_nonempty (s : series) :
  (1 <= length s)%nat -> (1 <= length (test_data s))%nat.
Proof.
  intros H. unfold test_data. rewrite length_skipn, train_size_div. lia.
Qed.

Lemma combine_index_values (s : series) : combine (index s) (values s) = s.
Proof.
  induction s as [|[d v] s IH]; cbn; [reflexivity|].
  f_equal. exact IH.
Qed.

(** The last day of a series that was built without an exception is the
    latest order date. *)
Lemma daily_sales_last (df : list transaction) (s : series) :
  daily_sales df = Ok s ->
  exists hi, max_date df = Some hi /\
             last (index s) 0 = hi /\ last_date s = Some hi.
Proof.
  intros Hrun.
  destruct (daily_sales_shape df s Hrun)
    as (lo & hi & _ & Hhi & Hle & Hidx & _).
  exists hi. split; [exact Hhi|]. unfold last_date. rewrite Hidx.
  replace (Z.to_nat (hi - lo + 1)) with (S (Z.to_nat (hi - lo))) by lia.
  rewrite last_day_range, rev_day_range. split; [lia | f_equal; lia].
Qed.

End ForecastDates.

(** X3: on a daily series of at least two days, the forecast over the test
    horizon is dated exactly as the test split, day for day; the metrics
    therefore compare each prediction with the sales of its own day. *)
Theorem forecast_matches_test_days
    (df : list transaction) (s : series) (point : nat -> Q) :
  daily_sales df = Ok s ->
  (2 <= length s)%nat ->
  exists predictions,
    forecast (train_data s) point (length (test_data s)) = Ok predictions /\
    index predictions = index (test_data s).
Proof.
  intros Hrun Hlen.
  destruct (daily_sales_shape df s Hrun) as (lo & hi & _ & _ & _ & Hidx & _).
  assert (Hn : length s = Z.to_nat (hi - lo + 1)).
  { rewrite <- (length_map fst s). fold (index s). rewrite Hidx.
    rewrite length_map, length_seq. reflexivity. }
  destruct (train_size_pos (length s) Hlen) as [Hk1 Hk2].
  assert (Htl : length (test_data s) = (length s - train_size (length s))%nat).
  { unfold test_data. apply length_skipn. }
  assert (Htrain : index (train_data s) =
                   map (fun i => lo + Z.of_nat i)%Z
                       (seq 0 (train_size (length s)))).
  { unfold train_data, index. rewrite <- firstn_map. fold (index s).
    rewrite Hidx, firstn_map, firstn_seq_min. f_equal. f_equal. lia. }
  assert (Htest : index (test_data s) =
                  map (fun i => lo + Z.of_nat i)%Z
                      (seq (train_size (length s))
                           (length s - train_size (length s)))).
  { unfold test_data, index. rewrite <- skipn_map. fold (index s).
    rewrite Hidx, skipn_map, skipn_seq. f_equal. f_equal; lia. }
  assert (Hne : train_data s <> []).
  { intros E. apply (f_equal (@length (date * Q))) in E.
    unfold train_data in E. rewrite length_firstn in E. cbn [length] in E.
    lia. }
  assert (Hh : (1 <= length (test_data s))%nat)
    by (apply test_data_nonempty; lia).
  pose proof (forecast_run (train_data s) point _ Hne Hh) as Hf.
  eexists. split; [exact Hf|].
  rewrite (forecast_index _ _ _ _ Hf), Htrain, Htest, Htl.
  destruct (train_size (length s)) as [|k']; [lia|].
  rewrite last_day_range.
  change (S k') with (0 + S k')%nat at 2.
  rewrite <- (map_seq_shift Z (fun i => lo + Z.of_nat i)%Z 0 (S k')).
  apply map_ext. intros i. lia.
Qed.

Lemma forecast_matches_test_days_witness :
  exists s,
    daily_sales fifteen_day_orders = Ok s /\
    exists predictions,
      forecast (train_data s) (fun _ => 0%Q) (length (test_data s))
        = Ok predictions /\
      index predictions = index (test_data s).
Proof.
  eexists. split.
  - vm_compute. reflexivity.
  - apply (forecast_matches_test_days fifteen_day_orders).
    + vm_compute. reflexivity.
    + cbn [length]. lia.
Defined.

(** ** When the forecasting notebook runs *)

Section NotebookRuns.

Open Scope Z_scope.

Lemma span_days_run (df : list transaction) (s : series) :
  daily_sales df = Ok s -> Z.of_nat (length s) = span_days df.
Proof.
  intros Hrun.
  destruct (daily_sales_shape df s Hrun) as (lo & hi & Hlo & Hhi & Hle & Hidx & _).
  unfold span_days. unfold min_date in Hlo. unfold max_date in Hhi.
  rewrite Hlo, Hhi, <- (length_map fst s). fold (index s).
  rewrite Hidx, length_map, length_seq. lia.
Qed.

Lemma daily_sales_empty : daily_sales [] = Raise ValueError.
Proof. reflexivity. Qed.

Lemma daily_sales_raises (df : list transaction) (e : exn) :
  daily_sales df = Raise e -> df = [] /\ e = ValueError.
Proof.
  intros H. destruct df as [|t df].
  - rewrite daily_sales_empty in H. injection H as <-. auto.
  - destruct (daily_sales_run (t :: df)) as (lo & hi & _ & _ & _ & Hrun);
      [discriminate | congruence].
Qed.

(** The metrics of a forecast over the test days are always computed. *)
Lemma train_data_nonempty (s : series) :
  (2 <= length s)%nat -> train_data s <> [].
Proof.
  intros Hlen E. apply (f_equal (@length (date * Q))) in E.
  unfold train_data in E. rewrite length_firstn in E. cbn [length] in E.
  pose proof (train_size_pos (length s) Hlen). lia.
Qed.

(** The forecast over the test days is always obtained, and its metrics
    are always computed. *)
Lemma test_metrics_run (s : series) (point : nat -> Q) :
  (2 <= length s)%nat ->
  exists predictions m,
    forecast (train_data s) point (length (test_data s)) = Ok predictions /\
    calculate_metrics (values (test_data s)) (values predictions) = Ok m.
Proof.
  intros Hlen.
  assert (Htest : (1 <= length (test_data s))%nat)
    by (apply test_data_nonempty; lia).
  pose proof (forecast_run (train_data s) point _
                (train_data_nonempty s Hlen) Htest) as Hf.
  eexists. 
  destruct (calculate_metrics_ok
              (values (test_data s))
              (values (map (fun k =>
                              ((last (index (train_data s)) 0 + Z.of_nat k)%Z,
                               point k))
                           (seq 1 (length (test_data s))))))
    as (mae & mse & mape & Hrun & _).
  - unfold values. rewrite !length_map. symmetry. apply length_seq.
  - unfold values. rewrite length_map. lia.
  - eexists. split; [exact Hf | exact Hrun].
Qed.

End NotebookRuns.

(** X4: with fewer than 14 days between the first and the last order, or
    with no orders at all, the run stops with a ValueError before any model
    is fitted, whatever the models are. *)
Theorem notebook_short_history
    (hw sarima : estimator) (df : list transaction) :
  (span_days df < 14)%Z ->
  notebook hw sarima df = Raise ValueError.
Proof.
  intros Hspan. unfold notebook.
  destruct (daily_sales df) as [s|e] eqn:Hrun.
  - cbn [bind]. rewrite seasonal_decompose_guard; [reflexivity|].
    pose proof (span_days_run df s Hrun) as Hlen.
    unfold values. rewrite length_map. lia.
  - destruct (daily_sales_raises df e Hrun) as [_ ->]. reflexivity.
Qed.

Lemma notebook_short_history_witness :
  notebook naive_estimator mean_estimator ten_day_orders = Raise ValueError.
Proof.
  apply (notebook_short_history naive_estimator mean_estimator ten_day_orders).
  vm_compute. reflexivity.
Defined.

(** X5: from 14 days of history on, the run reaches its end exactly when
    the three model fits succeed (Holt-Winters and SARIMA on the training
    days, Holt-Winters on the whole series): no other cell can raise, and
    the saved forecast is then the 30-step forecast of the last fit. *)
Theorem notebook_runs_iff_fits
    (hw sarima : estimator) (df : list transaction) :
  (14 <= span_days df)%Z ->
  exists sales,
    daily_sales df = Ok sales /\
    ((exists out, notebook hw sarima df = Ok out) <->
     (exists p1 p2 p3,
        fit hw (values (train_data sales)) = Ok p1 /\
        fit sarima (values (train_data sales)) = Ok p2 /\
        fit hw (values sales) = Ok p3)) /\
    (forall out p3,
       notebook hw sarima df = Ok out ->
       fit hw (values sales) = Ok p3 ->
       forecast sales p3 30 = Ok (forecast_df out)).
Proof.
  intros Hspan.
  destruct (daily_sales df) as [s|e] eqn:Hrun.
  2:{ destruct (daily_sales_raises df e Hrun) as [-> _].
      cbv in Hspan. exfalso. apply Hspan. reflexivity. }
  exists s. split; [reflexivity|].
  pose proof (span_days_run df s Hrun) as Hlen.
  destruct (seasonal_decompose_runs (values s) 7) as (d & Hd & _).
  { unfold values. rewrite length_map. lia. }
  unfold notebook. rewrite Hrun. cbn [bind]. rewrite Hd. cbn [bind].
  split; [split|].
  - intros (out & H).
    apply bind_ok in H. destruct H as (p1 & H1 & H).
    apply bind_ok in H. destruct H as (f1 & _ & H).
    apply bind_ok in H. destruct H as (p2 & H2 & H).
    apply bind_ok in H. destruct H as (f2 & _ & H).
    apply bind_ok in H. destruct H as (m1 & _ & H).
    apply bind_ok in H. destruct H as (m2 & _ & H).
    apply bind_ok in H. destruct H as (p3 & H3 & _).
    exists p1, p2, p3. auto.
  - intros (p1 & p2 & p3 & H1 & H2 & H3).
    rewrite H1. cbn [bind].
    destruct (test_metrics_run s p1 ltac:(lia)) as (f1 & m1 & Hf1 & Hm1).
    destruct (test_metrics_run s p2 ltac:(lia)) as (f2 & m2 & Hf2 & Hm2).
    rewrite Hf1. cbn [bind]. rewrite H2. cbn [bind].
    rewrite Hf2. cbn [bind].
    rewrite Hm1. cbn [bind]. rewrite Hm2. cbn [bind].
    rewrite H3. cbn [bind].
    assert (Hs : s <> []).
    { intros E. rewrite E in Hlen. cbn [length] in Hlen. lia. }
    rewrite (forecast_run s p3 future_periods Hs)
      by (unfold future_periods; lia).
    cbn [bind]. eexists. reflexivity.
  - intros out p3 H H3.
    apply bind_ok in H. destruct H as (p1 & _ & H).
    apply bind_ok in H. destruct H as (f1 & _ & H).
    apply bind_ok in H. destruct H as (p2 & _ & H).
    apply bind_ok in H. destruct H as (f2 & _ & H).
    apply bind_ok in H. destruct H as (m1 & _ & H).
    apply bind_ok in H. destruct H as (m2 & _ & H).
    rewrite H3 in H. cbn [bind] in H.
    apply bind_ok in H. destruct H as (future & Hfut & H).
    injection H as <-. exact Hfut.
Qed.

Lemma notebook_runs_iff_fits_witness :
  exists sales,
    daily_sales fifteen_day_orders = Ok sales /\
    ((exists out,
        notebook naive_estimator mean_estimator fifteen_day_orders = Ok out) <->
     (exists p1 p2 p3,
        fit naive_estimator (values (train_data sales)) = Ok p1 /\
        fit mean_estimator (values (train_data sales)) = Ok p2 /\
        fit naive_estimator (values sales) = Ok p3)) /\
    (forall out p3,
       notebook naive_estimator mean_estimator fifteen_day_orders = Ok out ->
       fit naive_estimator (values sales) = Ok p3 ->
       forecast sales p3 30 = Ok (forecast_df out)).
Proof.
  apply (notebook_runs_iff_fits naive_estimator mean_estimator
           fifteen_day_orders).
  vm_compute. discriminate.
Defined.

(** X6: the saved forecast has 30 rows, dated the 30 days that follow the
    latest order date, and its Date column, built from [future_dates],
    agrees row by row with the dates the predictions carry. *)
Theorem forecast_table_dates
    (hw sarima : estimator) (df : list transaction) (out : outputs) :
  notebook hw sarima df = Ok out ->
  exists hi sales point,
    max_date df = Some hi /\
    daily_sales df = Ok sales /\
    fit hw (values sales) = Ok point /\
    length (forecast_df out) = 30%nat /\
    index (forecast_df out) = date_range_periods (hi + 1) 30 /\
    future_dates sales = Some (index (forecast_df out)) /\
    forecast_table sales point = Some (forecast_df out).
Proof.
  unfold notebook. intros H.
  apply bind_ok in H. destruct H as (sales & Hsales & H).
  apply bind_ok in H. destruct H as (dec & _ & H).
  apply bind_ok in H. destruct H as (p1 & _ & H).
  apply bind_ok in H. destruct H as (f1 & _ & H).
  apply bind_ok in H. destruct H as (p2 & _ & H).
  apply bind_ok in H. destruct H as (f2 & _ & H).
  apply bind_ok in H. destruct H as (m1 & _ & H).
  apply bind_ok in H. destruct H as (m2 & _ & H).
  apply bind_ok in H. destruct H as (p3 & Hfit & H).
  apply bind_ok in H. destruct H as (future & Hfut & H).
  injection H as <-. cbn [forecast_df].
  destruct (daily_sales_last df sales Hsales) as (hi & Hhi & Hlast & Hld).
  exists hi, sales, p3.
  assert (Hidx : index future = date_range_periods (hi + 1) 30).
  { rewrite (forecast_index _ _ _ _ Hfut), Hlast. reflexivity. }
  split; [exact Hhi|]. split; [exact Hsales|]. split; [exact Hfit|].
  split; [exact (forecast_length _ _ _ _ Hfut)|]. split; [exact Hidx|]. split.
  - unfold future_dates. rewrite Hld, Hidx. reflexivity.
  - unfold forecast_table, future_dates. rewrite Hld, Hfut.
    change (date_range_periods (hi + 1) future_periods)
      with (date_range_periods (hi + 1) 30).
    rewrite <- Hidx, combine_index_values. reflexivity.
Qed.

Lemma forecast_table_dates_witness :
  exists out,
    notebook naive_estimator mean_estimator fifteen_day_orders = Ok out /\
    exists hi sales point,
      max_date fifteen_day_orders = Some hi /\
      daily_sales fifteen_day_orders = Ok sales /\
      fit naive_estimator (values sales) = Ok point /\
      length (forecast_df out) = 30%nat /\
      index (forecast_df out) = date_range_periods (hi + 1) 30 /\
      future_dates sales = Some (index (forecast_df out)) /\
      forecast_table sales point = Some (forecast_df out).
Proof.
  eexists. split.
  - vm_compute. reflexivity.
  - apply (forecast_table_dates naive_estimator mean_estimator
             fifteen_day_orders).
    vm_compute. reflexivity.
Defined.

(** ** Rounding to two decimals *)

Section Rounding.

Open Scope Q_scope.

Lemma rint_near (x : Q) : Qabs (inject_Z (rint x) - x) <= 1 # 2.
Proof.
  unfold rint.
  pose proof (Qfloor_le x) as Hlow. pose proof (Qlt_floor x) as Hup.
  rewrite inject_Z_plus in Hup.
  assert (Hone : inject_Z 1 == 1) by reflexivity.
  apply Qabs_Qle_condition.
  destruct (Qlt_bool (x - inject_Z (Qfloor x)) (1 # 2)) eqn:E1.
  - apply Qlt_bool_iff in E1. split; lra.
  - apply Qlt_bool_false in E1.
    destruct (Qlt_bool (1 # 2) (x - inject_Z (Qfloor x))) eqn:E2.
    + apply Qlt_bool_iff in E2. rewrite inject_Z_plus. split; lra.
    + apply Qlt_bool_false in E2.
      destruct (Z.even (Qfloor x)); [|rewrite inject_Z_plus]; split; lra.
Qed.

Lemma round2_near (x : Q) : Qabs (round2 x - x) <= 1 # 200.
Proof.
  unfold round2.
  pose proof (rint_near (x * 100)) as H.
  apply Qabs_Qle_condition in H. apply Qabs_Qle_condition.
  destruct H as [H1 H2].
  assert (E : inject_Z (rint (x * 100)) / 100
              == inject_Z (rint (x * 100)) * (1 # 100)) by (unfold Qdiv; reflexivity).
  rewrite E. split; lra.
Qed.

Lemma round2_hundredths (x : Q) : exists z : Z, round2 x == inject_Z z / 100.
Proof. exists (rint (x * 100)). reflexivity. Qed.

End Rounding.

(** ** The forecast summary *)

Section Summary.

Open Scope Q_scope.

(** The scan for the largest value keeps the earliest entry that no later
    entry exceeded. *)
Lemma idxmax_scan (rest pre post : series) (best : date * Q) :
  Forall (fun e => snd e < snd best) pre ->
  Forall (fun e => snd e <= snd best) post ->
  exists pre' post' best',
    fold_left (fun b dv => if Qlt_bool (snd b) (snd dv) then dv else b)
              rest best = best' /\
    pre ++ best :: post ++ rest = pre' ++ best' :: post' /\
    Forall (fun e => snd e < snd best') pre' /\
    Forall (fun e => snd e <= snd best') post'.
Proof.
  revert pre post best. induction rest as [|e rest IH];
    intros pre post best Hpre Hpost.
  - exists pre, post, best. rewrite app_nil_r. auto.
  - cbn [fold_left]. destruct (Qlt_bool (snd best) (snd e)) eqn:E.
    + apply Qlt_bool_iff in E.
      destruct (IH (pre ++ best :: post) [] e) as (pre' & post' & b' & H);
        [| constructor |].
      * apply Forall_app. split; [|constructor].
        -- eapply Forall_impl; [|exact Hpre]. intros a Ha. cbv beta in *. lra.
        -- exact E.
        -- eapply Forall_impl; [|exact Hpost]. intros a Ha. cbv beta in *. lra.
      * exists pre', post', b'. cbn [app] in H.
        rewrite <- app_assoc in H. cbn [app] in H.
        replace (post ++ e :: rest) with ((post ++ [e]) ++ rest)
          by (rewrite <- app_assoc; reflexivity).
        rewrite <- app_assoc. cbn [app]. exact H.
    + apply Qlt_bool_false in E.
      destruct (IH pre (post ++ [e]) best) as (pre' & post' & b' & H);
        [exact Hpre | |].
      * apply Forall_app. split; [exact Hpost | constructor; [exact E | constructor]].
      * exists pre', post', b'. rewrite <- app_assoc in H. exact H.
Qed.

Lemma idxmax_first_largest (s : series) :
  s <> [] ->
  exists pre peak v post,
    idxmax s = Ok peak /\
    s = pre ++ (peak, v) :: post /\
    Forall (fun e => snd e < v) pre /\
    Forall (fun e => snd e <= v) post.
Proof.
  intros Hne. destruct s as [|first rest]; [congruence|].
  destruct (idxmax_scan rest [] [] first) as (pre & post & [d v] & H1 & H2 & H3 & H4);
    try constructor.
  exists pre, d, v, post. unfold idxmax. rewrite H1. auto.
Qed.

End Summary.

(** X7: on a non-empty forecast the summary is computed: the printed total
    and the printed average are amounts in whole hundredths within 0.005 of
    the sum and of the mean of the predictions, and the peak day is the
    earliest day whose prediction no other day exceeds. *)
Theorem forecast_summary_peak (table : series) :
  table <> [] ->
  exists total average peak v pre post,
    forecast_summary table = Ok (Finite total, Finite average, peak) /\
    (Qabs (total - Qsum (values table)) <= 1 # 200)%Q /\
    (Qabs (average - Qsum (values table) / Qofnat (length table))
     <= 1 # 200)%Q /\
    (exists zt za : Z,
       total == inject_Z zt / 100 /\ average == inject_Z za / 100)%Q /\
    table = pre ++ (peak, v) :: post /\
    Forall (fun e => snd e < v)%Q pre /\
    Forall (fun e => snd e <= v)%Q post.
Proof.
  intros Hne.
  destruct (idxmax_first_largest table Hne)
    as (pre & peak & v & post & Hpeak & Hsplit & Hpre & Hpost).
  unfold forecast_summary. rewrite Hpeak. cbn [bind].
  unfold mean_or_nan.
  assert (Hlen : length (values table) = length table)
    by (unfold values; apply length_map).
  destruct (values table) as [|x l] eqn:E.
  { destruct table; [congruence | discriminate]. }
  cbn [format_2f]. rewrite Hlen.
  do 6 eexists. split; [reflexivity|].
  split; [apply round2_near|]. split; [apply round2_near|].
  split; [|split; [exact Hsplit | split; assumption]].
  destruct (round2_hundredths (Qsum (x :: l))) as (zt & Hzt).
  destruct (round2_hundredths (Qsum (x :: l) / Qofnat (length table)))
    as (za & Hza).
  exists zt, za. split; assumption.
Qed.

Lemma forecast_summary_peak_witness :
  exists total average peak v pre post,
    forecast_summary uneven_series = Ok (Finite total, Finite average, peak) /\
    (Qabs (total - Qsum (values uneven_series)) <= 1 # 200)%Q /\
    (Qabs (average - Qsum (values uneven_series)
                     / Qofnat (length uneven_series)) <= 1 # 200)%Q /\
    (exists zt za : Z,
       total == inject_Z zt / 100 /\ average == inject_Z za / 100)%Q /\
    uneven_series = pre ++ (peak, v) :: post /\
    Forall (fun e => snd e < v)%Q pre /\
    Forall (fun e => snd e <= v)%Q post.
Proof.
  apply (forecast_summary_peak uneven_series). discriminate.
Defined.

(** ** Range of the moving average *)

Section MovingAverageRange.

Open Scope Q_scope.

Lemma Qsum_bounds (a b : Q) (l : list Q) :
  Forall (fun v => a <= v /\ v <= b) l ->
  Qofnat (length l) * a <= Qsum l /\ Qsum l <= Qofnat (length l) * b.
Proof.
  induction 1 as [|x l [Hx1 Hx2] _ [IH1 IH2]]; cbn [length].
  - change (Qofnat 0) with 0. change (Qsum []) with 0. lra.
  - rewrite Qsum_cons, Qofnat_S. lra.
Qed.

Lemma Forall_window (P : Q -> Prop) (l : list Q) (a w : nat) :
  Forall P l -> Forall P (firstn w (skipn a l)).
Proof.
  intros H.
  assert (Hs : Forall P (skipn a l)).
  { revert a. induction H as [|x l Hx Hl IH]; intros [|a]; cbn [skipn].
    - constructor.
    - constructor.
    - constructor; assumption.
    - apply IH. }
  revert w. induction Hs as [|x l' Hx _ IH]; intros [|w]; cbn [firstn];
    constructor; auto.
Qed.

Lemma combine_snd (A B : Type) (l : list A) (l' : list B) :
  length l = length l' -> map snd (combine l l') = l'.
Proof.
  revert l'. induction l as [|x l IH]; intros [|y l'] H; cbn in *;
    try reflexivity; try discriminate.
  f_equal. apply IH. lia.
Qed.

Lemma moving_average_values (data : series) (w : nat) :
  map snd (calculate_moving_average data w) = rolling_mean (values data) w.
Proof.
  unfold calculate_moving_average. apply combine_snd.
  rewrite rolling_mean_length_any. unfold index, values.
  rewrite !length_map. reflexivity.
Qed.

End MovingAverageRange.

(** X8: smoothing stays within the data: when every value lies between two
    bounds, so does every defined entry of the moving average; on sales
    that are never negative it is never negative. *)
Theorem moving_average_within_bounds
    (data : series) (w : nat) (a b : Q) :
  (1 <= w)%nat ->
  Forall (fun v => a <= v /\ v <= b)%Q (values data) ->
  forall t m,
    nth_error (map snd (calculate_moving_average data w)) t = Some (Some m) ->
    (a <= m /\ m <= b)%Q.
Proof.
  intros Hw Hall t m Hm. rewrite moving_average_values in Hm.
  assert (Ht : (t < length (values data))%nat).
  { rewrite <- (rolling_mean_length (values data) w Hw).
    apply nth_error_Some. congruence. }
  pose proof (rolling_mean_nth (values data) w Hw t Ht) as H.
  rewrite Hm in H. destruct H as [Hwt Heq].
  unfold window_mean in Heq.
  set (win := firstn w (skipn (S t - w) (values data))) in *.
  assert (Hlen : length win = w).
  { unfold win. rewrite length_firstn, length_skipn. lia. }
  pose proof (Qsum_bounds a b win (Forall_window _ _ _ _ Hall)) as [H1 H2].
  rewrite Hlen in H1, H2.
  assert (Hpos : (0 < Qofnat w)%Q) by (apply Qofnat_pos; lia).
  rewrite Heq. split.
  - apply Qle_shift_div_l; [exact Hpos | lra].
  - apply Qle_shift_div_r; [exact Hpos | lra].
Qed.

Lemma moving_average_within_bounds_witness :
  exists m,
    nth_error (map snd (calculate_moving_average sample_series 2)) 1
      = Some (Some m) /\
    (1 <= m /\ m <= 5)%Q.
Proof.
  eexists. split.
  - vm_compute. reflexivity.
  - apply (moving_average_within_bounds sample_series 2 1 5) with (t := 1%nat).
    + apply le_S, le_n.
    + repeat constructor; discriminate.
    + vm_compute. reflexivity.
Defined.

(** ** When the metrics are computed, and when they vanish *)

Section MetricEdges.

Open Scope Q_scope.


Lemma Qabs_zero_iff (x : Q) : Qabs x == 0 <-> x == 0.
Proof.
  split; intros H.
  - destruct (Qlt_le_dec x 0) as [Hneg|Hpos].
    + rewrite Qabs_neg in H by lra. lra.
    + rewrite Qabs_pos in H by exact Hpos. exact H.
  - rewrite H. reflexivity.
Qed.

Lemma abs_errors_zero actual predicted :
  length actual = length predicted ->
  (Forall (fun x => x == 0) (abs_errors actual predicted) <->
   Forall2 Qeq actual predicted).
Proof.
  revert predicted. induction actual as [|a actual IH];
    intros [|p predicted] Hlen; cbn in Hlen; try discriminate.
  - split; constructor.
  - unfold abs_errors in *. cbn [combine map fst snd].
    specialize (IH predicted ltac:(lia)). split.
    + intros H. apply Forall_cons_iff in H. destruct H as [Hx Hl].
      constructor.
      * apply (proj1 (Qabs_zero_iff (a - p))) in Hx. lra.
      * apply IH, Hl.
    + intros H. inversion H as [|? ? ? ? Hx Hl]; subst. constructor.
      * apply (proj2 (Qabs_zero_iff (a - p))). lra.
      * apply IH, Hl.
Qed.

Lemma Qsum_sq_zero (l : list Q) :
  Qsum (map (fun x => x * x) l) == 0 <-> Forall (fun x => x == 0) l.
Proof.
  split.
  - intros H. apply Qsum_zero_all in H.
    + rewrite Forall_forall in *. intros x Hx.
      assert (Hz : x * x == 0).
      { apply H. apply in_map_iff. exists x. split; [reflexivity | exact Hx]. }
      apply Qmult_integral in Hz. tauto.
    + apply Forall_forall. intros y Hy. apply in_map_iff in Hy.
      destruct Hy as (x & <- & _). apply Qsq_nonneg.
  - intros H. apply Qsum_all_zero. rewrite Forall_forall in *.
    intros y Hy. apply in_map_iff in Hy. destruct Hy as (x & <- & Hx).
    rewrite (H x Hx). ring.
Qed.

Lemma Qdiv_zero_iff (x n : Q) : 0 < n -> (x / n == 0 <-> x == 0).
Proof.
  intros Hn. split; intros H.
  - assert (E : x == (x / n) * n) by (field; lra). rewrite E, H. ring.
  - rewrite H. field. lra.
Qed.

End MetricEdges.


(** X10: on valid input MAE is zero exactly when every prediction equals
    its actual value, and so is RMSE. *)
Theorem zero_error_iff_exact (actual predicted : list Q) :
  length actual = length predicted ->
  (0 < length actual)%nat ->
  exists mae rmse mape,
    calculate_metrics actual predicted = Ok (mae, rmse, mape) /\
    ((mae == 0)%Q <-> Forall2 Qeq actual predicted) /\
    ((radicand rmse == 0)%Q <-> Forall2 Qeq actual predicted) /\
    (root_val rmse = 0%R <-> Forall2 Qeq actual predicted).
Proof.
  intros Hlen Hpos.
  destruct (calculate_metrics_ok actual predicted Hlen Hpos)
    as (mae & mse & mape & Hrun & Hmae & Hmse & _).
  exists mae, (Sqrt mse), mape. split; [exact Hrun|].
  pose proof (Qofnat_pos _ Hpos) as Hn.
  pose proof (abs_errors_nonneg actual predicted) as Hnn.
  assert (H1 : (mae == 0)%Q <-> Forall2 Qeq actual predicted).
  { rewrite Hmae, (Qdiv_zero_iff _ _ Hn), <- (abs_errors_zero _ _ Hlen).
    split; [apply Qsum_zero_all, Hnn | apply Qsum_all_zero]. }
  assert (H2 : (mse == 0)%Q <-> Forall2 Qeq actual predicted).
  { rewrite Hmse, (Qdiv_zero_iff _ _ Hn), <- (abs_errors_zero _ _ Hlen).
    apply Qsum_sq_zero. }
  split; [exact H1|]. split; [exact H2|].
  rewrite <- H2. unfold root_val. cbn [radicand].
  assert (Hmse0 : (0 <= mse)%Q).
  { rewrite Hmse. apply Qle_shift_div_l; [exact Hn|].
    rewrite Qmult_0_l. apply Qsum_nonneg, Forall_forall.
    intros y Hy. apply in_map_iff in Hy. destruct Hy as (x & <- & _).
    apply Qsq_nonneg. }
  assert (Hr : (0 <= Q2R mse)%R).
  { apply Qle_Rle in Hmse0. rewrite RMicromega.Q2R_0 in Hmse0. exact Hmse0. }
  split.
  - intros E. apply eqR_Qeq. rewrite RMicromega.Q2R_0.
    rewrite <- (sqrt_sqrt (Q2R mse) Hr), E. ring.
  - intros E. apply Qeq_eqR in E. rewrite RMicromega.Q2R_0 in E.
    rewrite E. apply sqrt_0.
Qed.

Lemma zero_error_iff_exact_witness :
  exists mae rmse mape,
    calculate_metrics [4; 2]%Q [1; 1]%Q = Ok (mae, rmse, mape) /\
    ((mae == 0)%Q <-> Forall2 Qeq [4; 2]%Q [1; 1]%Q) /\
    ((radicand rmse == 0)%Q <-> Forall2 Qeq [4; 2]%Q [1; 1]%Q) /\
    (root_val rmse = 0%R <-> Forall2 Qeq [4; 2]%Q [1; 1]%Q).
Proof.
  apply (zero_error_iff_exact [4; 2]%Q [1; 1]%Q).
  - reflexivity.
  - apply le_S, le_n.
Defined.

(** ** The seasonal decomposition *)

Section Decomposition.

Open Scope Q_scope.

Lemma nth_error_map_seq (B : Type) (f : nat -> B) (n t : nat) :
  (t < n)%nat -> nth_error (map f (seq 0 n)) t = Some (f t).
Proof.
  intros Ht. rewrite nth_error_map, nth_error_seq.
  destruct (Nat.ltb_spec t n); [reflexivity | lia].
Qed.

(** The filter reaches as many days back as forward: half a period. *)
Lemma decompose_filter_half (p : nat) :
  ((length (decompose_filter p) - 1) / 2 = p / 2)%nat.
Proof.
  unfold decompose_filter. destruct (Nat.even p) eqn:E.
  - apply Nat.even_spec in E. destruct E as [k ->].
    cbn [length]. rewrite length_app, repeat_length. cbn [length]. lia.
  - rewrite repeat_length.
    assert (Ho : Nat.odd p = true) by (unfold Nat.odd; rewrite E; reflexivity).
    apply Nat.odd_spec in Ho. destruct Ho as [k ->]. lia.
Qed.

Lemma dot_repeat (c : Q) (k : nat) (w : list Q) :
  dot (repeat c k) w == c * Qsum (firstn k w).
Proof.
  unfold dot. revert w. induction k as [|k IH]; intros w.
  - cbn [repeat combine map firstn]. change (Qsum []) with 0. ring.
  - destruct w as [|v w]; cbn [repeat combine map firstn fst snd].
    + change (Qsum []) with 0. ring.
    + rewrite !Qsum_cons, IH. ring.
Qed.

(** The trend of a decomposition that was computed. *)
Lemma seasonal_decompose_trend (x : list Q) (p : nat) (d : decomposition) :
  seasonal_decompose x p = Ok d ->
  (2 * p <= length x)%nat /\
  trend d = convolution_filter x (decompose_filter p).
Proof.
  unfold seasonal_decompose. intros H.
  destruct (Nat.ltb_spec (length x) (2 * p)); [discriminate|].
  injection H as <-. split; [assumption | reflexivity].
Qed.

(** For an odd period the trend is defined from half a period after the
    start to half a period before the end, and is there the mean of the
    period-long window centred on the day. *)
Lemma trend_window_mean (x : list Q) (p : nat) (d : decomposition) (t : nat) :
  seasonal_decompose x p = Ok d ->
  Nat.odd p = true ->
  (t < length x)%nat ->
  nth_error (trend d) t =
    if ((p / 2 <=? t) && (t + p / 2 <? length x))%nat
    then Some (Some (dot (decompose_filter p)
                         (firstn p (skipn (t - p / 2) x))))
    else Some None.
Proof.
  intros Hrun Hodd Ht.
  destruct (seasonal_decompose_trend x p d Hrun) as (Hlen & Htrend).
  rewrite Htrend. unfold convolution_filter.
  rewrite (nth_error_map_seq _ _ _ _ Ht), decompose_filter_half.
  assert (Heven : Nat.even p = false).
  { unfold Nat.odd in Hodd. destruct (Nat.even p); [discriminate | reflexivity]. }
  assert (Hfl : length (decompose_filter p) = p).
  { unfold decompose_filter. rewrite Heven. apply repeat_length. }
  rewrite Hfl.
  destruct ((p / 2 <=? t) && (t + p / 2 <? length x))%nat; reflexivity.
Qed.

Lemma centred_window (x : list Q) (p t : nat) :
  Nat.odd p = true -> (p / 2 <= t)%nat ->
  dot (decompose_filter p) (firstn p (skipn (t - p / 2) x))
  == window_mean x p (t + p / 2).
Proof.
  intros Hodd Hle.
  assert (Heven : Nat.even p = false).
  { unfold Nat.odd in Hodd. destruct (Nat.even p); [discriminate | reflexivity]. }
  apply Nat.odd_spec in Hodd. destruct Hodd as [k Hk].
  unfold decompose_filter. rewrite Heven, dot_repeat.
  rewrite firstn_firstn, Nat.min_id. unfold window_mean.
  replace (S (t + p / 2) - p)%nat with (t - p / 2)%nat by lia.
  unfold Qdiv. ring.
Qed.

End Decomposition.

(** X12: for an odd period, the notebook's 7 among them, the trend of the
    decomposition is the notebook's moving average of the same width moved
    back by half a period: on every day that lies at least half a period
    from both ends, the trend of the day equals the moving average of the
    day half a period later; on the other days the trend is undefined. *)
Theorem trend_is_shifted_moving_average
    (data : series) (p : nat) (d : decomposition) :
  seasonal_decompose (values data) p = Ok d ->
  Nat.odd p = true ->
  forall t, (t < length data)%nat ->
    ((p / 2 <= t /\ t + p / 2 < length data)%nat ->
     exists m m',
       nth_error (trend d) t = Some (Some m) /\
       nth_error (map snd (calculate_moving_average data p)) (t + p / 2)
         = Some (Some m') /\
       (m == m')%Q) /\
    ((t < p / 2 \/ length data <= t + p / 2)%nat ->
     nth_error (trend d) t = Some None).
Proof.
  intros Hrun Hodd t Ht.
  assert (Hlen : length (values data) = length data)
    by (unfold values; apply length_map).
  assert (Hp : (1 <= p)%nat).
  { apply Nat.odd_spec in Hodd. destruct Hodd as [k ->]. lia. }
  pose proof (trend_window_mean (values data) p d t Hrun Hodd) as Htr.
  rewrite Hlen in Htr. specialize (Htr Ht).
  split.
  - intros [H1 H2].
    destruct (Nat.leb_spec (p / 2) t); [|lia].
    destruct (Nat.ltb_spec (t + p / 2) (length data)); [|lia].
    cbn [andb] in Htr.
    assert (Hu : (t + p / 2 < length (values data))%nat) by lia.
    pose proof (rolling_mean_nth (values data) p Hp (t + p / 2)%nat Hu) as Hma.
    rewrite moving_average_values.
    destruct (nth_error (rolling_mean (values data) p) (t + p / 2))
      as [[m'|]|]; [| |contradiction].
    + destruct Hma as [_ Hm'].
      eexists. exists m'. split; [exact Htr|]. split; [reflexivity|].
      rewrite Hm'. apply centred_window; assumption.
    + exfalso. apply Nat.odd_spec in Hodd. destruct Hodd as [k Hk].
      assert (p / 2 = k)%nat by (subst p; lia). lia.
  - intros Hout.
    destruct (Nat.leb_spec (p / 2) t);
      destruct (Nat.ltb_spec (t + p / 2) (length data));
      cbn [andb] in Htr; try exact Htr. lia.
Qed.

Lemma trend_is_shifted_moving_average_witness :
  exists d,
    seasonal_decompose (values rising_series) 7 = Ok d /\
    forall t, (t < length rising_series)%nat ->
      ((7 / 2 <= t /\ t + 7 / 2 < length rising_series)%nat ->
       exists m m',
         nth_error (trend d) t = Some (Some m) /\
         nth_error (map snd (calculate_moving_average rising_series 7))
                   (t + 7 / 2) = Some (Some m') /\
         (m == m')%Q) /\
      ((t < 7 / 2 \/ length rising_series <= t + 7 / 2)%nat ->
       nth_error (trend d) t = Some None).
Proof.
  eexists. split.
  - vm_compute. reflexivity.
  - apply (trend_is_shifted_moving_average rising_series 7).
    + vm_compute. reflexivity.
    + reflexivity.
Defined.

(** ** The RFM table *)

Section RfmTable.

Open Scope Z_scope.

Lemma dates_max_none (l : list date) : dates_max l = None <-> l = [].
Proof. destruct l; cbn; split; congruence. Qed.

(** The table has one row per group of orders, in the order of the
    groups. *)
Lemma rfm_columns (df : list transaction) :
  map rfm_customer (rfm df) = map fst (groupby customer_id df) /\
  map frequency (rfm df) =
    map (fun g => Z.of_nat (length (snd g))) (groupby customer_id df) /\
  map monetary (rfm df) =
    map (fun g => Qsum (map price (snd g))) (groupby customer_id df).
Proof.
  unfold rfm. destruct (dates_max (map order_date df)) as [cur|] eqn:E.
  - rewrite !map_map. cbn [rfm_customer frequency monetary]. repeat split.
  - apply dates_max_none in E. apply map_eq_nil in E. subst df.
    repeat split.
Qed.

Lemma fold_add_of_nat (A : Type) (f : A -> nat) (l : list A) :
  fold_left Z.add (map (fun a => Z.of_nat (f a)) l) 0
  = Z.of_nat (list_sum (map f l)).
Proof.
  assert (H : forall acc,
             fold_left Z.add (map (fun a => Z.of_nat (f a)) l) acc
             = acc + Z.of_nat (list_sum (map f l))).
  { induction l as [|a l IH]; intros acc; cbn [map fold_left].
    - cbn. lia.
    - rewrite IH, list_sum_head. lia. }
  rewrite H. lia.
Qed.

Lemma dates_max_subset (l l' : list date) (m m' : date) :
  (forall d, In d l -> In d l') ->
  dates_max l = Some m -> dates_max l' = Some m' -> m <= m'.
Proof.
  intros Hsub Hm Hm'. apply dates_max_spec in Hm. apply dates_max_spec in Hm'.
  destruct Hm as [Hin _]. destruct Hm' as [_ Hup]. apply Hup, Hsub, Hin.
Qed.

End RfmTable.

(** X14: the RFM table has exactly one row per customer that placed an
    order, in ascending order of customer id. *)
Theorem rfm_one_row_per_customer (df : list transaction) :
  StronglySorted Z.lt (map rfm_customer (rfm df)) /\
  NoDup (map rfm_customer (rfm df)) /\
  (forall c, In c (map rfm_customer (rfm df)) <->
             exists t, In t df /\ customer_id t = c).
Proof.
  destruct (rfm_columns df) as (Hc & _ & _). rewrite Hc.
  pose proof (groupby_ascending _ customer_id df) as Hasc.
  split; [apply ascending_keys_sorted, Hasc|].
  split; [apply ascending_keys_NoDup, Hasc|].
  intros c. rewrite groupby_keys, in_map_iff. split.
  - intros (t & E & Ht). exists t. auto.
  - intros (t & Ht & E). exists t. auto.
Qed.

(** X15: no recency is negative, and on a non-empty data set the customer
    of the latest order has recency 0. *)
Theorem recency_nonneg_and_zero (df : list transaction) :
  df <> [] ->
  (forall row, In row (rfm df) -> (0 <= recency row)%Z) /\
  (exists row, In row (rfm df) /\ recency row = 0%Z).
Proof.
  intros Hne.
  assert (Hbound : forall row, In row (rfm df) ->
            exists cur last_order,
              max_date df = Some cur /\
              dates_max (map order_date
                           (filter (fun t => customer_id t =? rfm_customer row)%Z df))
                = Some last_order /\
              recency row = (cur - last_order)%Z /\ (last_order <= cur)%Z).
  { intros row Hrow.
    destruct (rfm_recency df row Hrow) as (cur & lst & Hcur & Hlst & Hrec).
    exists cur, lst. repeat split; try assumption.
    refine (dates_max_subset _ _ _ _ _ Hlst Hcur).
    intros d Hd. apply in_map_iff in Hd. destruct Hd as (t & <- & Ht).
    apply in_map. apply filter_In in Ht. apply Ht. }
  split.
  - intros row Hrow.
    destruct (Hbound row Hrow) as (cur & lst & _ & _ & -> & Hle). lia.
  - destruct (max_date df) as [cur|] eqn:Hcur;
      [|destruct df; [congruence | discriminate]].
    pose proof Hcur as Hspec. apply dates_max_spec in Hspec.
    destruct Hspec as [Hin Hup]. apply in_map_iff in Hin.
    destruct Hin as (t & Et & Ht).
    assert (Hc : In (customer_id t) (map rfm_customer (rfm df))).
    { destruct (rfm_columns df) as (Hcol & _ & _). rewrite Hcol.
      apply groupby_covers, Ht. }
    apply in_map_iff in Hc. destruct Hc as (row & Erow & Hrow).
    exists row. split; [exact Hrow|].
    destruct (Hbound row Hrow) as (cur' & lst & Hcur' & Hlst & -> & Hle).
    assert (Ecur : cur' = cur) by congruence. subst cur'.
    apply dates_max_spec in Hlst. destruct Hlst as [_ Hlst].
    assert (Hge : (order_date t <= lst)%Z).
    { apply Hlst. apply in_map. apply filter_In. split; [exact Ht|].
      rewrite Erow. apply Z.eqb_refl. }
    lia.
Qed.

Lemma recency_nonneg_and_zero_witness :
  (forall row, In row (rfm two_customers) -> (0 <= recency row)%Z) /\
  (exists row, In row (rfm two_customers) /\ recency row = 0%Z).
Proof.
  apply (recency_nonneg_and_zero two_customers). discriminate.
Defined.

(** X16: the table accounts for every order: each customer's frequency is
    at least 1, the frequencies add up to the number of orders, and the
    monetary values add up to the sum of all order prices. *)
Theorem rfm_accounts_for_orders (df : list transaction) :
  (forall row, In row (rfm df) -> (1 <= frequency row)%Z) /\
  fold_left Z.add (map frequency (rfm df)) 0%Z = Z.of_nat (length df) /\
  (Qsum (map monetary (rfm df)) == Qsum (map price df))%Q.
Proof.
  destruct (rfm_columns df) as (_ & Hf & Hm).
  pose proof (groupby_ascending _ customer_id df) as Hasc.
  pose proof (ascending_keys_NoDup _ _ Hasc) as Hnd.
  split; [|split].
  - intros row Hrow.
    assert (Hin : In (frequency row) (map frequency (rfm df)))
      by (apply in_map, Hrow).
    rewrite Hf in Hin. apply in_map_iff in Hin.
    destruct Hin as ([k rows] & <- & Hg).
    destruct (groupby_rows _ customer_id k rows df Hg) as [_ Hrows].
    cbn [snd]. destruct rows; [congruence | cbn [length]; lia].
  - rewrite Hf.
    rewrite (fold_add_of_nat _ (fun g => length (snd g))).
    rewrite (groupby_map _ customer_id _ (fun _ rows => length rows)).
    rewrite count_by_key; [reflexivity | exact Hnd | apply groupby_covers].
  - rewrite Hm.
    rewrite (groupby_map _ customer_id _ (fun _ rows => Qsum (map price rows))).
    apply sum_by_key; [exact Hnd | apply groupby_covers].
Qed.

(** ** When the scoring step raises *)

Section ScoringFails.

Open Scope Q_scope.

Lemma qcut_raises_value_error x q labels e :
  qcut x q labels = Raise e -> e = ValueError.
Proof.
  unfold qcut, bins_to_cuts.
  destruct (has_duplicates _ && negb _); [congruence|].
  destruct (negb _); [congruence | discriminate].
Qed.

(** Values that are all equal give equal lowest and highest edges, and
    the scoring refuses them. *)
Lemma qcut_constant (x : list Q) (labels : list Z) :
  (forall v w, In v x -> In w x -> v == w) ->
  qcut x 5 labels = Raise ValueError.
Proof.
  intros Hall. unfold qcut, bins_to_cuts.
  set (s := sort x). rewrite linspace_5. cbn [map length].
  assert (Hends : quantile s (0 # 5) == quantile s (5 # 5)).
  { rewrite (quantile_zero s (0 # 5)) by reflexivity.
    rewrite (quantile_one s (5 # 5)) by reflexivity.
    destruct (Nat.eq_dec (length s) 0) as [E|E].
    - rewrite E. reflexivity.
    - assert (H0 : In (nth 0 s 0) s) by (apply nth_In; lia).
      assert (Hm : In (nth (length s - 1) s 0) s) by (apply nth_In; lia).
      apply Hall; apply (Permutation_in _ (sort_perm x)); assumption. }
  assert (Hdup : has_duplicates
                   [quantile s (0 # 5); quantile s (1 # 5); quantile s (2 # 5);
                    quantile s (3 # 5); quantile s (4 # 5); quantile s (5 # 5)]
                 = true).
  { cbn [has_duplicates]. apply orb_true_iff. left.
    apply existsb_exists. exists (quantile s (5 # 5)). split.
    - cbn [In]. tauto.
    - apply Qeq_bool_iff, Hends. }
  rewrite Hdup. reflexivity.
Qed.

End ScoringFails.

(** X17: when all customers share one recency, one frequency or one
    monetary value - a single customer, or customers with one order each -
    the scoring step raises ValueError; so does it on an empty data set. *)
Theorem rfm_scores_constant_metric (df : list transaction) :
  (forall a b, In a (rfm df) -> In b (rfm df) -> recency a = recency b) \/
  (forall a b, In a (rfm df) -> In b (rfm df) -> frequency a = frequency b) \/
  (forall a b, In a (rfm df) -> In b (rfm df) ->
               (monetary a == monetary b)%Q) ->
  rfm_scores df = Raise ValueError.
Proof.
  intros Hconst. unfold rfm_scores.
  destruct (qcut (map (fun row => inject_Z (recency row)) (rfm df)) 5
                 [5; 4; 3; 2; 1]%Z) as [r|e] eqn:Er.
  2:{ apply qcut_raises_value_error in Er. subst e. reflexivity. }
  cbn [bind].
  destruct (qcut (map (fun row => inject_Z (frequency row)) (rfm df)) 5
                 [1; 2; 3; 4; 5]%Z) as [f|e] eqn:Ef.
  2:{ apply qcut_raises_value_error in Ef. subst e. reflexivity. }
  cbn [bind].
  destruct (qcut (map monetary (rfm df)) 5 [1; 2; 3; 4; 5]%Z) as [m|e] eqn:Em.
  2:{ apply qcut_raises_value_error in Em. subst e. reflexivity. }
  exfalso. destruct Hconst as [H|[H|H]].
  - rewrite qcut_constant in Er; [discriminate|].
    intros v w Hv Hw. apply in_map_iff in Hv. apply in_map_iff in Hw.
    destruct Hv as (a & <- & Ha). destruct Hw as (b & <- & Hb).
    rewrite (H a b Ha Hb). reflexivity.
  - rewrite qcut_constant in Ef; [discriminate|].
    intros v w Hv Hw. apply in_map_iff in Hv. apply in_map_iff in Hw.
    destruct Hv as (a & <- & Ha). destruct Hw as (b & <- & Hb).
    rewrite (H a b Ha Hb). reflexivity.
  - rewrite qcut_constant in Em; [discriminate|].
    intros v w Hv Hw. apply in_map_iff in Hv. apply in_map_iff in Hw.
    destruct Hv as (a & <- & Ha). destruct Hw as (b & <- & Hb).
    apply H; assumption.
Qed.

Lemma rfm_scores_constant_metric_witness :
  rfm_scores six_alike_customers = Raise ValueError.
Proof.
  apply (rfm_scores_constant_metric six_alike_customers).
  right. left. intros a b Ha Hb.
  apply (in_map frequency) in Ha. apply (in_map frequency) in Hb.
  assert (E : map frequency (rfm six_alike_customers)
               = [1; 1; 1; 1; 1; 1]%Z) by (vm_compute; reflexivity).
  rewrite E in Ha, Hb. cbn [In] in Ha, Hb.
  assert (Ea : frequency a = 1%Z) by intuition congruence.
  assert (Eb : frequency b = 1%Z) by intuition congruence.
  congruence.
Defined.

(** ** Scores of the extreme customers *)

Section ExtremeScores.

Open Scope Q_scope.

Lemma no_repeat_before_last (l : list Q) (z : Q) :
  NoDupA Qeq (l ++ [z]) -> forall y, In y l -> ~ y == z.
Proof.
  induction l as [|x l IH]; intros Hnd y Hy; [contradiction|].
  cbn [app] in Hnd. inversion Hnd as [|? ? Hnotin Hnd']; subst.
  destruct Hy as [<-|Hy].
  - intros E. apply Hnotin. apply InA_app_iff. right.
    constructor. exact E.
  - apply IH; assumption.
Qed.

(** The least value falls into the first bin. *)
Lemma bin_id_least (x bins : list Q) (v : Q) :
  admissible_edges x bins = true ->
  In v x -> (forall w, In w x -> v <= w) ->
  bin_id bins v = 1%nat.
Proof.
  intros Hadm Hv Hleast.
  destruct (admissible_inv x bins Hadm)
    as (b0 & b1 & b2 & b3 & b4 & b5 & -> & E0 & _).
  unfold bin_id.
  assert (E : v == b0).
  { rewrite E0.
    destruct (in_sort_nth x v Hv) as (i & Hi & Ei).
    assert (H0 : In (nth 0 (sort x) 0) x).
    { apply (Permutation_in _ (sort_perm x)). apply nth_In. lia. }
    pose proof (Hleast _ H0) as Hle.
    assert (Hge : nth 0 (sort x) 0 <= v).
    { rewrite <- Ei. apply sorted_nth_le; [apply sort_sorted | lia | lia]. }
    lra. }
  apply Qeq_bool_iff in E. rewrite E. reflexivity.
Qed.

(** The greatest value falls into the last bin when the edges are
    pairwise different. *)
Lemma bin_id_greatest (x bins : list Q) (v : Q) :
  admissible_edges x bins = true ->
  has_duplicates bins = false ->
  In v x -> (forall w, In w x -> w <= v) ->
  bin_id bins v = 5%nat.
Proof.
  intros Hadm Hdup Hv Hmost.
  destruct (admissible_inv x bins Hadm)
    as (b0 & b1 & b2 & b3 & b4 & b5 & -> & _ & E5 & H01 & H12 & H23 & H34 & H45).
  destruct (in_sort_nth x v Hv) as (i & Hi & Ei).
  pose proof (sort_length x) as Hsl.
  assert (E : b5 == v).
  { rewrite E5.
    assert (Hm : In (nth (length x - 1) (sort x) 0) x).
    { apply (Permutation_in _ (sort_perm x)). apply nth_In. lia. }
    pose proof (Hmost _ Hm) as Hle.
    assert (Hge : v <= nth (length x - 1) (sort x) 0).
    { rewrite <- Ei. apply sorted_nth_le; [apply sort_sorted | lia | lia]. }
    lra. }
  apply has_duplicates_false in Hdup.
  pose proof (no_repeat_before_last [b0; b1; b2; b3; b4] b5 Hdup b4) as Hne.
  assert (H4 : ~ b4 == b5) by (apply Hne; cbn [In]; tauto).
  assert (L4 : b4 < v) by lra.
  unfold bin_id.
  assert (E0 : Qeq_bool v b0 = false) by (apply Qeq_bool_false; lra).
  rewrite E0. cbn [searchsorted_left].
  assert (T0 : Qlt_bool b0 v = true) by (apply Qlt_bool_iff; lra).
  assert (T1 : Qlt_bool b1 v = true) by (apply Qlt_bool_iff; lra).
  assert (T2 : Qlt_bool b2 v = true) by (apply Qlt_bool_iff; lra).
  assert (T3 : Qlt_bool b3 v = true) by (apply Qlt_bool_iff; lra).
  assert (T4 : Qlt_bool b4 v = true) by (apply Qlt_bool_iff; lra).
  assert (T5 : Qlt_bool b5 v = false) by (apply Qlt_bool_false; lra).
  rewrite T0, T1, T2, T3, T4, T5. reflexivity.
Qed.

(** The labels the least and the greatest value receive. *)
Lemma cuts_extremes (x bins : list Q) (labels : list Z)
    (scores : list (option Z)) :
  admissible_edges x bins = true ->
  bins_to_cuts x bins labels = Ok scores ->
  exists g : Q -> option Z,
    scores = map g x /\
    (forall v, In v x -> (forall w, In w x -> v <= w) ->
               g v = nth_error labels 0) /\
    (forall v, In v x -> (forall w, In w x -> w <= v) ->
               g v = nth_error labels 4).
Proof.
  intros Hadm Hrun.
  destruct (bins_to_cuts_ok_inv x bins labels scores
              (admissible_length x bins Hadm) Hrun) as (Hdup & _ & Hscores).
  eexists. split; [exact Hscores|]. cbv zeta. split.
  - intros v Hv Hleast. rewrite (bin_id_least x bins v Hadm Hv Hleast).
    reflexivity.
  - intros v Hv Hmost. rewrite (bin_id_greatest x bins v Hadm Hdup Hv Hmost).
    reflexivity.
Qed.

End ExtremeScores.

(** X18: once the scores are assigned - with whatever rounding the edges
    carry, as long as they ascend from the least to the greatest value -
    every customer of the table has a row, a customer whose recency is the
    smallest of all has recency score 5 and one whose recency is the largest
    has recency score 1; a customer with the smallest frequency or monetary
    value has score 1 for it, and one with the largest has score 5. *)
Theorem extreme_customers_scores
    (df : list transaction)
    (recency_bins frequency_bins monetary_bins : list Q)
    (rows : list rfm_score_row) :
  admissible_edges (map (fun row => inject_Z (recency row)) (rfm df))
                   recency_bins = true ->
  admissible_edges (map (fun row => inject_Z (frequency row)) (rfm df))
                   frequency_bins = true ->
  admissible_edges (map monetary (rfm df)) monetary_bins = true ->
  rfm_scores_with recency_bins frequency_bins monetary_bins df = Ok rows ->
  map scored rows = rfm df /\
  forall a, In a rows ->
    ((forall b, In b rows -> (recency (scored a) <= recency (scored b))%Z) ->
     recency_score a = Some 5%Z) /\
    ((forall b, In b rows -> (recency (scored b) <= recency (scored a))%Z) ->
     recency_score a = Some 1%Z) /\
    ((forall b, In b rows -> (frequency (scored a) <= frequency (scored b))%Z) ->
     frequency_score a = Some 1%Z) /\
    ((forall b, In b rows -> (frequency (scored b) <= frequency (scored a))%Z) ->
     frequency_score a = Some 5%Z) /\
    ((forall b, In b rows -> (monetary (scored a) <= monetary (scored b))%Q) ->
     monetary_score a = Some 1%Z) /\
    ((forall b, In b rows -> (monetary (scored b) <= monetary (scored a))%Q) ->
     monetary_score a = Some 5%Z).
Proof.
  intros Hbr Hbf Hbm Hrun. unfold rfm_scores_with in Hrun.
  apply bind_ok in Hrun. destruct Hrun as (r & Hr & Hrun).
  apply bind_ok in Hrun. destruct Hrun as (f & Hf & Hrun).
  apply bind_ok in Hrun. destruct Hrun as (m & Hm & Hrun).
  injection Hrun as <-.
  destruct (cuts_extremes _ _ _ _ Hbr Hr) as (gr & -> & Hr1 & Hr5).
  destruct (cuts_extremes _ _ _ _ Hbf Hf) as (gf & -> & Hf1 & Hf5).
  destruct (cuts_extremes _ _ _ _ Hbm Hm) as (gm & -> & Hm1 & Hm5).
  rewrite !map_map, zip_scores_map.
  split.
  { rewrite map_map. cbn [scored]. apply map_id. }
  intros a Ha. apply in_map_iff in Ha. destruct Ha as (ra & <- & Hra).
  cbn [scored recency_score frequency_score monetary_score].
  assert (Hrow : forall (P : rfm_row -> Prop),
             (forall b,
                In b (map (fun row =>
                             {| scored := row;
                                recency_score := gr (inject_Z (recency row));
                                frequency_score := gf (inject_Z (frequency row));
                                monetary_score := gm (monetary row) |})
                          (rfm df)) -> P (scored b)) ->
             forall rb, In rb (rfm df) -> P rb).
  { intros P HP rb Hrb.
    apply (HP {| scored := rb;
                 recency_score := gr (inject_Z (recency rb));
                 frequency_score := gf (inject_Z (frequency rb));
                 monetary_score := gm (monetary rb) |}).
    apply in_map_iff. exists rb. split; [reflexivity | exact Hrb]. }
  repeat split; intros Hall.
  - rewrite Hr1; [reflexivity | apply in_map_iff; eauto |].
    intros w Hw. apply in_map_iff in Hw. destruct Hw as (rb & <- & Hrb).
    rewrite <- Zle_Qle.
    exact (Hrow (fun b => (recency ra <= recency b)%Z) Hall rb Hrb).
  - rewrite Hr5; [reflexivity | apply in_map_iff; eauto |].
    intros w Hw. apply in_map_iff in Hw. destruct Hw as (rb & <- & Hrb).
    rewrite <- Zle_Qle.
    exact (Hrow (fun b => (recency b <= recency ra)%Z) Hall rb Hrb).
  - rewrite Hf1; [reflexivity | apply in_map_iff; eauto |].
    intros w Hw. apply in_map_iff in Hw. destruct Hw as (rb & <- & Hrb).
    rewrite <- Zle_Qle.
    exact (Hrow (fun b => (frequency ra <= frequency b)%Z) Hall rb Hrb).
  - rewrite Hf5; [reflexivity | apply in_map_iff; eauto |].
    intros w Hw. apply in_map_iff in Hw. destruct Hw as (rb & <- & Hrb).
    rewrite <- Zle_Qle.
    exact (Hrow (fun b => (frequency b <= frequency ra)%Z) Hall rb Hrb).
  - rewrite Hm1; [reflexivity | apply in_map_iff; eauto |].
    intros w Hw. apply in_map_iff in Hw. destruct Hw as (rb & <- & Hrb).
    exact (Hrow (fun b => (monetary ra <= monetary b)%Q) Hall rb Hrb).
  - rewrite Hm5; [reflexivity | apply in_map_iff; eauto |].
    intros w Hw. apply in_map_iff in Hw. destruct Hw as (rb & <- & Hrb).
    exact (Hrow (fun b => (monetary b <= monetary ra)%Q) Hall rb Hrb).
Qed.

Lemma extreme_customers_scores_witness :
  exists rows,
    rfm_scores_with tied_recency_edges whole_edges whole_edges tied_customers
      = Ok rows /\
    map scored rows = rfm tied_customers /\
    forall a, In a rows ->
      ((forall b, In b rows -> (recency (scored a) <= recency (scored b))%Z) ->
       recency_score a = Some 5%Z) /\
      ((forall b, In b rows -> (recency (scored b) <= recency (scored a))%Z) ->
       recency_score a = Some 1%Z) /\
      ((forall b, In b rows ->
                  (frequency (scored a) <= frequency (scored b))%Z) ->
       frequency_score a = Some 1%Z) /\
      ((forall b, In b rows ->
                  (frequency (scored b) <= frequency (scored a))%Z) ->
       frequency_score a = Some 5%Z) /\
      ((forall b, In b rows -> (monetary (scored a) <= monetary (scored b))%Q) ->
       monetary_score a = Some 1%Z) /\
      ((forall b, In b rows -> (monetary (scored b) <= monetary (scored a))%Q) ->
       monetary_score a = Some 5%Z).
Proof.
  eexists. split.
  - vm_compute. reflexivity.
  - apply (extreme_customers_scores
             tied_customers tied_recency_edges whole_edges whole_edges);
      vm_compute; reflexivity.
Defined.

(** ** The combined RFM score *)

Section CombinedScore.

Open Scope Z_scope.

Lemma score_str_digit z :
  1 <= z <= 5 ->
  score_str (Some z) = String.String (digit z) String.EmptyString.
Proof.
  intros Hz.
  assert (H : z = 1 \/ z = 2 \/ z = 3 \/ z = 4 \/ z = 5) by lia.
  destruct H as [->|[->|[->|[->| ->]]]]; reflexivity.
Qed.

Lemma digit_inj z z' :
  1 <= z <= 5 -> 1 <= z' <= 5 -> digit z = digit z' -> z = z'.
Proof.
  intros Hz Hz' E.
  assert (H : Ascii.nat_of_ascii (digit z) = Ascii.nat_of_ascii (digit z'))
    by (rewrite E; reflexivity).
  unfold digit in H.
  rewrite !Ascii.nat_ascii_embedding in H by lia. lia.
Qed.

Lemma rfm_scores_in_range rb fb mb df rows :
  admissible_edges (map (fun row => inject_Z (recency row)) (rfm df)) rb
    = true ->
  admissible_edges (map (fun row => inject_Z (frequency row)) (rfm df)) fb
    = true ->
  admissible_edges (map monetary (rfm df)) mb = true ->
  rfm_scores_with rb fb mb df = Ok rows ->
  map scored rows = rfm df /\
  forall a, In a rows ->
    exists r f m,
      recency_score a = Some r /\ frequency_score a = Some f /\
      monetary_score a = Some m /\
      1 <= r <= 5 /\ 1 <= f <= 5 /\ 1 <= m <= 5.
Proof.
  intros Hbr Hbf Hbm Hrun. unfold rfm_scores_with in Hrun.
  apply bind_ok in Hrun. destruct Hrun as (r & Hr & Hrun).
  apply bind_ok in Hrun. destruct Hrun as (f & Hf & Hrun).
  apply bind_ok in Hrun. destruct Hrun as (m & Hm & Hrun).
  injection Hrun as <-.
  destruct (cuts_scores_monotone _ _ _ _ Hbr (or_intror eq_refl) Hr)
    as (gr & -> & Hgr & _).
  destruct (cuts_scores_monotone _ _ _ _ Hbf (or_introl eq_refl) Hf)
    as (gf & -> & Hgf & _).
  destruct (cuts_scores_monotone _ _ _ _ Hbm (or_introl eq_refl) Hm)
    as (gm & -> & Hgm & _).
  rewrite !map_map, zip_scores_map.
  split.
  { rewrite map_map. cbn [scored]. apply map_id. }
  intros a Ha. apply in_map_iff in Ha. destruct Ha as (row & <- & Hrow).
  cbn [recency_score frequency_score monetary_score].
  do 3 eexists. repeat split; try reflexivity.
  - apply Hgr. apply in_map_iff. eauto.
  - apply Hgr. apply in_map_iff. eauto.
  - apply Hgf. apply in_map_iff. eauto.
  - apply Hgf. apply in_map_iff. eauto.
  - apply Hgm. apply in_map_iff. eauto.
  - apply Hgm. apply in_map_iff. eauto.
Qed.

End CombinedScore.

(** X19: once the scores are assigned - with whatever rounding the edges
    carry, as long as they ascend from the least to the greatest value -
    every customer of the table has a row, and its combined RFM score is a
    text of exactly three digits from 1 to 5, the recency, frequency and
    monetary score in this order; so two customers with the same combined
    score have the same three scores. *)
Theorem rfm_score_three_digits
    (df : list transaction)
    (recency_bins frequency_bins monetary_bins : list Q)
    (rows : list rfm_score_row) :
  admissible_edges (map (fun row => inject_Z (recency row)) (rfm df))
                   recency_bins = true ->
  admissible_edges (map (fun row => inject_Z (frequency row)) (rfm df))
                   frequency_bins = true ->
  admissible_edges (map monetary (rfm df)) monetary_bins = true ->
  rfm_scores_with recency_bins frequency_bins monetary_bins df = Ok rows ->
  map scored rows = rfm df /\
  (forall a, In a rows ->
     exists r f m,
       (1 <= r <= 5)%Z /\ (1 <= f <= 5)%Z /\ (1 <= m <= 5)%Z /\
       recency_score a = Some r /\ frequency_score a = Some f /\
       monetary_score a = Some m /\
       rfm_score a =
         String.String (digit r)
           (String.String (digit f)
              (String.String (digit m) String.EmptyString))) /\
  (forall a b, In a rows -> In b rows -> rfm_score a = rfm_score b ->
     recency_score a = recency_score b /\
     frequency_score a = frequency_score b /\
     monetary_score a = monetary_score b).
Proof.
  intros Hbr Hbf Hbm Hrun.
  destruct (rfm_scores_in_range _ _ _ df rows Hbr Hbf Hbm Hrun)
    as [Hcover Hrange].
  split; [exact Hcover|].
  assert (Hshape : forall a, In a rows ->
            exists r f m,
              (1 <= r <= 5)%Z /\ (1 <= f <= 5)%Z /\ (1 <= m <= 5)%Z /\
              recency_score a = Some r /\ frequency_score a = Some f /\
              monetary_score a = Some m /\
              rfm_score a =
                String.String (digit r)
                  (String.String (digit f)
                     (String.String (digit m) String.EmptyString))).
  { intros a Ha.
    destruct (Hrange a Ha) as (r & f & m & Er & Ef & Em & Hr & Hf & Hm).
    exists r, f, m. repeat split; try assumption; try lia.
    unfold rfm_score. rewrite Er, Ef, Em.
    rewrite (score_str_digit r Hr), (score_str_digit f Hf),
      (score_str_digit m Hm).
    reflexivity. }
  split; [exact Hshape|].
  intros a b Ha Hb E.
  destruct (Hshape a Ha) as (r & f & m & Hr & Hf & Hm & Er & Ef & Em & Sa).
  destruct (Hshape b Hb)
    as (r' & f' & m' & Hr' & Hf' & Hm' & Er' & Ef' & Em' & Sb).
  rewrite Sa, Sb in E. injection E as E1 E2 E3.
  rewrite Er, Er', Ef, Ef', Em, Em'.
  rewrite (digit_inj r r' Hr Hr' E1), (digit_inj f f' Hf Hf' E2),
    (digit_inj m m' Hm Hm' E3).
  repeat split.
Qed.

Lemma rfm_score_three_digits_witness :
  exists rows,
    rfm_scores_with tied_recency_edges whole_edges whole_edges tied_customers
      = Ok rows /\
    map scored rows = rfm tied_customers /\
    (forall a, In a rows ->
       exists r f m,
         (1 <= r <= 5)%Z /\ (1 <= f <= 5)%Z /\ (1 <= m <= 5)%Z /\
         recency_score a = Some r /\ frequency_score a = Some f /\
         monetary_score a = Some m /\
         rfm_score a =
           String.String (digit r)
             (String.String (digit f)
                (String.String (digit m) String.EmptyString))) /\
    (forall a b, In a rows -> In b rows -> rfm_score a = rfm_score b ->
       recency_score a = recency_score b /\
       frequency_score a = frequency_score b /\
       monetary_score a = monetary_score b).
Proof.
  eexists. split.
  - vm_compute. reflexivity.
  - apply (rfm_score_three_digits
             tied_customers tied_recency_edges whole_edges whole_edges);
      vm_compute; reflexivity.
Defined.

(** ** Segment profiles *)

Section Profiles.

Open Scope Q_scope.

Lemma segment_profiles_columns (segments : list segment_row) :
  map profile_segment (segment_profiles segments)
    = map fst (groupby segment segments) /\
  map customer_count (segment_profiles segments)
    = map (fun g => Z.of_nat (length (snd g))) (groupby segment segments).
Proof.
  unfold segment_profiles. cbv zeta. rewrite !map_map. split; reflexivity.
Qed.

Lemma segment_total (segments : list segment_row) :
  fold_left Z.add
    (map (fun g => Z.of_nat (length (snd g))) (groupby segment segments)) 0%Z
  = Z.of_nat (length segments).
Proof.
  pose proof (groupby_ascending _ segment segments) as Hasc.
  pose proof (ascending_keys_NoDup _ _ Hasc) as Hnd.
  rewrite (fold_add_of_nat _ (fun g => length (snd g))).
  rewrite (groupby_map _ segment _ (fun _ rows => length rows)).
  rewrite count_by_key; [reflexivity | exact Hnd | apply groupby_covers].
Qed.

End Profiles.

(** X20: the segment profile table has one row per segment that occurs,
    segments ascending; a row's customer count is the number of customers
    of that segment (at least one), the counts add up to the number of
    customers, and the reported size percentage and the two reported means
    are within 0.005 of the exact share and the exact means of the segment. *)
Theorem segment_profiles_account (segments : list segment_row) :
  StronglySorted Z.lt (map profile_segment (segment_profiles segments)) /\
  (forall k, In k (map profile_segment (segment_profiles segments)) <->
             exists row, In row segments /\ segment row = k) /\
  fold_left Z.add (map customer_count (segment_profiles segments)) 0%Z
    = Z.of_nat (length segments) /\
  (forall p, In p (segment_profiles segments) ->
     let members :=
       filter (fun row => segment row =? profile_segment p)%Z segments in
     customer_count p = Z.of_nat (length members) /\
     (1 <= customer_count p)%Z /\
     (Qabs (size_percentage p
            - inject_Z (customer_count p) / Qofnat (length segments) * 100)
      <= 1 # 200)%Q /\
     (Qabs (mean_orders p - mean_of (map total_orders members)) <= 1 # 200)%Q /\
     (Qabs (mean_spent p - mean_of (map total_spent members)) <= 1 # 200)%Q).
Proof.
  destruct (segment_profiles_columns segments) as (Hk & Hc).
  pose proof (groupby_ascending _ segment segments) as Hasc.
  split; [|split; [|split]].
  - rewrite Hk. apply ascending_keys_sorted, Hasc.
  - intros k. rewrite Hk, (groupby_keys _ segment). rewrite in_map_iff.
    split; intros (row & H1 & H2); exists row; tauto.
  - rewrite Hc. apply segment_total.
  - intros p Hp. unfold segment_profiles in Hp. cbv zeta in Hp.
    rewrite segment_total in Hp.
    apply in_map_iff in Hp. destruct Hp as ([k rows] & <- & Hg).
    cbn [fst snd profile_segment customer_count size_percentage mean_orders
         mean_spent].
    destruct (groupby_rows _ segment k rows segments Hg) as [Erows Hne].
    rewrite <- Erows.
    split; [reflexivity|]. split.
    { destruct rows; [congruence | cbn [length]; lia]. }
    split; [apply round2_near|]. split; apply round2_near.
Qed.

(** ** The exploratory notebook's daily sales *)

Section ExplorationSales.

Open Scope Z_scope.

Lemma exploration_by_day (df : list transaction) :
  Exploration.daily_sales df =
  map (fun d => (d, sales_on d df)) (map fst (groupby order_date df)).
Proof.
  unfold Exploration.daily_sales.
  rewrite (groupby_map _ order_date _
             (fun k rows => (k, Qsum (map price rows)))).
  reflexivity.
Qed.

Lemma exploration_index (df : list transaction) :
  index (Exploration.daily_sales df) = map fst (groupby order_date df).
Proof.
  rewrite exploration_by_day. unfold index. rewrite map_map. cbn [fst].
  apply map_id.
Qed.

Lemma exploration_values (df : list transaction) :
  values (Exploration.daily_sales df) =
  map (fun d => sales_on d df) (map fst (groupby order_date df)).
Proof.
  rewrite exploration_by_day. unfold values. rewrite map_map. reflexivity.
Qed.

Lemma order_day_iff (df : list transaction) (d : date) :
  In d (map fst (groupby order_date df)) <-> has_order_on d df = true.
Proof.
  rewrite (groupby_keys _ order_date). unfold has_order_on.
  rewrite existsb_exists, in_map_iff.
  split; intros (t & H1 & H2); exists t.
  - split; [exact H2 | apply Z.eqb_eq, H1].
  - split; [apply Z.eqb_eq, H2 | exact H1].
Qed.

Lemma exploration_total (df : list transaction) :
  (Qsum (values (Exploration.daily_sales df)) == Qsum (map price df))%Q.
Proof.
  rewrite exploration_values. unfold sales_on.
  apply sum_by_key.
  - apply ascending_keys_NoDup, groupby_ascending.
  - apply groupby_covers.
Qed.

Lemma order_days_nil (df : list transaction) :
  map fst (groupby order_date df) = [] <-> df = [].
Proof.
  split.
  - intros E. destruct df as [|t df]; [reflexivity|]. exfalso.
    assert (H : In (order_date t) (map fst (groupby order_date (t :: df)))).
    { apply groupby_covers. left. reflexivity. }
    rewrite E in H. contradiction.
  - intros ->. reflexivity.
Qed.

Lemma combine_map_self (A B : Type) (f : A -> B) (l : list A) :
  combine l (map f l) = map (fun a => (a, f a)) l.
Proof.
  induction l as [|a l IH]; cbn [map combine]; [reflexivity|].
  rewrite IH. reflexivity.
Qed.

Lemma first_and_last (A B : Type) (f : A -> Q) (G : Q -> Q -> B)
    (l : list A) (d : A) :
  l <> [] ->
  match map f l, rev (map f l) with
  | first :: _, last :: _ => Some (G last first)
  | _, _ => None
  end = Some (G (f (last l d)) (f (hd d l))).
Proof.
  intros Hne. rewrite <- map_rev.
  destruct l as [|a l]; [congruence|]. cbn [map hd].
  destruct (rev (a :: l)) as [|h tl] eqn:Er.
  { apply (f_equal (@length A)) in Er. rewrite length_rev in Er.
    discriminate. }
  assert (Hlast : last (a :: l) d = h).
  { rewrite <- (rev_involutive (a :: l)), Er. cbn [rev].
    apply last_last. }
  rewrite Hlast. reflexivity.
Qed.

(** The first and the last day of the grouped series are the earliest and
    the latest order date. *)
Lemma order_days_ends (df : list transaction) :
  df <> [] ->
  min_date df = Some (hd 0 (map fst (groupby order_date df))) /\
  max_date df = Some (last (map fst (groupby order_date df)) 0).
Proof.
  intros Hne.
  pose proof (ascending_keys_sorted _ _ (groupby_ascending _ order_date df))
    as Hs.
  assert (Hk : map fst (groupby order_date df) <> []).
  { intros E. apply order_days_nil in E. contradiction. }
  destruct (sorted_ends _ Hs Hk) as [Hmin Hmax].
  unfold min_date, max_date.
  rewrite <- Hmin, <- Hmax. split.
  - apply dates_min_ext. intros x. symmetry. apply (groupby_keys _ order_date).
  - apply dates_max_ext. intros x. symmetry. apply (groupby_keys _ order_date).
Qed.

End ExplorationSales.

(** X21: the exploratory notebook's daily sales hold one entry per day that
    has an order, days ascending, each the sum of that day's prices; the
    entries add up to the total revenue, the printed average is NaN exactly
    for an empty data set and otherwise is the revenue divided by the number
    of days with orders; every entry appears unchanged in the forecasting
    notebook's zero-filled series. *)
Theorem exploration_daily_sales (df : list transaction) :
  StronglySorted Z.lt (index (Exploration.daily_sales df)) /\
  (forall d, In d (index (Exploration.daily_sales df)) <->
             has_order_on d df = true) /\
  (forall d v, In (d, v) (Exploration.daily_sales df) -> v = sales_on d df) /\
  (Qsum (values (Exploration.daily_sales df)) == Qsum (map price df))%Q /\
  (Exploration.average_daily_sales df = NaN <-> df = []) /\
  (forall a, Exploration.average_daily_sales df = Finite a ->
             (a * Qofnat (length (Exploration.daily_sales df))
              == Qsum (map price df))%Q) /\
  (forall full, daily_sales df = Ok full ->
     forall d v, In (d, v) (Exploration.daily_sales df) -> In (d, v) full).
Proof.
  split; [|split; [|split; [|split; [|split; [|split]]]]].
  - rewrite exploration_index.
    apply ascending_keys_sorted, groupby_ascending.
  - intros d. rewrite exploration_index. apply order_day_iff.
  - intros d v Hin. rewrite exploration_by_day in Hin.
    apply in_map_iff in Hin. destruct Hin as (d' & [= <- <-] & _).
    reflexivity.
  - apply exploration_total.
  - unfold Exploration.average_daily_sales, mean_or_nan.
    rewrite exploration_values.
    destruct (map fst (groupby order_date df)) as [|k ks] eqn:E.
    + cbn [map]. apply order_days_nil in E. tauto.
    + cbn [map]. split; [discriminate|].
      intros ->. discriminate.
  - intros a Ha. unfold Exploration.average_daily_sales, mean_or_nan in Ha.
    pose proof (exploration_total df) as Htot.
    assert (Hlen : length (values (Exploration.daily_sales df))
                   = length (Exploration.daily_sales df))
      by (unfold values; apply length_map).
    destruct (values (Exploration.daily_sales df)) as [|v vs] eqn:E;
      [discriminate|].
    injection Ha as <-. rewrite <- Hlen, <- Htot.
    assert (Hpos : (0 < Qofnat (length (v :: vs)))%Q)
      by (apply Qofnat_pos; cbn [length]; lia).
    change (Qofnat (S (length vs))) with (Qofnat (length (v :: vs))).
    unfold Qdiv. rewrite <- Qmult_assoc.
    rewrite (Qmult_comm (/ Qofnat (length (v :: vs)))).
    rewrite Qmult_inv_r by lra. apply Qmult_1_r.
  - intros full Hfull d v Hin.
    destruct (daily_sales_shape df full Hfull)
      as (lo & hi & Hlo & Hhi & Hle & Hidx & Hval).
    rewrite <- (combine_index_values full), Hval, combine_map_self.
    rewrite exploration_by_day in Hin.
    apply in_map_iff in Hin. destruct Hin as (d' & [= <- <-] & Hd).
    apply in_map_iff. exists d'. split; [reflexivity|].
    rewrite Hidx. apply day_range_In.
    apply (groupby_keys _ order_date) in Hd. apply in_map_iff in Hd.
    destruct Hd as (t & <- & Ht).
    pose proof (order_dates_in_range df lo hi Hlo Hhi t Ht). lia.
Qed.

(** X22: the printed sales growth compares the revenue of the latest order
    date with that of the earliest order date, whatever the order of the
    rows; it is a finite percentage when the earliest day's revenue is not
    zero, and on an empty data set the positional access fails. *)
Theorem sales_growth_first_last (df : list transaction) :
  match min_date df, max_date df with
  | Some lo, Some hi =>
      Exploration.sales_growth df =
        Some (fscale (fadd (fdiv (sales_on hi df) (sales_on lo df))
                           (Finite (-1))) 100) /\
      (~ (sales_on lo df == 0)%Q ->
       Exploration.sales_growth df =
         Some (Finite ((sales_on hi df / sales_on lo df + -1) * 100)%Q))
  | _, _ => df = [] /\ Exploration.sales_growth df = None
  end.
Proof.
  destruct df as [|t df]; [cbn; split; reflexivity|].
  assert (Hne : t :: df <> []) by discriminate.
  destruct (order_days_ends (t :: df) Hne) as [Hmin Hmax].
  rewrite Hmin, Hmax.
  assert (Hgrowth :
            Exploration.sales_growth (t :: df) =
            Some (fscale
                    (fadd (fdiv (sales_on (last (map fst (groupby order_date (t :: df))) 0)
                                          (t :: df))
                                (sales_on (hd 0 (map fst (groupby order_date (t :: df))))
                                          (t :: df)))
                          (Finite (-1))) 100)).
  { unfold Exploration.sales_growth. rewrite exploration_values.
    assert (Hk : map fst (groupby order_date (t :: df)) <> []).
    { intros E. apply order_days_nil in E. congruence. }
    exact (first_and_last _ _ (fun d => sales_on d (t :: df))
             (fun last first =>
                fscale (fadd (fdiv last first) (Finite (-1))) 100)
             _ 0 Hk). }
  split; [exact Hgrowth|].
  intros Hnz. rewrite Hgrowth. unfold fdiv.
  apply Qeq_bool_false in Hnz. rewrite Hnz. reflexivity.
Qed.
